(** * Market basket analysis: frequent itemsets and association rules

    A shallow embedding of [src/market_basket.py].  The program reads a
    table of line items, pivots it into a boolean order x item matrix
    ([load_and_prepare]), mines frequent itemsets with one of two routines
    of the mlxtend library ([mine_frequent_itemsets]) and derives ranked
    association rules ([derive_rules]).

    Conventions of the embedding:
    - a pandas [DataFrame] with a default index is the list of its rows, a
      row being a record of its columns; the basket matrix keeps its row
      and column labels;
    - [float64] columns (supports and metrics) are exact rationals [Q], and
      the value [inf] that a conviction column may hold is the constructor
      [PInf]; a statement about such a column is about the exact value, of
      which the float is the rounding, so no theorem here equates two
      floats that the program computes along different paths;
    - a Python [frozenset] of item names is a [gset string], a [dict] keyed
      by frozensets is a [gmap (gset string)]; the order in which Python
      iterates over a frozenset follows the hashes of its members, which
      change with the hash seed of the process: [IterationOrder] makes it
      a parameter, and [elements] is the instance the unparametrised
      definitions use;
    - a raised exception is the [Err] branch of [result]. *)

From stdpp Require Import base gmap sets list strings sorting pretty.
From Stdlib Require Import QArith Qround Lqa.

Close Scope Q_scope.
#[local] Open Scope string_scope.
#[local] Open Scope list_scope.
#[local] Open Scope nat_scope.
#[local] Set Warnings "-clear-no-such-hyp".

(** ** Exceptions *)

Inductive exn : Type :=
| ValueError (msg : string)
| KeyError (msg : string).

Inductive result (A : Type) : Type :=
| Ok (a : A)
| Err (e : exn).
Arguments Ok {A} a.
Arguments Err {A} e.

#[global] Instance result_ret : MRet result := λ A a, Ok a.
#[global] Instance result_bind : MBind result := λ A B k r,
  match r with
  | Ok a => k a
  | Err e => Err e
  end.
#[global] Instance result_fmap : FMap result := λ A B g r,
  match r with
  | Ok a => Ok (g a)
  | Err e => Err e
  end.

(** ** Frames *)

(** One row of the transactions CSV; only the three columns the program
    reads are kept. *)
Record line_item : Type := LineItem {
  order_id : Z;
  item : string;
  quantity : Z
}.

(** The basket matrix: row labels, column labels and the boolean rows.  A
    cell that a short row does not hold reads [false]. *)
Record bool_frame : Type := BoolFrame {
  index : list Z;
  columns : list string;
  values : list (list bool)
}.

Definition cell (b : bool_frame) (i j : nat) : bool :=
  nth j (nth i (values b) []) false.

(** A row of the frequent-itemset frame (columns [support], [itemsets]). *)
Record fi_row : Type := FiRow {
  support : Q;
  itemsets : gset string
}.

(** A float that may be [inf]. *)
Inductive float : Type :=
| Fin (q : Q)
| PInf.

(** A row of the frame [association_rules] returns, with the columns the
    program goes on to use. *)
Record rule : Type := Rule {
  antecedents : gset string;
  consequents : gset string;
  rule_support : Q;
  confidence : Q;
  lift : Q;
  leverage : Q;
  conviction : float
}.

(** A row of the frame [derive_rules] returns: the selected columns, the
    two readable ones first. *)
Record rule_out : Type := RuleOut {
  antecedents_str : string;
  consequents_str : string;
  out : rule
}.

(** ** numpy and pandas operations *)

Section StableSort.
Context {A : Type}.
Variable leb : A → A → bool.

(** A stable sort ([np.lexsort], Python's [sorted]): a row is put in
    front of the first row it does not come strictly after, so rows with
    equal keys keep the order they had. *)
Fixpoint insert_sorted (x : A) (l : list A) : list A :=
  match l with
  | [] => [x]
  | y :: l' => if leb x y then x :: l else y :: insert_sorted x l'
  end.

Fixpoint stable_sort (l : list A) : list A :=
  match l with
  | [] => []
  | x :: l' => insert_sorted x (stable_sort l')
  end.
End StableSort.

Module Numpy.

(** numpy's sort of small arrays (at most 16 elements) is this insertion
    sort: going left to right, an element moves left past every
    neighbour it is strictly smaller than, and stops at the first one it
    is not.  [sorted_rev] is the sorted part, last element first. *)
Fixpoint sift {A : Type} (lt : A → A → bool) (x : A) (sorted_rev : list A)
  : list A :=
  match sorted_rev with
  | [] => [x]
  | y :: rest => if lt x y then y :: sift lt x rest else x :: sorted_rev
  end.

Definition insertion_sort {A : Type} (lt : A → A → bool) (l : list A)
  : list A :=
  reverse (foldl (λ acc x, sift lt x acc) [] l).

End Numpy.

(** Python's [<] on frozensets: proper inclusion. *)
Definition frozenset_lt (a b : gset string) : bool := bool_decide (a ⊂ b).

(** The order numpy gives an object array of frozensets.  pandas sorts the
    distinct values of an object column with numpy's [argsort] under
    Python's [<]; on frozensets [<] is not a total order, so the outcome
    depends on the sorting routine numpy picks.  The routine is a parameter
    of the development. *)
Class ObjectSort : Type :=
  object_sort : list (gset string) → list (gset string).

(** What numpy runs when the column has at most 16 distinct itemsets. *)
Definition small_object_sort : ObjectSort :=
  Numpy.insertion_sort frozenset_lt.

Module Pandas.

(** [unique] keeps the first occurrence of every value, in order of
    appearance. *)
Fixpoint unique `{EqDecision A} (l : list A) : list A :=
  match l with
  | [] => []
  | x :: l' => x :: filter (λ y, y ≠ x) (unique l')
  end.

(** The group keys of a [pivot_table]: the distinct values, sorted. *)
Definition sorted_keys `{EqDecision A} (leb : A → A → bool) (l : list A)
  : list A :=
  stable_sort leb (unique l).

(** [aggfunc="max"] on one group; an empty group has no value (NaN). *)
Definition agg_max (group : list Z) : option Z :=
  match group with
  | [] => None
  | v :: vs => Some (foldl Z.max v vs)
  end.

(** [fill_value] replaces the missing cells of a pivot table. *)
Definition fillna (fill_value : Z) (c : option Z) : Z :=
  default fill_value c.

(** [astype(bool)] on an integer cell. *)
Definition astype_bool (v : Z) : bool := negb (v =? 0)%Z.

(** The code of a value in an ordered categorical: its position among
    the categories. *)
Fixpoint code `{EqDecision A} (x : A) (categories : list A) : nat :=
  match categories with
  | [] => 0
  | y :: rest => if decide (x = y) then 0 else S (code x rest)
  end.

(** The key order of [sort_values(["support", "itemsets"],
    ascending=[False, True])]: greater support first; among equal
    supports, smaller itemset code first. *)
Definition fi_leb (categories : list (gset string)) (r1 r2 : fi_row)
  : bool :=
  match (support r2 ?= support r1)%Q with
  | Lt => true
  | Gt => false
  | Eq => (code (itemsets r1) categories <=? code (itemsets r2) categories)%nat
  end.

Definition sort_values_fi `{ObjectSort} (fi : list fi_row) : list fi_row :=
  let categories := object_sort (unique (itemsets <$> fi)) in
  stable_sort (fi_leb categories) fi.

(** The key order of [sort_values(["lift", "confidence", "support"],
    ascending=False)]. *)
Definition rules_leb (r1 r2 : rule) : bool :=
  match (lift r2 ?= lift r1)%Q with
  | Lt => true
  | Gt => false
  | Eq =>
      match (confidence r2 ?= confidence r1)%Q with
      | Lt => true
      | Gt => false
      | Eq => Qle_bool (rule_support r2) (rule_support r1)
      end
  end.

Definition sort_values_rules (rules : list rule) : list rule :=
  stable_sort rules_leb rules.

End Pandas.

(** ** Python helpers *)

(** [sep.join(l)] *)
Fixpoint join (sep : string) (l : list string) : string :=
  match l with
  | [] => ""
  | [x] => x
  | x :: l' => x +:+ sep +:+ join sep l'
  end.

(** [sorted(list(s))] on a frozenset of strings *)
Definition sorted (s : gset string) : list string :=
  stable_sort String.leb (elements s).

(** [itertools.combinations(l, r)] *)
Fixpoint combinations {A : Type} (l : list A) (r : nat) : list (list A) :=
  match r with
  | 0 => [[]]
  | S r' =>
      match l with
      | [] => []
      | x :: l' => ((x ::.) <$> combinations l' r') ++ combinations l' r
      end
  end.

(** ** The mlxtend routines *)

Module Mlxtend.

(** *** Support counting (spec 4.1) *)

(** [X[t, j]] for a row [t] of the matrix *)
Definition has (row : list bool) (j : nat) : bool := nth j row false.

(** The row holds every column of the itemset. *)
Definition contains (s : list nat) (row : list bool) : bool :=
  forallb (has row) s.

(** The number of rows that hold the itemset. *)
Definition count (X : list (list bool)) (s : list nat) : nat :=
  length (filter (λ row, contains s row) X).

(** [c / n] as an exact rational.  For [n = 0] this is [0], where numpy
    gives [nan]: neither reaches a positive threshold. *)
Definition ratio (c n : nat) : Q := Z.of_nat c # Pos.of_nat n.

Definition support_of (X : list (list bool)) (s : list nat) : Q :=
  ratio (count X s) (length X).

(** [support >= min_support] *)
Definition meets (min_support q : Q) : bool := Qle_bool min_support q.

(** [use_colnames=True]: the frozenset of the labels of the columns. *)
Definition frozenset_of (cols : list string) (s : list nat) : gset string :=
  list_to_set ((λ j, nth j cols "") <$> s).

Definition fi_row_of (b : bool_frame) (s : list nat) : fi_row :=
  {| support := support_of (values b) s;
     itemsets := frozenset_of (columns b) s |}.

(** *** Candidate generation (spec 4.2) *)

(** Join step: two k-itemsets with the same first k-1 columns whose last
    columns differ give their union; [a < b] forms each union once. *)
Fixpoint join_pair (s t : list nat) : option (list nat) :=
  match s, t with
  | [a], [b] => if (a <? b)%nat then Some [a; b] else None
  | x :: s', y :: t' =>
      if decide (x = y) then (x ::.) <$> join_pair s' t' else None
  | _, _ => None
  end.

Definition join_step (F : list (list nat)) : list (list nat) :=
  s ← F; t ← F; option_list (join_pair s t).

(** The subsets that lack one member. *)
Fixpoint drop_one (c : list nat) : list (list nat) :=
  match c with
  | [] => []
  | x :: c' => c' :: ((x ::.) <$> drop_one c')
  end.

(** Prune step: every k-subset of the candidate is frequent. *)
Definition survives (F : list (list nat)) (c : list nat) : bool :=
  forallb (λ sub, bool_decide (sub ∈ F)) (drop_one c).

Definition generate (F : list (list nat)) : list (list nat) :=
  Pandas.unique (filter (λ c, survives F c) (join_step F)).

(** *** The level-wise miner (spec 4.3) *)

Section Miner.
Variable X : list (list bool).
Variable min_support : Q.

Definition frequent (s : list nat) : bool :=
  meets min_support (support_of X s).

(** One state of the miner: the candidates of level k, with
    [remaining] = item count - k levels left above it. *)
Fixpoint miner (remaining : nat) (candidates : list (list nat))
  : list (list nat) :=
  let level := filter (λ s, frequent s) candidates in
  match remaining with
  | 0 => level
  | S r =>
      match level with
      | [] => []
      | _ => level ++ miner r (generate level)
      end
  end.
End Miner.

(** Modelled from the spec: [apriori] is imported from
    mlxtend.frequent_patterns, which is not under src/.  The search is
    the state machine of spec 4.3 over the candidate generator of spec
    4.2, on tuples of column positions; the rows come out level by
    level.  The argument check is the library's: it raises [ValueError]
    for a [min_support] outside the interval (0, 1] and does not look at
    the shape of the frame; the message is the library's, without the
    offending value that it appends.  A support is the exact quotient
    of the count by the number of rows. *)
Definition apriori (df : bool_frame) (min_support : Q)
  : result (list fi_row) :=
  if Qle_bool min_support 0 || negb (Qle_bool min_support 1) then
    Err (ValueError "`min_support` must be a positive number within the interval `(0, 1]`")
  else
    let m := length (columns df) in
    Ok (fi_row_of df <$>
          miner (values df) min_support (m - 1) ((λ j, [j]) <$> seq 0 m)).

(** *** The prefix tree *)

(** A node: its item, the number of transactions through it, its
    children. *)
#[warnings="-register-all"]
Inductive fptree : Type :=
| FPNode (node_item : nat) (node_count : nat) (children : list fptree).

(** Add [w] transactions with the items [p], in tree order, below the
    forest [f]. *)
Fixpoint insert_itemset (p : list nat) (w : nat) (f : list fptree)
  : list fptree :=
  match p with
  | [] => f
  | i :: p' =>
      (fix go (f : list fptree) : list fptree :=
         match f with
         | [] => [FPNode i w (insert_itemset p' w [])]
         | FPNode j c ch :: f' =>
             if decide (i = j)
             then FPNode j (c + w) (insert_itemset p' w ch) :: f'
             else FPNode j c ch :: go f'
         end) f
  end.

(** The nodes of item [i] below a node, each with the items on its path
    from the root and its count.  An item occurs once on a path, so the
    search stops at a node of [i]. *)
Fixpoint nodes_of (i : nat) (path : list nat) (t : fptree)
  : list (list nat * nat) :=
  match t with
  | FPNode j c ch =>
      if decide (j = i) then [(path, c)]
      else flat_map (nodes_of i (path ++ [j])) ch
  end.

Definition nodes_in (i : nat) (f : list fptree) : list (list nat * nat) :=
  flat_map (nodes_of i []) f.

(** The total weight of the paths that satisfy [φ]. *)
Definition weight (φ : list nat → bool) (base : list (list nat * nat))
  : nat :=
  sum_list_with (λ pc, if φ pc.1 then pc.2 else 0) base.

Definition item_count (i : nat) (f : list fptree) : nat :=
  weight (λ _, true) (nodes_in i f).

Section Growth.
(** [freq c]: the count [c] reaches the threshold. *)
Variable freq : nat → bool.

(** The conditional tree of item [i]: the prefix paths of the nodes of
    [i], restricted to the items that are frequent together with [i],
    each inserted with the count of its node. *)
Definition conditional_tree (i : nat) (f : list fptree) : list fptree :=
  let base := nodes_in i f in
  let keep j := freq (weight (λ p, bool_decide (j ∈ p)) base) in
  foldl (λ t pc, insert_itemset (filter (λ j, keep j) pc.1) pc.2 t)
        [] base.

(** Recursive mining: [items] are the items of the tree from the leaves
    up; an item that is frequent in the tree is emitted in front of
    the suffix, and its conditional tree is mined for the larger
    itemsets. *)
Fixpoint fpg_step (items : list nat) (f : list fptree)
  (suffix : list nat) : list (list nat * nat) :=
  match items with
  | [] => []
  | i :: rest =>
      let c := item_count i f in
      (if freq c
       then (i :: suffix, c)
              :: fpg_step rest (conditional_tree i f) (i :: suffix)
       else [])
      ++ fpg_step rest f suffix
  end.
End Growth.

(** Modelled from the spec: [fpgrowth] is imported from
    mlxtend.frequent_patterns, which is not under src/.  Spec 4.2 names
    the strategy: a prefix tree of the transactions, mined by recursive
    conditional trees.  The tree holds the frequent columns of each row
    in order of descending support.  The argument check is the
    library's, the same as [apriori]'s.  An item or an itemset is kept
    when the exact quotient of its count by the number of rows reaches
    [min_support]; the library compares the counts inside the tree with
    [math.ceil(min_support * n)] computed in binary64, which is one
    above the exact bound when the product rounds up past an integer
    (see [boundary_basket]). *)
Definition fpgrowth (df : bool_frame) (min_support : Q)
  : result (list fi_row) :=
  if Qle_bool min_support 0 || negb (Qle_bool min_support 1) then
    Err (ValueError "`min_support` must be a positive number within the interval `(0, 1]`")
  else
    let X := values df in
    let n := length X in
    let freq c := meets min_support (ratio c n) in
    let items :=
      filter (λ j, freq (count X [j])) (seq 0 (length (columns df))) in
    let order := stable_sort (λ a b, (count X [b] <=? count X [a])%nat) items in
    let tree :=
      foldl (λ t row, insert_itemset (filter (λ j, has row j) order) 1 t)
            [] X in
    Ok ((λ sc, {| support := ratio sc.2 n;
                  itemsets := frozenset_of (columns df) sc.1 |})
          <$> fpg_step freq (reverse order) tree []).

(** *** Association rules (spec 4.4) *)

(** [conviction_helper]: [inf] unless the confidence is below 1. *)
Definition conviction_of (sAC sA sC : Q) : float :=
  let conf := (sAC / sA)%Q in
  if Qlt_le_dec conf 1 then Fin ((1 - sC) / (1 - conf))%Q else PInf.

(** The metric functions, by name; each takes the supports of the
    itemset, of the antecedent and of the consequent. *)
Definition metric_dict (metric : string) : option (Q → Q → Q → float) :=
  if decide (metric = "support") then
    Some (λ sAC _ _, Fin sAC)
  else if decide (metric = "confidence") then
    Some (λ sAC sA _, Fin (sAC / sA)%Q)
  else if decide (metric = "lift") then
    Some (λ sAC sA sC, Fin (sAC / sA / sC)%Q)
  else if decide (metric = "leverage") then
    Some (λ sAC sA sC, Fin (sAC - sA * sC)%Q)
  else if decide (metric = "conviction") then
    Some conviction_of
  else None.

(** [score >= min_threshold] *)
Definition reaches (score : float) (min_threshold : Q) : bool :=
  match score with
  | Fin q => Qle_bool min_threshold q
  | PInf => true
  end.

(** [dict(zip(keys, values))]: a later row overrides an earlier one. *)
Definition frequent_items_dict (df : list fi_row) : gmap (gset string) Q :=
  foldl (λ d r, <[itemsets r := support r]> d) ∅ df.

(** The splits of one itemset: antecedents from the largest size down,
    each size in the order of [itertools.combinations] over the
    iteration order of the set, here that of [elements]; [splits_in]
    below takes the iteration order as a parameter. *)
Definition splits (k : gset string) : list (gset string * gset string) :=
  idx ← reverse (seq 1 (size k - 1));
  c ← combinations (elements k) idx;
  [(list_to_set c, k ∖ list_to_set c)].

(** The row of a rule, from the supports of the itemset, of the
    antecedent and of the consequent.  The library computes the lift as
    the confidence divided by the support of the consequent, each
    division rounded to binary64; the fields here are the exact
    quotients. *)
Definition rule_row (ac : gset string * gset string) (sAC sA sC : Q) : rule :=
  {| antecedents := ac.1;
     consequents := ac.2;
     rule_support := sAC;
     confidence := (sAC / sA)%Q;
     lift := (sAC / sA / sC)%Q;
     leverage := (sAC - sA * sC)%Q;
     conviction := conviction_of sAC sA sC |}.

(** One split of an itemset of support [sAC]: look both sides up, score
    the rule, keep it when the score reaches the threshold. *)
Definition rule_of (d : gmap (gset string) Q)
    (score : Q → Q → Q → float) (min_threshold : Q)
    (sAC : Q) (ac : gset string * gset string)
  : result (list rule) :=
  match d !! ac.1, d !! ac.2 with
  | Some sA, Some sC =>
      if reaches (score sAC sA sC) min_threshold
      then Ok [rule_row ac sAC sA sC]
      else Ok []
  | _, _ =>
      Err (KeyError "frequent itemsets must contain all subsets of each itemset")
  end.

(** Run [g] over a list, stopping at the first exception. *)
Fixpoint collect {A B : Type} (g : A → result (list B)) (l : list A)
  : result (list B) :=
  match l with
  | [] => Ok []
  | x :: l' => ys ← g x; zs ← collect g l'; Ok (ys ++ zs)
  end.

(** Modelled from the spec: [association_rules] is imported from
    mlxtend.frequent_patterns, which is not under src/.  Spec 4.4: every
    frequent itemset is split into antecedent and consequent in all
    ways, the metrics are computed from the supports of the three sets,
    and a rule is kept when the selected metric reaches the threshold.
    The supports are looked up in the input frame itself; the library
    raises [ValueError] for an empty frame or an unknown metric and
    [KeyError] for a subset the frame lacks. *)
Definition association_rules (df : list fi_row) (metric : string)
    (min_threshold : Q) : result (list rule) :=
  match df with
  | [] => Err (ValueError "the input DataFrame `df` containing the frequent itemsets is empty")
  | _ =>
      match metric_dict metric with
      | None => Err (ValueError "metric must be 'confidence' or 'lift'")
      | Some score =>
          let d := frequent_items_dict df in
          collect
            (λ k, match d !! k with
                  | Some sAC =>
                      collect (rule_of d score min_threshold sAC)
                              (splits k)
                  | None => Ok []
                  end)
            (Pandas.unique (itemsets <$> df))
      end
  end.

End Mlxtend.

(** ** The program *)

(** [(d["quantity"] > 0).astype(int)] *)
Definition qty (r : line_item) : Z :=
  if (0 <? quantity r)%Z then 1%Z else 0%Z.

(** The [qty] values of the group [(o, it)] of the pivot. *)
Definition group (df : list line_item) (o : Z) (it : string) : list Z :=
  qty <$> filter (λ r, order_id r = o ∧ item r = it) df.

(** [load_and_prepare], after [pd.read_csv]: the pivot on
    [index="order_id"], [columns="item"], [values="qty"] with
    [aggfunc="max"] and [fill_value=0], then [astype(bool)]. *)
Definition load_and_prepare (df : list line_item) : bool_frame :=
  let idx := Pandas.sorted_keys Z.leb (order_id <$> df) in
  let cols := Pandas.sorted_keys String.leb (item <$> df) in
  {| index := idx;
     columns := cols;
     values :=
       (λ o, (λ it, Pandas.astype_bool
                      (Pandas.fillna 0%Z (Pandas.agg_max (group df o it))))
               <$> cols)
         <$> idx |}.

(** [mine_frequent_itemsets]: the library call, then the sort in place. *)
Definition mine_frequent_itemsets `{ObjectSort} (basket : bool_frame)
    (algo : string) (min_support : Q) : result (list fi_row) :=
  fi ← (if decide (algo = "apriori") then
          Mlxtend.apriori basket min_support
        else if decide (algo = "fpgrowth") then
          Mlxtend.fpgrowth basket min_support
        else Err (ValueError "algo must be 'apriori' or 'fpgrowth'"));
  Ok (Pandas.sort_values_fi fi).

(** [derive_rules]: the library call, the sort, the two readable columns
    and the column selection. *)
Definition derive_rules (fi : list fi_row) (metric : string)
    (min_threshold : Q) : result (list rule_out) :=
  rules ← Mlxtend.association_rules fi metric min_threshold;
  let rules := Pandas.sort_values_rules rules in
  Ok ((λ r, {| antecedents_str := join ", " (sorted (antecedents r));
               consequents_str := join ", " (sorted (consequents r));
               out := r |}) <$> rules).

(** ** The reference enumeration *)

(** All sublists of a list, in the order of the list. *)
Fixpoint sublists {A : Type} (l : list A) : list (list A) :=
  match l with
  | [] => [[]]
  | x :: l' => ((x ::.) <$> sublists l') ++ sublists l'
  end.

(** The transaction [i] holds every column of the itemset. *)
Definition holds (b : bool_frame) (i : nat) (s : list nat) : bool :=
  forallb (λ j, cell b i j) s.

(** The fraction of the transactions that hold the itemset. *)
Definition exact_support (b : bool_frame) (s : list nat) : Q :=
  let n := length (values b) in
  Mlxtend.ratio (length (filter (λ i, holds b i s) (seq 0 n))) n.

(** Brute force: every non-empty set of columns whose exact support
    reaches the threshold, with that support. *)
Definition brute_force (b : bool_frame) (min_support : Q) : list fi_row :=
  (λ s, {| support := exact_support b s;
           itemsets := Mlxtend.frozenset_of (columns b) s |})
    <$> filter (λ s, s ≠ [] ∧ Qle_bool min_support (exact_support b s))
               (sublists (seq 0 (length (columns b)))).

(** [valid m s]: [s] lists columns of a frame with [m] columns, in
    increasing order. *)
Definition valid (m : nat) (s : list nat) : Prop := s `sublist_of` seq 0 m.

(** The candidates of level [k]: distinct valid itemsets of [k] columns,
    with every frequent one among them. *)
Definition level_inv (m : nat) (X : list (list bool)) (min_support : Q)
    (k : nat) (candidates : list (list nat)) : Prop :=
  NoDup candidates ∧
  (∀ s, s ∈ candidates → valid m s ∧ length s = k) ∧
  (∀ s, valid m s → length s = k → Mlxtend.frequent X min_support s →
        s ∈ candidates).

(** ** Weighted transaction lists, for the prefix tree *)

(** The items of a transaction in front of item [i]. *)
Fixpoint before (i : nat) (t : list nat) : list nat :=
  match t with
  | [] => []
  | j :: t' => if decide (j = i) then [] else j :: before i t'
  end.

(** The forest [f] stores the weighted transactions [D]: the nodes of an
    item carry the prefixes of the transactions that hold the item, with
    their weights. *)
Definition represents (f : list Mlxtend.fptree) (D : list (list nat * nat))
  : Prop :=
  ∀ (i : nat) (φ : list nat → bool),
    Mlxtend.weight φ (Mlxtend.nodes_in i f)
    = Mlxtend.weight (λ t, bool_decide (i ∈ t) && φ (before i t)) D.

(** The weight of the transactions that hold every item of [s]. *)
Definition db_count (D : list (list nat * nat)) (s : list nat) : nat :=
  Mlxtend.weight (λ t, bool_decide (s ⊆ t)) D.

(** The items that stay in the conditional tree of [i], and the weighted
    transactions that tree stores. *)
Definition cond_keep (freq : nat → bool) (i : nat) (f : list Mlxtend.fptree)
    (j : nat) : bool :=
  freq (Mlxtend.weight (λ p, bool_decide (j ∈ p)) (Mlxtend.nodes_in i f)).

Definition cond_db (freq : nat → bool) (i : nat) (f : list Mlxtend.fptree)
  : list (list nat * nat) :=
  (λ pc, (filter (λ j, cond_keep freq i f j) pc.1, pc.2))
    <$> Mlxtend.nodes_in i f.

(** The parts of [fpgrowth]: the threshold on counts, the order of the
    items in the tree, and the weighted transactions the tree stores. *)
Definition fp_freq (b : bool_frame) (min_support : Q) (c : nat) : bool :=
  Mlxtend.meets min_support (Mlxtend.ratio c (length (values b))).

Definition fp_order (b : bool_frame) (min_support : Q) : list nat :=
  stable_sort
    (λ j k, Mlxtend.count (values b) [k] <=? Mlxtend.count (values b) [j])
    (filter (λ j, fp_freq b min_support (Mlxtend.count (values b) [j]))
            (seq 0 (length (columns b)))).

Definition fp_db (b : bool_frame) (min_support : Q) : list (list nat * nat) :=
  (λ row, (filter (λ j, Mlxtend.has row j) (fp_order b min_support), 1))
    <$> values b.

(** ** The orders the results are compared with *)

(** The canonical representation of an itemset: its members, sorted. *)
Definition canonical (s : gset string) : list string := sorted s.

(** Sequences of strings, compared item by item. *)
Fixpoint sequence_leb (l1 l2 : list string) : bool :=
  match l1, l2 with
  | [], _ => true
  | _ :: _, [] => false
  | x :: l1', y :: l2' =>
      match String.compare x y with
      | Lt => true
      | Gt => false
      | Eq => sequence_leb l1' l2'
      end
  end.

(** Descending support, then ascending canonical representation. *)
Definition canonical_fi_order (r1 r2 : fi_row) : Prop :=
  (support r2 < support r1)%Q ∨
  ((support r1 == support r2)%Q ∧
   sequence_leb (canonical (itemsets r1)) (canonical (itemsets r2))).

(** Descending lift, confidence and support, then ascending antecedent and
    consequent strings. *)
Definition canonical_rule_order (r1 r2 : rule_out) : Prop :=
  (lift (out r2) < lift (out r1))%Q ∨
  ((lift (out r2) == lift (out r1))%Q ∧
   ((confidence (out r2) < confidence (out r1))%Q ∨
    ((confidence (out r2) == confidence (out r1))%Q ∧
     ((rule_support (out r2) < rule_support (out r1))%Q ∨
      ((rule_support (out r2) == rule_support (out r1))%Q ∧
       sequence_leb [antecedents_str r1; consequents_str r1]
                    [antecedents_str r2; consequents_str r2]))))).

(** Descending lift, then confidence, then support. *)
Definition rule_order (r1 r2 : rule) : Prop :=
  (lift r2 < lift r1)%Q ∨
  ((lift r2 == lift r1)%Q ∧
   ((confidence r2 < confidence r1)%Q ∨
    ((confidence r2 == confidence r1)%Q ∧
     (rule_support r2 <= rule_support r1)%Q))).

#[global] Instance Qeq_decision (x y : Q) : Decision (x == y)%Q := Qeq_dec x y.

(** Two rules with the same lift, confidence and support. *)
Definition tied (a r : rule) : Prop :=
  (lift a == lift r)%Q ∧ (confidence a == confidence r)%Q ∧
  (rule_support a == rule_support r)%Q.

(** ** Example frames *)

(** The scenario of the spec: the transactions {Laptop, Mouse},
    {Laptop, Mouse, Keyboard}, {Laptop} and {Mouse}. *)
Definition demo_table : list line_item :=
  [LineItem 1 "Laptop" 1; LineItem 1 "Mouse" 1;
   LineItem 2 "Laptop" 1; LineItem 2 "Mouse" 2; LineItem 2 "Keyboard" 1;
   LineItem 3 "Laptop" 1;
   LineItem 4 "Mouse" 1].

Definition demo_basket : bool_frame :=
  {| index := [1; 2; 3; 4]%Z;
     columns := ["Keyboard"; "Laptop"; "Mouse"];
     values := [[false; true; true]; [true; true; true];
                [false; true; false]; [false; false; true]] |}.

(** Two transactions, {A, B} and {C}: every frequent itemset has support
    1/2. *)
Definition tie_basket : bool_frame :=
  {| index := [1; 2]%Z;
     columns := ["A"; "B"; "C"];
     values := [[true; true; false]; [false; false; true]] |}.

(** One transaction, {A, B, C}. *)
Definition abc_basket : bool_frame :=
  {| index := [1]%Z; columns := ["A"; "B"; "C"]; values := [[true; true; true]] |}.

(** A frame with no row and no column. *)
Definition empty_basket : bool_frame :=
  {| index := []; columns := []; values := [] |}.

(** A table in which order 3 and item "Desk" occur with quantity 0 only. *)
Definition returns_table : list line_item :=
  [LineItem 1 "Laptop" 1; LineItem 1 "Mouse" 2;
   LineItem 2 "Mouse" 1;
   LineItem 3 "Desk" 0].

(** What is known of a row of the rules frame: it is a split of an
    itemset of the input, scored with the supports of the dictionary. *)
Definition rule_from (fi : list fi_row) (score : Q → Q → Q → float)
    (min_threshold : Q) (r : rule) : Prop :=
  ∃ k sAC a c sA sC,
    k ∈ itemsets <$> fi ∧
    Mlxtend.frequent_items_dict fi !! k = Some sAC ∧
    (a, c) ∈ Mlxtend.splits k ∧
    Mlxtend.frequent_items_dict fi !! a = Some sA ∧
    Mlxtend.frequent_items_dict fi !! c = Some sC ∧
    Mlxtend.reaches (score sAC sA sC) min_threshold ∧
    r = Mlxtend.rule_row (a, c) sAC sA sC.


#[global] Instance tied_dec (a r : rule) : Decision (tied a r).
Proof. unfold tied. apply _. Defined.

(** The frequent itemsets of [demo_basket] at threshold 1/2, and the rules
    derived from them with confidence at least 1/2. *)
Definition demo_itemsets : list fi_row :=
  [ {| support := 3 # 4; itemsets := {["Laptop"]} |};
    {| support := 3 # 4; itemsets := {["Mouse"]} |};
    {| support := 2 # 4; itemsets := {["Laptop"; "Mouse"]} |} ].

Definition demo_rules : list rule_out :=
  match derive_rules demo_itemsets "confidence" (1 # 2) with
  | Ok rs => rs
  | Err _ => []
  end.

(** One transaction, {A, B}. *)
Definition ab_basket : bool_frame :=
  {| index := [1]%Z; columns := ["A"; "B"]; values := [[true; true]] |}.

(** Its frequent itemsets, and the rules derived from them with confidence
    at least 1/2. *)
Definition ab_itemsets : list fi_row :=
  [ {| support := 1 # 1; itemsets := {["A"]} |};
    {| support := 1 # 1; itemsets := {["B"]} |};
    {| support := 1 # 1; itemsets := {["A"; "B"]} |} ].

Definition ab_rules : list rule_out :=
  match derive_rules ab_itemsets "confidence" (1 # 2) with
  | Ok rs => rs
  | Err _ => []
  end.

(** The second rule of [demo_rules]. *)
Definition demo_rule_lm : rule_out :=
  {| antecedents_str := "Laptop";
     consequents_str := "Mouse";
     out := Mlxtend.rule_row ({["Laptop"]}, {["Mouse"]})
              (2 # 4) (3 # 4) (3 # 4) |}.

(** The two steps of [main]. *)
Definition pipeline `{ObjectSort} (b : bool_frame) (algo : string)
    (min_support : Q) (metric : string) (min_threshold : Q)
  : result (list fi_row * list rule_out) :=
  fi ← mine_frequent_itemsets b algo min_support;
  rs ← derive_rules fi metric min_threshold;
  Ok (fi, rs).

(** Every non-empty subset of an itemset of the frame is in the frame. *)
Definition subset_closed (fi : list fi_row) : Prop :=
  ∀ k a, k ∈ itemsets <$> fi → a ≠ ∅ → a ⊆ k → a ∈ itemsets <$> fi.

(** ** The iteration order of a frozenset

    [association_rules] enumerates the antecedents of an itemset with
    [itertools.combinations] over the frozenset itself, that is, over its
    members in the order Python iterates them.  That order is a
    permutation of the members fixed by their hashes; string hashes are
    salted per process, so two runs of the program may see two orders. *)

Class IterationOrder : Type := iteration : gset string → list string.

(** An iteration visits every member once. *)
Definition lawful_iteration (I : IterationOrder) : Prop :=
  ∀ s, iteration s ≡ₚ elements s.

(** The order of [elements], and its reverse. *)
Definition elements_order : IterationOrder := elements.
Definition reverse_order : IterationOrder := λ s, reverse (elements s).

(** [Mlxtend.splits] under an iteration order. *)
Definition splits_in `{IterationOrder} (k : gset string)
  : list (gset string * gset string) :=
  idx ← reverse (seq 1 (size k - 1));
  c ← combinations (iteration k) idx;
  [(list_to_set c, k ∖ list_to_set c)].

(** [Mlxtend.association_rules] under an iteration order. *)
Definition association_rules_in `{IterationOrder} (df : list fi_row)
    (metric : string) (min_threshold : Q) : result (list rule) :=
  match df with
  | [] => Err (ValueError "the input DataFrame `df` containing the frequent itemsets is empty")
  | _ =>
      match Mlxtend.metric_dict metric with
      | None => Err (ValueError "metric must be 'confidence' or 'lift'")
      | Some score =>
          let d := Mlxtend.frequent_items_dict df in
          Mlxtend.collect
            (λ k, match d !! k with
                  | Some sAC =>
                      Mlxtend.collect
                        (Mlxtend.rule_of d score min_threshold sAC)
                        (splits_in k)
                  | None => Ok []
                  end)
            (Pandas.unique (itemsets <$> df))
      end
  end.

(** [derive_rules] under an iteration order. *)
Definition derive_rules_in `{IterationOrder} (fi : list fi_row)
    (metric : string) (min_threshold : Q) : result (list rule_out) :=
  rules ← association_rules_in fi metric min_threshold;
  let rules := Pandas.sort_values_rules rules in
  Ok ((λ r, {| antecedents_str := join ", " (sorted (antecedents r));
               consequents_str := join ", " (sorted (consequents r));
               out := r |}) <$> rules).

(** The two steps of [main] under an iteration order. *)
Definition pipeline_in `{ObjectSort} `{IterationOrder} (b : bool_frame)
    (algo : string) (min_support : Q) (metric : string) (min_threshold : Q)
  : result (list fi_row * list rule_out) :=
  fi ← mine_frequent_itemsets b algo min_support;
  rs ← derive_rules_in fi metric min_threshold;
  Ok (fi, rs).

(** Two runs of [derive_rules] agree up to the order of the rows: both
    raise the same exception, or both return the same rows. *)
Definition same_rows {A : Type} (r1 r2 : result (list A)) : Prop :=
  match r1, r2 with
  | Ok l1, Ok l2 => l1 ≡ₚ l2
  | Err e1, Err e2 => e1 = e2
  | _, _ => False
  end.

(** Four transactions, {A, B} twice, {A} and {C}: at threshold 1/2 the
    two rules of {A, B} have the same lift and two confidences. *)
Definition skew_basket : bool_frame :=
  {| index := [1; 2; 3; 4]%Z;
     columns := ["A"; "B"; "C"];
     values := [[true; true; false]; [true; true; false];
                [true; false; false]; [false; false; true]] |}.

Definition skew_itemsets : list fi_row :=
  [ {| support := 3 # 4; itemsets := {["A"]} |};
    {| support := 2 # 4; itemsets := {["B"]} |};
    {| support := 2 # 4; itemsets := {["A"; "B"]} |} ].

Definition skew_rules : list rule_out :=
  match derive_rules skew_itemsets "confidence" (1 # 2) with
  | Ok rs => rs
  | Err _ => []
  end.

(** ** A matrix on the boundary of the threshold

    25 orders over the items A, B, C: seven hold {A, B}, eight {A, C},
    five {B} and five {C}.  The pair {A, B} has support 7/25, exactly
    the threshold 0.28. *)
Definition boundary_basket : bool_frame :=
  {| index := Z.of_nat <$> seq 1 25;
     columns := ["A"; "B"; "C"];
     values := replicate 7 [true; true; false]
               ++ replicate 8 [true; false; true]
               ++ replicate 5 [false; true; false]
               ++ replicate 5 [false; false; true] |}.

Definition boundary_result : list fi_row :=
  [ {| support := 15 # 25; itemsets := {["A"]} |};
    {| support := 13 # 25; itemsets := {["C"]} |};
    {| support := 12 # 25; itemsets := {["B"]} |};
    {| support := 8 # 25; itemsets := {["A"; "C"]} |};
    {| support := 7 # 25; itemsets := {["A"; "B"]} |} ].

(** ** [main] and the helpers of [src/utils.py]

    [main] is embedded after [parse_args] and [pd.read_csv]: it takes the
    parsed command line and the table the input file holds.  What it does
    to the file system is the list of its operations, in order; the file
    system is taken to accept each of them.  A raised exception ends the
    list. *)

(** The command line, as [argparse] returns it. *)
Module Args.
Record Namespace : Type := {
  input : string;
  outdir : string;
  algo : string;
  min_support : Q;
  metric : string;
  min_threshold : Q;
  top_n : Z
}.
End Args.

(** The [choices] of [--algo] and [--metric]: [parse_args] exits on any
    other value. *)
Definition algo_choices : list string := ["apriori"; "fpgrowth"].

Definition metric_choices : list string :=
  ["support"; "confidence"; "lift"; "leverage"; "conviction"].

Definition parsed (args : Args.Namespace) : Prop :=
  Args.algo args ∈ algo_choices ∧ Args.metric args ∈ metric_choices.

(** A row of the [item_support] frame (columns [item], [support]); the
    mean of a column without rows is NaN, here [None]. *)
Module ItemSupport.
Record row : Type := Row {
  item : string;
  support : option Q
}.
End ItemSupport.

(** A [pathlib.Path]. *)
Inductive path : Type :=
| Path (s : string)
| PathDiv (p : path) (name : string)
| PathParent (p : path).

(** The frames the program writes. *)
Inductive table : Type :=
| ItemSupportTable (rows : list ItemSupport.row)
| ItemsetsTable (fi : list fi_row)
| RulesTable (rs : list rule_out).

(** The bar chart of [plot_top_items]. *)
Record figure : Type := Figure {
  bar_x : list string;
  bar_height : list (option Q);
  title : string;
  xlabel : string;
  ylabel : string
}.

(** JSON values, and the Python values [json.dump] is given: those it
    writes by itself, and any other object, which goes through
    [default]. *)
#[warnings="-register-all"]
Inductive json : Type :=
| JInt (n : Z)
| JFloat (x : float)
| JStr (s : string)
| JList (l : list json)
| JDict (d : list (string * json)).

(** An object [json.dump] cannot write: a set or frozenset of strings, or
    an object of another type, given by its [str()]. *)
Inductive object : Type :=
| SetObject (s : gset string)
| OtherObject (str : string).

#[warnings="-register-all"]
Inductive pyobj : Type :=
| PyInt (n : Z)
| PyFloat (x : float)
| PyStr (s : string)
| PyList (l : list pyobj)
| PyDict (d : list (string * pyobj))
| PyOther (o : object).

Inductive effect : Type :=
| Mkdir (p : path)
| ToCsv (p : path) (df : table) (index : bool)
| JsonDump (p : path) (data : json)
| Savefig (p : path) (fig : figure)
| Print (outdir : path).

(** A computation: the operations done, and the value or the exception. *)
Definition IO (A : Type) : Type := list effect * result A.

#[global] Instance IO_ret : MRet IO := λ A a, ([], Ok a).
#[global] Instance IO_bind : MBind IO := λ A B k m,
  match m with
  | (t, Ok a) => let '(t', r) := k a in (t ++ t', r)
  | (t, Err e) => (t, Err e)
  end.

Definition perform (e : effect) : IO unit := ([e], Ok ()).

(** A call that touches no file. *)
Definition pure {A : Type} (r : result A) : IO A := ([], r).

(** *** [utils.py] *)

Definition _json_default (o : object) : json :=
  match o with
  | SetObject s => JList (JStr <$> sorted s)
  | OtherObject str => JStr str
  end.

(** [json.dump(data, f, indent=2, default=_json_default)] *)
Fixpoint json_dump (data : pyobj) : json :=
  match data with
  | PyInt n => JInt n
  | PyFloat x => JFloat x
  | PyStr s => JStr s
  | PyList l => JList (json_dump <$> l)
  | PyDict d => JDict ((λ kv, (kv.1, json_dump kv.2)) <$> d)
  | PyOther o => _json_default o
  end.

Definition ensure_outdir (p : string) : IO path :=
  let out := Path p in
  _ ← perform (Mkdir out);
  mret out.

Definition save_table (df : table) (p : path) (index : bool) : IO path :=
  _ ← perform (Mkdir (PathParent p));
  _ ← perform (ToCsv p df index);
  mret p.

Definition save_json (data : pyobj) (p : path) : IO path :=
  _ ← perform (Mkdir (PathParent p));
  _ ← perform (JsonDump p (json_dump data));
  mret p.

(** [df.head(n)]: the first [n] rows; for a negative [n], all rows but
    the last [-n]. *)
Definition head {A : Type} (n : Z) (df : list A) : list A :=
  if (0 <=? n)%Z then take (Z.to_nat n) df
  else take (length df - Z.to_nat (- n)) df.

Definition plot_top_items (item_support : list ItemSupport.row) (top_n : Z)
    (outdir : path) : IO path :=
  let top := head top_n item_support in
  let fig :=
    {| bar_x := ItemSupport.item <$> top;
       bar_height := ItemSupport.support <$> top;
       title := "Top " +:+ pretty top_n +:+ " Items by Support";
       xlabel := "Item";
       ylabel := "Support" |} in
  let out_path := PathDiv outdir "fig_top_items.png" in
  _ ← perform (Savefig out_path fig);
  mret out_path.

(** *** [main] *)

(** Column [j] of the matrix. *)
Definition column (b : bool_frame) (j : nat) : list bool :=
  (λ row, nth j row false) <$> values b.

(** The mean of a boolean column: the share of its [True] cells. *)
Definition mean (col : list bool) : option Q :=
  match col with
  | [] => None
  | _ => Some (Mlxtend.ratio (length (filter (λ x : bool, x) col))
                             (length col))
  end.

(** [sort_values("support", ascending=False)] sorts on one column with
    numpy's default [argsort], which is not stable: the order of rows with
    equal support depends on the routine numpy runs.  The routine is a
    parameter; [sorts] is what pandas promises of it. *)
Class SupportSort : Type :=
  sort_values_support : list ItemSupport.row → list ItemSupport.row.

(** Descending support, NaN last. *)
Definition support_desc (r1 r2 : ItemSupport.row) : Prop :=
  match ItemSupport.support r1, ItemSupport.support r2 with
  | Some q1, Some q2 => (q2 <= q1)%Q
  | None, Some _ => False
  | _, None => True
  end.

Record sorts (S : SupportSort) : Prop := Sorts {
  sorts_perm : ∀ l, sort_values_support l ≡ₚ l;
  sorts_desc : ∀ l, StronglySorted support_desc (sort_values_support l)
}.

Definition support_desc_leb (r1 r2 : ItemSupport.row) : bool :=
  match ItemSupport.support r1, ItemSupport.support r2 with
  | Some q1, Some q2 => Qle_bool q2 q1
  | None, Some _ => false
  | _, None => true
  end.

(** A stable routine, as numpy runs on a short column. *)
Definition stable_support_sort : SupportSort :=
  stable_sort support_desc_leb.

(** The single-item supports of [main]: the column means, named
    [support], with the column labels as the column [item], sorted. *)
Definition item_support `{SupportSort} (basket : bool_frame)
  : list ItemSupport.row :=
  sort_values_support
    (imap (λ j it, ItemSupport.Row it (mean (column basket j)))
          (columns basket)).

(** [rules.head(1).to_dict(orient="records")] *)
Definition to_record (r : rule_out) : pyobj :=
  PyDict [("antecedents_str", PyStr (antecedents_str r));
          ("consequents_str", PyStr (consequents_str r));
          ("support", PyFloat (Fin (rule_support (out r))));
          ("confidence", PyFloat (Fin (confidence (out r))));
          ("lift", PyFloat (Fin (lift (out r))));
          ("leverage", PyFloat (Fin (leverage (out r))));
          ("conviction", PyFloat (conviction (out r)));
          ("antecedents", PyOther (SetObject (antecedents (out r))));
          ("consequents", PyOther (SetObject (consequents (out r))))].

Definition top_rule (rules : list rule_out) : list pyobj :=
  match rules with
  | [] => []
  | _ => to_record <$> head 1 rules
  end.

Definition summary (basket : bool_frame) (args : Args.Namespace)
    (rules : list rule_out) : pyobj :=
  PyDict [("n_orders", PyInt (Z.of_nat (length (index basket))));
          ("n_items", PyInt (Z.of_nat (length (columns basket))));
          ("algo", PyStr (Args.algo args));
          ("min_support", PyFloat (Fin (Args.min_support args)));
          ("metric", PyStr (Args.metric args));
          ("min_threshold", PyFloat (Fin (Args.min_threshold args)));
          ("top_rule", PyList (top_rule rules))].

Definition main `{ObjectSort} `{SupportSort} (args : Args.Namespace)
    (df : list line_item) : IO unit :=
  outdir ← ensure_outdir (Args.outdir args);
  let basket := load_and_prepare df in
  let item_support := item_support basket in
  fi ← pure (mine_frequent_itemsets basket (Args.algo args)
                                    (Args.min_support args));
  rules ← pure (derive_rules fi (Args.metric args)
                             (Args.min_threshold args));
  _ ← save_table (ItemSupportTable item_support)
                 (PathDiv outdir "item_support.csv") false;
  _ ← save_table (ItemsetsTable fi)
                 (PathDiv outdir
                    ("frequent_itemsets_" +:+ Args.algo args +:+ ".csv"))
                 false;
  _ ← save_table (RulesTable rules)
                 (PathDiv outdir
                    ("association_rules_" +:+ Args.algo args +:+ ".csv"))
                 false;
  _ ← plot_top_items item_support (Args.top_n args) outdir;
  _ ← save_json (summary basket args rules) (PathDiv outdir "summary.json");
  perform (Print outdir).

(** Order [o] holds item [it] with a positive quantity. *)
Definition bought (df : list line_item) (o : Z) (it : string) : Prop :=
  ∃ r, r ∈ df ∧ order_id r = o ∧ item r = it ∧ (0 < quantity r)%Z.

(** The command line of the example of the module docstring, on the
    scenario of the spec. *)
Definition demo_args : Args.Namespace :=
  {| Args.input := "data/transactions.csv";
     Args.outdir := "outputs";
     Args.algo := "apriori";
     Args.min_support := 1 # 2;
     Args.metric := "confidence";
     Args.min_threshold := 1 # 2;
     Args.top_n := 2 |}.

#[global] Instance bought_dec (df : list line_item) (o : Z) (it : string) :
  Decision (bought df o it).
Proof.
  refine (cast_if (decide (Exists (λ r, order_id r = o ∧ item r = it ∧
                                        (0 < quantity r)%Z) df)));
    unfold bought; rewrite Exists_exists in *; naive_solver.
Defined.

(** ** The generator of transactions ([data/generate_transactions.py])

    The generator draws from Python's [random.Random], from numpy's global
    generator and from [datetime].  These libraries are parameters of the
    embedding ([Runtime]); the two generators are threaded through the
    program as its state, in the order of the calls of the source. *)

Module Generate.

(** An exception, by the name of its class. *)
Inductive exception : Type :=
| Exception (kind msg : string).

Inductive outcome (A : Type) : Type :=
| Returns (a : A)
| Raises (e : exception).
Arguments Returns {A} a.
Arguments Raises {A} e.

#[global] Instance outcome_ret : MRet outcome := λ A a, Returns a.
#[global] Instance outcome_bind : MBind outcome := λ A B k r,
  match r with
  | Returns a => k a
  | Raises e => Raises e
  end.

(** [randbelow g n] is [g._randbelow(n)], the draw behind [choice] and
    [randint]; [random g] is [g.random()].  [np_seed], [np_poisson] and
    [np_uniform] are [np.random.seed], [np.random.poisson] and
    [np.random.uniform].  [days_between e s] is [(e - s).days], and
    [isoformat_after s d] is [(s + timedelta(days=d)).date().isoformat()]. *)
Class Runtime : Type := {
  rng : Type;
  Random : Z → rng;
  randbelow : rng → nat → nat * rng;
  random : rng → Q * rng;
  np_rng : Type;
  np_seed : Z → outcome np_rng;
  np_poisson : np_rng → Q → outcome (Z * np_rng);
  np_uniform : np_rng → Q → Q → Q * np_rng;
  datetime : Type;
  fromisoformat : string → outcome datetime;
  days_between : datetime → datetime → outcome Z;
  isoformat_after : datetime → nat → string
}.

(** What is used of [_randbelow]: a draw below a positive bound is below
    the bound. *)
Definition lawful (R : Runtime) : Prop :=
  ∀ (g : rng) (n : nat), 0 < n → (randbelow g n).1 < n.

(** What is used of [np.random.uniform]: a draw lies between the two
    ends of its interval. *)
Definition lawful_uniform (R : Runtime) : Prop :=
  ∀ (n : np_rng) (low high : Q),
    (low <= high)%Q →
    (low <= (np_uniform n low high).1)%Q ∧
    ((np_uniform n low high).1 <= high)%Q.

(** One row of the generated table. *)
Record row : Type := Row {
  order_id : Z;
  customer_id : Z;
  date : string;
  store : string;
  item : string;
  category : string;
  price : Q;
  quantity : Z
}.

(** *** Dictionaries, in insertion order *)

Fixpoint dict_set {V : Type} (k : string) (v : V) (d : list (string * V))
  : list (string * V) :=
  match d with
  | [] => [(k, v)]
  | (k', v') :: d' =>
      if decide (k = k') then (k, v) :: d' else (k', v') :: dict_set k v d'
  end.

(** [{**d1, **d2}] *)
Definition dict_merge {V : Type} (d1 d2 : list (string * V))
  : list (string * V) :=
  foldl (λ d kv, dict_set kv.1 kv.2 d) d1 d2.

Fixpoint dict_get {V : Type} (d : list (string * V)) (k : string)
  : option V :=
  match d with
  | [] => None
  | (k', v) :: d' => if decide (k = k') then Some v else dict_get d' k
  end.

Definition keys {V : Type} (d : list (string * V)) : list string := d.*1.

(** *** The constants of the module *)

Definition RANDOM_CATEGORIES : list (string * (list string * Z)) :=
  [("Laptop", (["Mouse"; "Keyboard"; "Laptop Bag"; "USB-C Hub";
                "External SSD"], 1100%Z));
   ("Monitor", (["HDMI Cable"; "Monitor Arm"; "Mouse"], 220%Z));
   ("Smartphone", (["Case"; "Screen Protector"; "Wireless Charger"], 800%Z));
   ("Printer", (["Printer Paper"; "Ink Cartridge"], 140%Z));
   ("Desk", (["Chair"; "Desk Lamp"], 200%Z))].

Definition EXTRA_ITEMS : list (string * Z) :=
  [("Mouse", 25%Z); ("Keyboard", 45%Z); ("Laptop Bag", 60%Z);
   ("USB-C Hub", 35%Z); ("External SSD", 120%Z); ("HDMI Cable", 12%Z);
   ("Monitor Arm", 55%Z); ("Case", 20%Z); ("Screen Protector", 15%Z);
   ("Wireless Charger", 30%Z); ("Printer Paper", 8%Z);
   ("Ink Cartridge", 28%Z); ("Chair", 160%Z); ("Desk Lamp", 30%Z)].

Definition ALL_ITEMS : list (string * Z) :=
  dict_merge
    (foldl (λ d kv, dict_set kv.1 kv.2.2 d) [] RANDOM_CATEGORIES)
    EXTRA_ITEMS.

Definition STORES : list string := ["Downtown"; "Mall"; "Airport"; "Online"].

(** [round(x, 2)]: to the nearest hundredth, a tie to the even one. *)
Definition round_half_even (x : Q) : Z :=
  let f := Qfloor x in
  match (x - inject_Z f ?= 1 # 2)%Q with
  | Lt => f
  | Gt => (f + 1)%Z
  | Eq => if Z.even f then f else (f + 1)%Z
  end.

Definition round2 (x : Q) : Q := (inject_Z (round_half_even (x * 100)) / 100)%Q.

Section WithRuntime.
Context `{R : Runtime}.

(** *** Computations on the two generators *)

Definition state : Type := rng * np_rng.

Definition G (A : Type) : Type := state → outcome (A * state).

#[global] Instance G_ret : MRet G := λ A a s, Returns (a, s).
#[global] Instance G_bind : MBind G := λ A B k m s,
  match m s with
  | Returns (a, s') => k a s'
  | Raises e => Raises e
  end.

Definition raise {A : Type} (e : exception) : G A := λ _, Raises e.

(** [rng.random()] *)
Definition rng_random : G Q := λ s,
  let '(x, g) := random s.1 in Returns (x, (g, s.2)).

(** [rng.choice(seq)] *)
Definition choice {A : Type} (seq : list A) : G A := λ s,
  match seq with
  | [] => Raises (Exception "IndexError"
                            "Cannot choose from an empty sequence")
  | _ =>
      let '(i, g) := randbelow s.1 (length seq) in
      match seq !! i with
      | Some x => Returns (x, (g, s.2))
      | None => Raises (Exception "IndexError" "list index out of range")
      end
  end.

(** [rng.randint(a, b)], that is [randrange(a, b + 1)] *)
Definition randint (a b : Z) : G Z := λ s,
  let width := (b + 1 - a)%Z in
  if (0 <? width)%Z then
    let '(i, g) := randbelow s.1 (Z.to_nat width) in
    Returns ((a + Z.of_nat i)%Z, (g, s.2))
  else Raises (Exception "ValueError" "empty range for randrange()").

(** [np.random.poisson(lam)] and [np.random.uniform(low, high)] *)
Definition poisson (lam : Q) : G Z := λ s,
  match np_poisson s.2 lam with
  | Returns (k, n) => Returns (k, (s.1, n))
  | Raises e => Raises e
  end.

Definition uniform (low high : Q) : G Q := λ s,
  let '(x, n) := np_uniform s.2 low high in Returns (x, (s.1, n)).

(** [d[k]] *)
Definition getitem {V : Type} (d : list (string * V)) (k : string) : G V :=
  match dict_get d k with
  | Some v => mret v
  | None => raise (Exception "KeyError" k)
  end.

(** A [for] loop that updates [b]. *)
Fixpoint foldM {A B : Type} (f : B → A → G B) (b : B) (l : list A) : G B :=
  match l with
  | [] => mret b
  | x :: l' => b' ← f b x; foldM f b' l'
  end.

(** *** [sample_basket] *)

Definition sample_basket : G (list string) :=
  anchor ← choice (keys RANDOM_CATEGORIES);
  entry ← getitem RANDOM_CATEGORIES anchor;
  let co_items := entry.1 in
  basket ←
    foldM (λ (basket : gset string) item,
             let p :=
               if decide (anchor = "Laptop"
                          ∧ item ∈ ["Mouse"; "Keyboard"; "Laptop Bag"])
               then (65 # 100)%Q else (35 # 100)%Q in
             x ← rng_random;
             mret (if Qlt_le_dec x p then basket ∪ {[item]} else basket))
          {[anchor]} co_items;
  basket ←
    foldM (λ (basket : gset string) item,
             x ← rng_random;
             mret (if Qlt_le_dec x (5 # 100)%Q
                   then basket ∪ {[item]} else basket))
          basket (keys EXTRA_ITEMS);
  mret (sorted basket).

(** *** [generate] *)

(** The body of [for item in basket]: one more row. *)
Definition line_of (order_id customer_id : Z) (date store : string)
    (rows : list row) (item : string) : G (list row) :=
  base ← getitem ALL_ITEMS item;
  u ← uniform (9 # 10)%Q (11 # 10)%Q;
  let price := (inject_Z base * u)%Q in
  qty ← (if decide (item ∈ ["Printer Paper"; "Ink Cartridge"])
         then choice [1; 2; 3]%Z else mret 1%Z);
  mret (rows ++
        [ {| order_id := order_id;
             customer_id := customer_id;
             date := date;
             store := store;
             item := item;
             category := if decide (item ∈ keys ALL_ITEMS)
                         then "Electronics" else "Misc";
             price := round2 price;
             quantity := qty |} ]).

(** The body of [for _ in range(n_orders)]: the rows of one order; the
    second component is the next [order_id]. *)
Definition order_of (n_customers : Z) (date : string)
    (st : list row * Z) : G (list row * Z) :=
  customer_id ← randint 1 n_customers;
  store ← choice STORES;
  basket ← sample_basket;
  rows ← foldM (line_of st.2 customer_id date store) st.1 basket;
  mret (rows, (st.2 + 1)%Z).

(** The body of [for d in range(days)]. *)
Definition day_of (start_dt : datetime) (n_customers : Z)
    (avg_orders_per_day : Q) (st : list row * Z) (d : nat)
  : G (list row * Z) :=
  let date := isoformat_after start_dt d in
  k ← poisson avg_orders_per_day;
  let n_orders := Z.max 1 k in
  foldM (λ st _, order_of n_customers date st) st
        (seq 0 (Z.to_nat n_orders)).

Definition generate (start end_ : string) (n_customers : Z)
    (avg_orders_per_day : Q) (seed : Z) : outcome (list row) :=
  let g := Random seed in
  n ← np_seed seed;
  start_dt ← fromisoformat start;
  end_dt ← fromisoformat end_;
  delta ← days_between end_dt start_dt;
  let days := (delta + 1)%Z in
  res ← foldM (day_of start_dt n_customers avg_orders_per_day)
              ([], 1%Z) (seq 0 (Z.to_nat days)) (g, n);
  mret res.1.1.

(** What a computation returns satisfies [Φ], when it returns. *)
Definition post {A : Type} (m : G A) (Φ : A → Prop) : Prop :=
  ∀ s a s', m s = Returns (a, s') → Φ a.

(** The computation returns, and what it returns satisfies [Φ]. *)
Definition returns {A : Type} (m : G A) (Φ : A → Prop) : Prop :=
  ∀ s, ∃ a s', m s = Returns (a, s') ∧ Φ a.

End WithRuntime.

(** The anchor products and the two items sold in packs. *)
Definition anchors : list string := keys RANDOM_CATEGORIES.

Definition packs : list string := ["Printer Paper"; "Ink Cartridge"].

(** Rows in the order of the table: ascending order id, and within an
    order strictly ascending item name. *)
Definition row_lt (r1 r2 : row) : Prop :=
  (order_id r1 < order_id r2)%Z ∨
  (order_id r1 = order_id r2 ∧ String.ltb (item r1) (item r2) = true).

(** What every generated row satisfies. *)
Definition row_ok (n_customers : Z) (r : row) : Prop :=
  item r ∈ keys ALL_ITEMS ∧ category r = "Electronics" ∧
  store r ∈ STORES ∧ (1 ≤ customer_id r ≤ n_customers)%Z ∧
  (1 ≤ quantity r ≤ 3)%Z ∧ (item r ∉ packs → quantity r = 1%Z).

(** Order [k] of the table holds exactly one anchor product. *)
Definition one_anchor (rows : list row) (k : Z) : Prop :=
  ∃ a, a ∈ anchors ∧
       (∃ r, r ∈ rows ∧ order_id r = k ∧ item r = a) ∧
       ∀ r, r ∈ rows → order_id r = k → item r ∈ anchors → item r = a.

(** The table so far, with the next order id. *)
Definition table_inv (n_customers : Z) (st : list row * Z) : Prop :=
  (1 ≤ st.2)%Z ∧
  Forall (row_ok n_customers) st.1 ∧
  StronglySorted row_lt st.1 ∧
  (∀ k, (∃ r, r ∈ st.1 ∧ order_id r = k) ↔ (1 ≤ k < st.2)%Z) ∧
  (∀ k, (1 ≤ k < st.2)%Z → one_anchor st.1 k).

End Generate.

(** The three columns of a generated table that [load_and_prepare]
    reads. *)
Definition transactions (rows : list Generate.row) : list line_item :=
  (λ r, {| order_id := Generate.order_id r;
           item := Generate.item r;
           quantity := Generate.quantity r |}) <$> rows.

(** A runtime for the examples: both generators replay a list of numbers
    (hundredths of the interval, for a draw from an interval), a draw
    below [n] being the next number modulo [n]; a date is the number of
    its day in January 2024. *)
Definition replay_date (s : string) : Generate.outcome Z :=
  if decide (s = "2024-01-01") then Generate.Returns 1%Z
  else if decide (s = "2024-01-02") then Generate.Returns 2%Z
  else if decide (s = "2024-01-03") then Generate.Returns 3%Z
  else Generate.Raises (Generate.Exception "ValueError"
                                           "Invalid isoformat string").

Definition replay : Generate.Runtime :=
  {| Generate.rng := list nat;
     Generate.Random := λ seed, [Z.to_nat seed; 7; 2; 90; 10; 3; 55; 1; 40];
     Generate.randbelow := λ g n,
       match g with
       | [] => (0, [])
       | x :: g' => (x `mod` n, g')
       end;
     Generate.random := λ g,
       match g with
       | [] => ((99 # 100)%Q, [])
       | x :: g' => ((Z.of_nat (x `mod` 100) # 100)%Q, g')
       end;
     Generate.np_rng := list nat;
     Generate.np_seed := λ seed, Generate.Returns [2; 5; 50; 1; 20];
     Generate.np_poisson := λ n lam,
       match n with
       | [] => Generate.Returns (0%Z, [])
       | x :: n' => Generate.Returns (Z.of_nat x, n')
       end;
     Generate.np_uniform := λ n low high,
       match n with
       | [] => (low, [])
       | x :: n' =>
           ((low + (high - low) * (Z.of_nat (x `mod` 100) # 100))%Q, n')
       end;
     Generate.datetime := Z;
     Generate.fromisoformat := replay_date;
     Generate.days_between := λ e s, Generate.Returns (e - s)%Z;
     Generate.isoformat_after := λ s d,
       "2024-01-0" +:+ pretty (s + Z.of_nat d)%Z |}.

(** The table the replay runtime generates for the first two days of
    January 2024 with five customers, and the seed that gives the first
    draw. *)
Definition replay_rows : list Generate.row :=
  match Generate.generate (R:=replay) "2024-01-01" "2024-01-02" 5 3 4 with
  | Generate.Returns rows => rows
  | Generate.Raises _ => []
  end.

(** ** The stable sort *)

Section StableSortFacts.
Context {A : Type}.
Variable leb : A → A → bool.

Lemma insert_sorted_perm (x : A) (l : list A) :
  insert_sorted leb x l ≡ₚ x :: l.
Proof.
  induction l as [|y l IH]; simpl; [done|].
  destruct (leb x y); [done|].
  rewrite IH. apply Permutation_swap.
Qed.

Lemma stable_sort_perm (l : list A) : stable_sort leb l ≡ₚ l.
Proof.
  induction l as [|x l IH]; simpl; [done|].
  by rewrite insert_sorted_perm, IH.
Qed.

Lemma elem_of_stable_sort (x : A) (l : list A) :
  x ∈ stable_sort leb l ↔ x ∈ l.
Proof. by rewrite stable_sort_perm. Qed.

Lemma length_stable_sort (l : list A) : length (stable_sort leb l) = length l.
Proof. by rewrite stable_sort_perm. Qed.

Lemma NoDup_stable_sort (l : list A) : NoDup l → NoDup (stable_sort leb l).
Proof. by rewrite stable_sort_perm. Qed.

(** Rows that [leb] does not tell apart keep their order. *)
Lemma insert_sorted_filter (P : A → Prop) `{!∀ x, Decision (P x)}
    (x : A) (l : list A) :
  (∀ y, P x → P y → leb x y = true) →
  filter P (insert_sorted leb x l) = filter P (x :: l).
Proof.
  intros Htie. induction l as [|y l IH]; simpl; [done|].
  destruct (leb x y) eqn:Hxy; [done|].
  rewrite filter_cons, IH, !filter_cons.
  destruct (decide (P x)) as [Hx|Hx], (decide (P y)) as [Hy|Hy]; try done.
  specialize (Htie y Hx Hy). congruence.
Qed.

Lemma stable_sort_filter (P : A → Prop) `{!∀ x, Decision (P x)} (l : list A) :
  (∀ x y, P x → P y → leb x y = true) →
  filter P (stable_sort leb l) = filter P l.
Proof.
  intros Htie. induction l as [|x l IH]; simpl; [done|].
  rewrite insert_sorted_filter by eauto.
  by rewrite !filter_cons, IH.
Qed.

(** With a total [leb], neighbours come out in order. *)
Hypothesis leb_total : ∀ x y, leb x y = true ∨ leb y x = true.

Lemma insert_sorted_Sorted (x : A) (l : list A) :
  Sorted (λ a b, leb a b = true) l →
  Sorted (λ a b, leb a b = true) (insert_sorted leb x l).
Proof.
  induction 1 as [|y l Hs IH Hhd]; simpl.
  - repeat constructor.
  - destruct (leb x y) eqn:Hxy.
    + constructor; [by constructor|]. by constructor.
    + constructor; [done|].
      destruct (leb_total x y) as [?|Hyx]; [congruence|].
      destruct Hhd as [|z l Hyz]; simpl; [by constructor|].
      destruct (leb x z); by constructor.
Qed.

Lemma stable_sort_Sorted (l : list A) :
  Sorted (λ a b, leb a b = true) (stable_sort leb l).
Proof.
  induction l as [|x l IH]; simpl; [constructor|].
  by apply insert_sorted_Sorted.
Qed.
End StableSortFacts.

(** ** [unique] *)

Section UniqueFacts.
Context `{EqDecision A}.
Implicit Types l : list A.

Lemma elem_of_unique (x : A) l : x ∈ Pandas.unique l ↔ x ∈ l.
Proof.
  induction l as [|y l IH]; simpl; [done|].
  rewrite !elem_of_cons, list_elem_of_filter, IH.
  destruct (decide (x = y)); naive_solver.
Qed.

Lemma NoDup_unique l : NoDup (Pandas.unique l).
Proof.
  induction l as [|y l IH]; simpl; [constructor|].
  constructor.
  - rewrite list_elem_of_filter. naive_solver.
  - by apply NoDup_filter.
Qed.

Lemma filter_ne_id (x : A) l : x ∉ l → filter (λ y, y ≠ x) l = l.
Proof.
  induction l as [|y l IH]; [done|].
  rewrite not_elem_of_cons, filter_cons. intros [Hxy Hx].
  destruct (decide (y ≠ x)) as [|Hn]; [by rewrite IH|].
  destruct Hn. by intros ->.
Qed.

Lemma unique_NoDup l : NoDup l → Pandas.unique l = l.
Proof.
  induction 1 as [|x l Hx Hl IH]; simpl; [done|].
  by rewrite IH, filter_ne_id.
Qed.
End UniqueFacts.

(** ** The pivot *)

Lemma elem_of_sorted_keys `{EqDecision A} (leb : A → A → bool) (x : A) l :
  x ∈ Pandas.sorted_keys leb l ↔ x ∈ l.
Proof.
  unfold Pandas.sorted_keys. by rewrite elem_of_stable_sort, elem_of_unique.
Qed.

Lemma NoDup_sorted_keys `{EqDecision A} (leb : A → A → bool) (l : list A) :
  NoDup (Pandas.sorted_keys leb l).
Proof. apply NoDup_stable_sort, NoDup_unique. Qed.

Lemma length_sorted_keys `{EqDecision A} (leb : A → A → bool) (l : list A) :
  length (Pandas.sorted_keys leb l) = length (Pandas.unique l).
Proof. apply length_stable_sort. Qed.

Lemma qty_cases (r : line_item) :
  (qty r = 1%Z ∧ (0 < quantity r)%Z) ∨ (qty r = 0%Z ∧ (quantity r ≤ 0)%Z).
Proof. unfold qty. destruct (Z.ltb_spec 0 (quantity r)); auto. Qed.

Lemma foldl_max_flags (vs : list Z) (v : Z) :
  (∀ x, x ∈ v :: vs → x = 0%Z ∨ x = 1%Z) →
  foldl Z.max v vs = if decide (1%Z ∈ v :: vs) then 1%Z else 0%Z.
Proof.
  revert v. induction vs as [|w vs IH]; intros v Hflags; simpl.
  - destruct (Hflags v) as [->| ->]; [by left|..]; case_decide as H1; try done.
    + by apply list_elem_of_singleton in H1.
    + destruct H1. by left.
  - assert (v = 0%Z ∨ v = 1%Z) as Hv by (apply Hflags; by left).
    assert (w = 0%Z ∨ w = 1%Z) as Hw by (apply Hflags; by right; left).
    rewrite IH.
    + destruct Hv as [->| ->], Hw as [->| ->]; simpl;
        repeat case_decide; try done; set_solver.
    + intros x [->|Hx]%elem_of_cons.
      * destruct Hv as [->| ->], Hw as [->| ->]; auto.
      * apply Hflags. by right; right.
Qed.

Lemma cell_of_group (g : list Z) :
  (∀ x, x ∈ g → x = 0%Z ∨ x = 1%Z) →
  Pandas.astype_bool (Pandas.fillna 0%Z (Pandas.agg_max g)) = true ↔ 1%Z ∈ g.
Proof.
  intros Hflags. destruct g as [|v vs]; simpl.
  - split; [done|]. by intros ?%elem_of_nil.
  - rewrite foldl_max_flags by done. by case_decide.
Qed.

Lemma group_flags (df : list line_item) (o : Z) (it : string) (x : Z) :
  x ∈ group df o it → x = 0%Z ∨ x = 1%Z.
Proof.
  unfold group. intros (r & -> & _)%list_elem_of_fmap.
  destruct (qty_cases r) as [[-> _]|[-> _]]; auto.
Qed.

Lemma elem_of_group_1 (df : list line_item) (o : Z) (it : string) :
  1%Z ∈ group df o it ↔
  ∃ r, r ∈ df ∧ order_id r = o ∧ item r = it ∧ (0 < quantity r)%Z.
Proof.
  unfold group. rewrite list_elem_of_fmap. split.
  - intros (r & Hq & ([<- <-] & Hr)%list_elem_of_filter).
    exists r. destruct (qty_cases r) as [[? ?]|[? ?]]; [done|congruence].
  - intros (r & Hr & <- & <- & Hpos). exists r.
    rewrite list_elem_of_filter.
    destruct (qty_cases r) as [[? ?]|[? ?]]; [done|lia].
Qed.

Lemma cell_load_and_prepare (df : list line_item) (i j : nat) (o : Z)
    (it : string) :
  index (load_and_prepare df) !! i = Some o →
  columns (load_and_prepare df) !! j = Some it →
  cell (load_and_prepare df) i j
  = Pandas.astype_bool (Pandas.fillna 0%Z (Pandas.agg_max (group df o it))).
Proof.
  unfold cell. simpl. intros Hi Hj.
  rewrite !nth_lookup, list_lookup_fmap, Hi. simpl.
  by rewrite list_lookup_fmap, Hj.
Qed.

(** C6: the matrix [load_and_prepare] returns has one row per distinct
    [order_id] and one column per distinct [item] of the input table, its
    rows have the width of the column list, and the cell of an order and an
    item is true exactly when some input record of that order and item has
    a positive quantity. *)
Theorem load_and_prepare_matrix (df : list line_item) :
  let b := load_and_prepare df in
  (NoDup (index b) ∧ ∀ o, o ∈ index b ↔ ∃ r, r ∈ df ∧ order_id r = o) ∧
  (NoDup (columns b) ∧ ∀ it, it ∈ columns b ↔ ∃ r, r ∈ df ∧ item r = it) ∧
  length (values b) = length (index b) ∧
  (∀ row, row ∈ values b → length row = length (columns b)) ∧
  ∀ i j o it,
    index b !! i = Some o → columns b !! j = Some it →
    (cell b i j = true ↔
     ∃ r, r ∈ df ∧ order_id r = o ∧ item r = it ∧ (0 < quantity r)%Z).
Proof.
  intros b. subst b. split; [|split; [|split; [|split]]].
  - change (index (load_and_prepare df))
      with (Pandas.sorted_keys Z.leb (order_id <$> df)).
    split; [apply NoDup_sorted_keys|]. intros o.
    rewrite elem_of_sorted_keys, list_elem_of_fmap. naive_solver.
  - change (columns (load_and_prepare df))
      with (Pandas.sorted_keys String.leb (item <$> df)).
    split; [apply NoDup_sorted_keys|]. intros it.
    rewrite elem_of_sorted_keys, list_elem_of_fmap. naive_solver.
  - simpl. by rewrite length_fmap.
  - simpl. intros row (o & -> & _)%list_elem_of_fmap.
    by rewrite length_fmap.
  - intros i j o it Hi Hj.
    rewrite (cell_load_and_prepare df i j o it) by done.
    rewrite cell_of_group by apply group_flags. apply elem_of_group_1.
Qed.

(** ** Itemsets as increasing lists of column positions *)

Lemma elem_of_sublists {A : Type} (s l : list A) :
  s ∈ sublists l ↔ s `sublist_of` l.
Proof.
  revert s. induction l as [|x l IH]; intros s; simpl.
  - rewrite list_elem_of_singleton, sublist_nil_r. done.
  - rewrite elem_of_app, list_elem_of_fmap, sublist_cons_r.
    setoid_rewrite IH. naive_solver.
Qed.

Lemma NoDup_sublists {A : Type} (l : list A) : NoDup l → NoDup (sublists l).
Proof.
  induction 1 as [|x l Hx Hl IH]; simpl; [apply NoDup_singleton|].
  apply NoDup_app. split_and!.
  - apply NoDup_fmap_2; [apply _|done].
  - intros s (s' & -> & Hs')%list_elem_of_fmap Hs.
    apply elem_of_sublists in Hs.
    apply Hx, (elem_of_sublist (x :: s') l); [by left|done].
  - done.
Qed.

Lemma sublist_StronglySorted {A : Type} (R : relation A) (s l : list A) :
  s `sublist_of` l → StronglySorted R l → StronglySorted R s.
Proof.
  induction 1 as [|x s l Hsl IH|x s l Hsl IH]; intros Hl.
  - constructor.
  - apply StronglySorted_inv in Hl as [Hl Hx]. constructor; [auto|].
    rewrite Forall_forall in Hx |- *.
    intros y Hy. apply Hx. by eapply elem_of_sublist.
  - apply StronglySorted_inv in Hl as [Hl Hx]. auto.
Qed.

Lemma StronglySorted_seq (a n : nat) : StronglySorted lt (seq a n).
Proof.
  revert a. induction n as [|n IH]; intros a; simpl; constructor; [done|].
  apply Forall_forall. intros x Hx%elem_of_seq. lia.
Qed.

Lemma sorted_bounded_sublist (s : list nat) (a n : nat) :
  StronglySorted lt s → Forall (λ x, a ≤ x < a + n) s →
  s `sublist_of` seq a n.
Proof.
  revert a s. induction n as [|n IH]; intros a s Hs Hb.
  - destruct s as [|x s]; [done|]. apply Forall_cons in Hb as [? _]. lia.
  - simpl. destruct s as [|x s]; [apply sublist_nil_l|].
    apply StronglySorted_inv in Hs as [Hs Hx].
    apply Forall_cons in Hb as [Hxb Hb].
    destruct (decide (x = a)) as [->|Hne].
    + apply sublist_skip, IH; [done|].
      rewrite Forall_forall in Hx, Hb |- *.
      intros y Hy. specialize (Hx y Hy). specialize (Hb y Hy). lia.
    + apply sublist_cons, IH; [by constructor|].
      constructor; [lia|].
      rewrite Forall_forall in Hx, Hb |- *.
      intros y Hy. specialize (Hx y Hy). specialize (Hb y Hy). lia.
Qed.

Lemma valid_alt (m : nat) (s : list nat) :
  valid m s ↔ StronglySorted lt s ∧ Forall (λ x, x < m) s.
Proof.
  split.
  - intros Hs. split.
    + eapply sublist_StronglySorted; [done|apply StronglySorted_seq].
    + apply Forall_forall. intros x Hx.
      eapply elem_of_sublist in Hx; [|done]. apply elem_of_seq in Hx. lia.
  - intros [Hs Hb]. apply sorted_bounded_sublist; [done|].
    eapply Forall_impl; [done|]. simpl. lia.
Qed.

Lemma valid_sublist (m : nat) (s s' : list nat) :
  s' `sublist_of` s → valid m s → valid m s'.
Proof. unfold valid. by intros ? ?; etrans. Qed.

Lemma valid_length (m : nat) (s : list nat) : valid m s → length s ≤ m.
Proof. intros Hs%sublist_length. by rewrite length_seq in Hs. Qed.

Lemma valid_snoc2 (m : nat) (p : list nat) (a b : nat) :
  valid m (p ++ [a]) → valid m (p ++ [b]) → a < b → valid m (p ++ [a; b]).
Proof.
  rewrite !valid_alt, !Forall_app, !Forall_cons.
  intros [Hsa (Hp & Ha & _)] [Hsb (_ & Hb & _)] Hab.
  split; [|repeat split; auto].
  change (p ++ [a; b]) with (p ++ ([a] ++ [b])). rewrite app_assoc.
  apply StronglySorted_app_2; [|done|repeat constructor].
  intros x y Hx ->%list_elem_of_singleton.
  apply elem_of_app in Hx as [Hx| ->%list_elem_of_singleton]; [|done].
  apply (StronglySorted_app_1_elem_of _ _ _ x b) in Hsb; [done|done|by left].
Qed.

Lemma valid_snoc2_lt (m : nat) (p : list nat) (a b : nat) :
  valid m (p ++ [a; b]) → a < b.
Proof.
  rewrite valid_alt. intros [Hs _].
  apply StronglySorted_app_1_r, StronglySorted_inv in Hs as [_ Hs].
  by apply Forall_cons in Hs as [? _].
Qed.

(** ** Support is anti-monotone *)

Lemma length_filter_impl {A : Type} (P R : A → Prop)
    `{!∀ x, Decision (P x)} `{!∀ x, Decision (R x)} (l : list A) :
  (∀ x, x ∈ l → P x → R x) → length (filter P l) ≤ length (filter R l).
Proof.
  induction l as [|x l IH]; intros Himp; [done|].
  rewrite !filter_cons.
  assert (length (filter P l) ≤ length (filter R l)) as Hle.
  { apply IH. intros y Hy. apply Himp. by right. }
  destruct (decide (P x)) as [HP|HP], (decide (R x)) as [HR|HR]; simpl;
    try lia.
  destruct HR. apply Himp; [by left|done].
Qed.

Lemma contains_spec (s : list nat) (row : list bool) :
  Mlxtend.contains s row ↔ ∀ j, j ∈ s → Mlxtend.has row j.
Proof.
  unfold Mlxtend.contains. rewrite forallb_True, Forall_forall. done.
Qed.

Lemma count_anti (X : list (list bool)) (s s' : list nat) :
  s' ⊆ s → Mlxtend.count X s ≤ Mlxtend.count X s'.
Proof.
  intros Hsub. apply length_filter_impl. intros row _.
  rewrite !contains_spec. intros Hrow j Hj. by apply Hrow, Hsub.
Qed.

Lemma ratio_mono (c c' n : nat) :
  c ≤ c' → (Mlxtend.ratio c n <= Mlxtend.ratio c' n)%Q.
Proof.
  intros Hle. unfold Mlxtend.ratio, Qle. simpl.
  apply Z.mul_le_mono_nonneg_r; lia.
Qed.

Lemma meets_mono (ms q q' : Q) :
  (q <= q')%Q → Mlxtend.meets ms q → Mlxtend.meets ms q'.
Proof.
  unfold Mlxtend.meets. rewrite !Is_true_true, !Qle_bool_iff.
  intros. by eapply Qle_trans.
Qed.

Lemma frequent_anti (X : list (list bool)) (ms : Q) (s s' : list nat) :
  s' ⊆ s → Mlxtend.frequent X ms s → Mlxtend.frequent X ms s'.
Proof.
  intros Hsub. apply meets_mono, ratio_mono, count_anti, Hsub.
Qed.

(** ** The candidate generator *)

Lemma join_pair_snoc (p : list nat) (a b : nat) :
  Mlxtend.join_pair (p ++ [a]) (p ++ [b])
  = if a <? b then Some (p ++ [a; b]) else None.
Proof.
  induction p as [|x p IH]; [done|].
  simpl. destruct (p ++ [a]) eqn:Ha; [by destruct p|].
  destruct (p ++ [b]) eqn:Hb; [by destruct p|].
  rewrite decide_True by done. rewrite IH.
  destruct p; simpl in *; by destruct (a <? b).
Qed.

Lemma join_pair_Some (s t c : list nat) :
  Mlxtend.join_pair s t = Some c →
  ∃ p a b, s = p ++ [a] ∧ t = p ++ [b] ∧ a < b ∧ c = p ++ [a; b].
Proof.
  revert t c. induction s as [|x s IH]; intros t c; [done|].
  destruct t as [|y t]; [by destruct s|].
  destruct s as [|x' s].
  - destruct t as [|y' t]; simpl. 2:{ by case_decide; simpl. }
    destruct (Nat.ltb_spec x y); [|done].
    intros [= <-]. by exists [], x, y.
  - destruct t as [|y' t]; [simpl; by case_decide; destruct s|].
    cbn [Mlxtend.join_pair]. case_decide as Hxy; [subst y|done].
    intros (c' & Hj & ->)%fmap_Some.
    destruct (IH (y' :: t) c' Hj) as (p & a & b & Hs & Ht & Hab & ->).
    exists (x :: p), a, b. simpl. by rewrite Hs, Ht.
Qed.

Lemma elem_of_join_step (F : list (list nat)) (c : list nat) :
  c ∈ Mlxtend.join_step F ↔
  ∃ p a b, p ++ [a] ∈ F ∧ p ++ [b] ∈ F ∧ a < b ∧ c = p ++ [a; b].
Proof.
  unfold Mlxtend.join_step. rewrite list_elem_of_bind. split.
  - intros (s & (t & Hc & Ht)%list_elem_of_bind & Hs).
    destruct (Mlxtend.join_pair s t) as [c'|] eqn:Hj; simpl in Hc;
      [|by apply elem_of_nil in Hc].
    apply list_elem_of_singleton in Hc as ->.
    apply join_pair_Some in Hj as (p & a & b & -> & -> & ? & ->). eauto 10.
  - intros (p & a & b & Hs & Ht & Hab & ->).
    exists (p ++ [a]). split; [|done].
    apply list_elem_of_bind. exists (p ++ [b]). split; [|done].
    rewrite join_pair_snoc. destruct (Nat.ltb_spec a b); [|lia].
    simpl. by left.
Qed.

Lemma elem_of_drop_one (c sub : list nat) :
  sub ∈ Mlxtend.drop_one c ↔ ∃ l1 x l2, c = l1 ++ x :: l2 ∧ sub = l1 ++ l2.
Proof.
  revert sub. induction c as [|y c IH]; intros sub; simpl.
  - split; [by intros ?%elem_of_nil|]. intros (l1 & x & l2 & Hc & _).
    by destruct l1.
  - rewrite elem_of_cons, list_elem_of_fmap. setoid_rewrite IH. split.
    + intros [->|(sub' & -> & l1 & x & l2 & -> & ->)].
      * by exists [], y, c.
      * by exists (y :: l1), x, l2.
    + intros (l1 & x & l2 & Hc & ->). destruct l1 as [|z l1]; simpl in *.
      * left. congruence.
      * right. injection Hc as -> ->. eauto 10.
Qed.

Lemma drop_one_sublist (c sub : list nat) :
  sub ∈ Mlxtend.drop_one c → sub `sublist_of` c ∧ S (length sub) = length c.
Proof.
  intros (l1 & x & l2 & -> & ->)%elem_of_drop_one. split.
  - apply sublist_app; [done|]. by apply sublist_cons.
  - rewrite !length_app. simpl. lia.
Qed.

Lemma survives_spec (F : list (list nat)) (c : list nat) :
  Mlxtend.survives F c ↔ ∀ sub, sub ∈ Mlxtend.drop_one c → sub ∈ F.
Proof.
  unfold Mlxtend.survives. rewrite forallb_True, Forall_forall.
  by setoid_rewrite bool_decide_spec.
Qed.

Lemma elem_of_generate (F : list (list nat)) (c : list nat) :
  c ∈ Mlxtend.generate F ↔
  c ∈ Mlxtend.join_step F ∧ ∀ sub, sub ∈ Mlxtend.drop_one c → sub ∈ F.
Proof.
  unfold Mlxtend.generate.
  rewrite elem_of_unique, list_elem_of_filter, survives_spec. tauto.
Qed.

(** ** The level-wise miner finds exactly the frequent itemsets *)

Lemma snoc2_of_length (s : list nat) (k : nat) :
  length s = S (S k) → ∃ p a b, s = p ++ [a; b].
Proof.
  intros Hlen. exists (take k s).
  destruct (drop k s) as [|a [|b [|c l]]] eqn:Hd;
    pose proof (length_drop s k) as Hl; rewrite Hd in Hl; simpl in Hl;
    try lia.
  exists a, b. by rewrite <-Hd, take_drop.
Qed.

Section MinerFacts.
Variable m : nat.
Variable X : list (list bool).
Variable ms : Q.

Lemma level_inv_seeds :
  level_inv m X ms 1 ((λ j, [j]) <$> seq 0 m).
Proof.
  split_and!.
  - apply NoDup_fmap_2; [by intros ?? [=]|apply NoDup_seq].
  - intros s (j & -> & Hj)%list_elem_of_fmap. split; [|done].
    by apply singleton_sublist_l.
  - intros s Hs Hlen _. destruct s as [|j [|??]]; try done.
    apply list_elem_of_fmap. exists j. split; [done|].
    by apply singleton_sublist_l.
Qed.

Lemma level_inv_generate (k : nat) (candidates : list (list nat)) :
  1 ≤ k → level_inv m X ms k candidates →
  level_inv m X ms (S k)
    (Mlxtend.generate (filter (λ s, Mlxtend.frequent X ms s) candidates)).
Proof.
  intros Hk (Hnd & Hval & Hcomplete). split_and!.
  - apply NoDup_unique.
  - intros c [Hc _]%elem_of_generate.
    apply elem_of_join_step in Hc as (p & a & b & Ha & Hb & Hab & ->).
    apply list_elem_of_filter in Ha as [_ [Ha Hlen]%Hval].
    apply list_elem_of_filter in Hb as [_ [Hb _]%Hval].
    split; [by apply valid_snoc2|].
    rewrite length_app in Hlen |- *. simpl in *. lia.
  - intros s Hs Hlen Hfreq.
    assert (∀ sub, sub `sublist_of` s → length sub = k →
                   sub ∈ filter (λ s, Mlxtend.frequent X ms s) candidates)
      as Hsub.
    { intros sub Hsub Hl. apply list_elem_of_filter. split.
      - eapply frequent_anti; [|done]. by apply sublist_subseteq.
      - apply Hcomplete; [by eapply valid_sublist|done|].
        eapply frequent_anti; [|done]. by apply sublist_subseteq. }
    destruct k as [|k]; [lia|].
    destruct (snoc2_of_length s k Hlen) as (p & a & b & ->).
    rewrite length_app in Hlen. simpl in Hlen.
    apply elem_of_generate. split.
    + apply elem_of_join_step. exists p, a, b. split_and!; try done.
      * apply Hsub; [|rewrite length_app; simpl; lia].
        apply sublist_app; [done|]. by apply sublist_skip, sublist_nil_l.
      * apply Hsub; [|rewrite length_app; simpl; lia].
        apply sublist_app; [done|]. by apply sublist_cons.
      * by eapply valid_snoc2_lt.
    + intros sub [Hsub' Hl]%drop_one_sublist. apply Hsub; [done|].
      rewrite length_app in Hl. simpl in Hl. lia.
Qed.

Lemma miner_spec (r k : nat) (candidates : list (list nat)) :
  1 ≤ k → m ≤ k + r → level_inv m X ms k candidates →
  NoDup (Mlxtend.miner X ms r candidates) ∧
  ∀ s, s ∈ Mlxtend.miner X ms r candidates ↔
       valid m s ∧ k ≤ length s ∧ Mlxtend.frequent X ms s.
Proof.
  revert k candidates. induction r as [|r IH]; intros k cands Hk Hm Hinv.
  - destruct Hinv as (Hnd & Hval & Hcomplete). simpl. split.
    + by apply NoDup_filter.
    + intros s. rewrite list_elem_of_filter. split.
      * intros [Hf [Hs Hlen]%Hval]. split_and!; [done|lia|done].
      * intros (Hs & Hlen & Hf). split; [done|].
        apply Hcomplete; [done| |done].
        apply valid_length in Hs. lia.
  - pose proof (level_inv_generate k cands Hk Hinv) as Hnext.
    destruct Hinv as (Hnd & Hval & Hcomplete).
    cbn [Mlxtend.miner].
    set (level := filter (λ s, Mlxtend.frequent X ms s) cands) in *.
    assert (∀ s, s ∈ level ↔
                 valid m s ∧ length s = k ∧ Mlxtend.frequent X ms s)
      as Hlevel.
    { intros s. unfold level. rewrite list_elem_of_filter. split.
      - intros [Hf [Hs Hlen]%Hval]. done.
      - intros (Hs & Hlen & Hf). split; [done|]. by apply Hcomplete. }
    destruct level as [|s0 level'] eqn:Hl.
    + split; [constructor|]. intros s. split; [by intros ?%elem_of_nil|].
      intros (Hs & Hlen & Hf). exfalso.
      apply (not_elem_of_nil (take k s)), Hlevel. split_and!.
      * eapply valid_sublist; [apply sublist_take|done].
      * rewrite length_take. lia.
      * eapply frequent_anti; [|done].
        apply sublist_subseteq, sublist_take.
    + rewrite <-Hl in *. clear Hl s0 level'.
      destruct (IH (S k) (Mlxtend.generate level)) as [Hnd' Hin];
        [lia|lia|done|].
      split.
      * apply NoDup_app. split_and!; [by apply NoDup_filter| |done].
        intros s [_ [Hlen _]]%Hlevel [_ [Hlen' _]]%Hin. lia.
      * intros s. rewrite elem_of_app, Hlevel, Hin. split.
        -- intros [(?&?&?)|(?&?&?)]; split_and!; try done; lia.
        -- intros (Hs & Hlen & Hf).
           destruct (decide (length s = k)); [left|right]; split_and!;
             try done; lia.
Qed.
End MinerFacts.

(** ** The exact support is the support the library counts *)

Lemma fmap_nth_seq {A : Type} (d : A) (l : list A) :
  (λ i, nth i l d) <$> seq 0 (length l) = l.
Proof.
  induction l as [|x l IH]; [done|].
  cbn [length seq fmap list_fmap]. f_equal.
  rewrite <-fmap_S_seq, <-list_fmap_compose. done.
Qed.

Lemma filter_fmap {A B : Type} (f : A → B) (P : B → Prop)
    `{!∀ y, Decision (P y)} (l : list A) :
  filter P (f <$> l) = f <$> filter (λ x, P (f x)) l.
Proof.
  induction l as [|x l IH]; [done|].
  rewrite fmap_cons, !filter_cons, IH. by case_decide.
Qed.

Lemma exact_support_eq (b : bool_frame) (s : list nat) :
  exact_support b s = Mlxtend.support_of (values b) s.
Proof.
  unfold exact_support, Mlxtend.support_of, Mlxtend.count.
  assert (filter (λ row, Mlxtend.contains s row) (values b)
          = (λ i, nth i (values b) [])
              <$> filter (λ i, holds b i s) (seq 0 (length (values b))))
    as ->; [|by rewrite length_fmap].
  rewrite <-(fmap_nth_seq [] (values b)) at 1.
  by rewrite filter_fmap.
Qed.

Lemma elem_of_brute_force_sets (b : bool_frame) (ms : Q) (s : list nat) :
  s ∈ filter (λ s, s ≠ [] ∧ Qle_bool ms (exact_support b s))
             (sublists (seq 0 (length (columns b)))) ↔
  valid (length (columns b)) s ∧ 1 ≤ length s ∧
  Mlxtend.frequent (values b) ms s.
Proof.
  rewrite list_elem_of_filter, elem_of_sublists, exact_support_eq.
  unfold valid, Mlxtend.frequent, Mlxtend.meets.
  destruct s; simpl; [|naive_solver lia]. split; [naive_solver|lia].
Qed.

Lemma brute_force_alt (b : bool_frame) (ms : Q) :
  brute_force b ms
  = Mlxtend.fi_row_of b
      <$> filter (λ s, s ≠ [] ∧ Qle_bool ms (exact_support b s))
                 (sublists (seq 0 (length (columns b)))).
Proof.
  unfold brute_force. apply list_fmap_ext. intros _ s _.
  unfold Mlxtend.fi_row_of. by rewrite exact_support_eq.
Qed.

Lemma NoDup_brute_force_sets (b : bool_frame) (ms : Q) :
  NoDup (filter (λ s, s ≠ [] ∧ Qle_bool ms (exact_support b s))
                (sublists (seq 0 (length (columns b))))).
Proof. apply NoDup_filter, NoDup_sublists, NoDup_seq. Qed.

Lemma apriori_brute_force (b : bool_frame) (ms : Q) :
  (0 < ms)%Q → (ms <= 1)%Q →
  ∃ fi, Mlxtend.apriori b ms = Ok fi ∧ fi ≡ₚ brute_force b ms.
Proof.
  intros Hms Hms1. unfold Mlxtend.apriori.
  rewrite (proj2 (Qle_bool_iff ms 1) Hms1).
  destruct (Qle_bool ms 0) eqn:Hle; simpl.
  { apply Qle_bool_iff in Hle. exfalso. by eapply Qlt_not_le. }
  eexists. split; [done|].
  rewrite brute_force_alt. apply fmap_Permutation.
  destruct (miner_spec (length (columns b)) (values b) ms
              (length (columns b) - 1) 1 ((λ j, [j]) <$> seq 0 (length (columns b))))
    as [Hnd Hin]; [lia|lia|apply level_inv_seeds|].
  apply NoDup_Permutation; [done|apply NoDup_brute_force_sets|].
  intros s. by rewrite Hin, elem_of_brute_force_sets.
Qed.

(** ** Weights *)

Section WeightFacts.
Implicit Types (φ ψ : list nat → bool) (D : list (list nat * nat)).

Lemma weight_nil φ : Mlxtend.weight φ [] = 0.
Proof. done. Qed.

Lemma weight_cons φ (t : list nat) (w : nat) D :
  Mlxtend.weight φ ((t, w) :: D)
  = (if φ t then w else 0) + Mlxtend.weight φ D.
Proof. done. Qed.

Lemma weight_app φ D1 D2 :
  Mlxtend.weight φ (D1 ++ D2) = Mlxtend.weight φ D1 + Mlxtend.weight φ D2.
Proof. apply sum_list_with_app. Qed.

Lemma weight_fmap {A : Type} φ (g : A → list nat) (h : A → nat) (l : list A) :
  Mlxtend.weight φ ((λ a, (g a, h a)) <$> l)
  = sum_list_with (λ a, if φ (g a) then h a else 0) l.
Proof.
  unfold Mlxtend.weight. induction l as [|a l IH]; [done|].
  simpl in *. by f_equal.
Qed.

(** Entries of weight 0 do not count. *)
Lemma weight_ext φ ψ D :
  (∀ t w, (t, w) ∈ D → w ≠ 0 → φ t = ψ t) →
  Mlxtend.weight φ D = Mlxtend.weight ψ D.
Proof.
  induction D as [|[t w] D IH]; intros Hext; [done|].
  rewrite !weight_cons, IH by (intros; eapply Hext; [by right|done]).
  destruct (decide (w = 0)) as [->|Hw]; [by destruct (φ t), (ψ t)|].
  rewrite (Hext t w); [done|by left|done].
Qed.

Lemma weight_mono φ ψ D :
  (∀ t w, (t, w) ∈ D → w ≠ 0 → φ t → ψ t) →
  Mlxtend.weight φ D ≤ Mlxtend.weight ψ D.
Proof.
  induction D as [|[t w] D IH]; intros Himp; [done|].
  rewrite !weight_cons.
  assert (Mlxtend.weight φ D ≤ Mlxtend.weight ψ D) as Hle.
  { apply IH. intros; eapply Himp; [by right|done|done]. }
  destruct (decide (w = 0)) as [->|Hw]; [by destruct (φ t), (ψ t)|].
  destruct (φ t) eqn:Hφ; [|lia].
  rewrite (Is_true_true_1 (ψ t)); [lia|].
  eapply Himp; [by left|done|]. by rewrite Hφ.
Qed.

Lemma weight_false φ D :
  (∀ t w, (t, w) ∈ D → w ≠ 0 → φ t = false) → Mlxtend.weight φ D = 0.
Proof.
  intros Hf. rewrite (weight_ext φ (λ _, false)) by done.
  clear Hf. induction D as [|[t w] D IH]; [done|]. by rewrite weight_cons, IH.
Qed.

Lemma weight_entry φ (t : list nat) (w : nat) D :
  (t, w) ∈ D → φ t → w ≤ Mlxtend.weight φ D.
Proof.
  induction D as [|[t' w'] D IH]; intros Hin Hφ; [by apply elem_of_nil in Hin|].
  rewrite weight_cons.
  apply elem_of_cons in Hin as [[= <- <-]|Hin].
  - rewrite (Is_true_true_1 _ Hφ). lia.
  - specialize (IH Hin Hφ). lia.
Qed.

Lemma weight_pos φ D :
  0 < Mlxtend.weight φ D → ∃ t w, (t, w) ∈ D ∧ w ≠ 0 ∧ φ t.
Proof.
  induction D as [|[t w] D IH]; [rewrite weight_nil; lia|].
  rewrite weight_cons. intros Hpos.
  destruct (φ t) eqn:Hφ, (decide (w = 0)) as [->|Hw].
  - destruct IH as (t' & w' & ? & ? & ?); [lia|].
    exists t', w'. split; [by right|done].
  - exists t, w. split_and!; [by left|done|by rewrite Hφ].
  - destruct IH as (t' & w' & ? & ? & ?); [lia|].
    exists t', w'. split; [by right|done].
  - destruct IH as (t' & w' & ? & ? & ?); [lia|].
    exists t', w'. split; [by right|done].
Qed.
End WeightFacts.

(** ** The prefix tree stores the transactions *)

Lemma insert_itemset_cons (j : nat) (p : list nat) (w : nat)
    (f : list Mlxtend.fptree) :
  Mlxtend.insert_itemset (j :: p) w f
  = match f with
    | [] => [Mlxtend.FPNode j w (Mlxtend.insert_itemset p w [])]
    | Mlxtend.FPNode k c ch :: f' =>
        if decide (j = k)
        then Mlxtend.FPNode k (c + w) (Mlxtend.insert_itemset p w ch) :: f'
        else Mlxtend.FPNode k c ch :: Mlxtend.insert_itemset (j :: p) w f'
    end.
Proof. by destruct f. Qed.

Lemma before_cons_ne (i j : nat) (t : list nat) :
  j ≠ i → before i (j :: t) = j :: before i t.
Proof. intros. simpl. by rewrite decide_False. Qed.

Lemma nodes_insert (p : list nat) (w : nat) (f : list Mlxtend.fptree)
    (pre : list nat) (i : nat) (φ : list nat → bool) :
  Mlxtend.weight φ
    (flat_map (Mlxtend.nodes_of i pre) (Mlxtend.insert_itemset p w f))
  = Mlxtend.weight φ (flat_map (Mlxtend.nodes_of i pre) f)
    + (if bool_decide (i ∈ p) && φ (pre ++ before i p) then w else 0).
Proof.
  revert f pre. induction p as [|j p IH]; intros f pre.
  { cbn [Mlxtend.insert_itemset].
    rewrite bool_decide_eq_false_2 by apply not_elem_of_nil.
    simpl. lia. }
  induction f as [|[k c ch] f IHf]; rewrite insert_itemset_cons.
  - cbn [flat_map Mlxtend.nodes_of]. rewrite app_nil_r, weight_nil.
    destruct (decide (j = i)) as [->|Hji].
    + rewrite bool_decide_eq_true_2 by by left.
      simpl. rewrite decide_True by done. rewrite app_nil_r.
      unfold Mlxtend.weight. simpl. lia.
    + rewrite IH, before_cons_ne by done. simpl.
      rewrite <-app_assoc. simpl.
      rewrite (bool_decide_ext (i ∈ j :: p) (i ∈ p)); [done|].
      rewrite elem_of_cons. naive_solver.
  - destruct (decide (j = k)) as [->|Hjk].
    + cbn [flat_map Mlxtend.nodes_of]. rewrite !weight_app.
      destruct (decide (k = i)) as [->|Hki].
      * rewrite bool_decide_eq_true_2 by by left.
        simpl. rewrite decide_True by done. rewrite app_nil_r.
        destruct (φ pre); lia.
      * rewrite IH, before_cons_ne by done.
        rewrite <-app_assoc. simpl.
        rewrite (bool_decide_ext (i ∈ k :: p) (i ∈ p)); [lia|].
        rewrite elem_of_cons. naive_solver.
    + cbn [flat_map]. rewrite !weight_app, IHf. lia.
Qed.

Lemma represents_nil : represents [] [].
Proof. done. Qed.

Lemma represents_insert (p : list nat) (w : nat) (f : list Mlxtend.fptree)
    (D : list (list nat * nat)) :
  represents f D → represents (Mlxtend.insert_itemset p w f) (D ++ [(p, w)]).
Proof.
  intros Hrep i φ. unfold Mlxtend.nodes_in.
  rewrite nodes_insert, weight_app, weight_cons, weight_nil.
  fold (Mlxtend.nodes_in i f). rewrite Hrep. simpl. lia.
Qed.

Lemma represents_foldl {A : Type} (g : A → list nat) (h : A → nat)
    (l : list A) (f : list Mlxtend.fptree) (D : list (list nat * nat)) :
  represents f D →
  represents (foldl (λ t a, Mlxtend.insert_itemset (g a) (h a) t) f l)
             (D ++ ((λ a, (g a, h a)) <$> l)).
Proof.
  revert f D. induction l as [|a l IH]; intros f D Hrep; simpl.
  - by rewrite app_nil_r.
  - rewrite cons_middle, app_assoc. by apply IH, represents_insert.
Qed.

(** ** The items in front of an item *)

Lemma before_subseteq (i : nat) (t : list nat) : before i t ⊆ t.
Proof.
  induction t as [|j t IH]; simpl; [done|].
  case_decide; [apply list_subseteq_nil|]. set_solver.
Qed.

Lemma before_app_cons (i : nat) (t1 t2 : list nat) :
  i ∉ t1 → before i (t1 ++ i :: t2) = t1.
Proof.
  induction t1 as [|j t1 IH]; simpl; intros Hi.
  - by rewrite decide_True.
  - apply not_elem_of_cons in Hi as [Hij Hi].
    rewrite decide_False by done. by rewrite IH.
Qed.

Lemma before_sublist (i : nat) (t pre post : list nat) :
  t `sublist_of` pre ++ i :: post → NoDup (pre ++ i :: post) → i ∈ t →
  before i t `sublist_of` pre ∧ ∀ j, j ∈ pre → j ∈ t → j ∈ before i t.
Proof.
  intros Ht Hnd Hi.
  apply NoDup_app in Hnd as (Hpre & Hdisj & [Hipost Hpost]%NoDup_cons).
  apply sublist_app_r in Ht as (t1 & t2 & -> & Ht1 & Ht2).
  assert (i ∉ t1) as Hi1.
  { intros Hi1. apply (Hdisj i); [by eapply elem_of_sublist|by left]. }
  apply sublist_cons_r in Ht2 as [Ht2|(t2' & -> & Ht2)].
  { exfalso. apply elem_of_app in Hi as [?|Hi]; [done|].
    apply Hipost. by eapply elem_of_sublist. }
  rewrite before_app_cons by done. split; [done|].
  intros j Hj [?|Hj2]%elem_of_app; [done|]. exfalso.
  apply (Hdisj j Hj). apply elem_of_cons in Hj2 as [->|Hj2]; [by left|right].
  by eapply elem_of_sublist.
Qed.

Lemma cond_pointwise (i : nat) (t s pre post : list nat) :
  t `sublist_of` pre ++ i :: post → NoDup (pre ++ i :: post) → s ⊆ pre →
  (i ∈ t ∧ s ⊆ before i t) ↔ s ++ [i] ⊆ t.
Proof.
  intros Ht Hnd Hs. split.
  - intros [Hi Hsub] x [Hx| ->%list_elem_of_singleton]%elem_of_app; [|done].
    by apply (before_subseteq i), Hsub.
  - intros Hsub. assert (i ∈ t) as Hi by (apply Hsub; set_solver).
    split; [done|]. intros x Hx.
    destruct (before_sublist i t pre post Ht Hnd Hi) as [_ Hin].
    apply Hin; [by apply Hs|]. apply Hsub. set_solver.
Qed.

(** ** The count of an itemset in a weighted transaction list *)

Lemma db_count_anti (D : list (list nat * nat)) (s s' : list nat) :
  s' ⊆ s → db_count D s ≤ db_count D s'.
Proof.
  intros Hsub. apply weight_mono. intros t w _ _.
  rewrite !bool_decide_spec. set_solver.
Qed.

Lemma weight_fmap_path (φ : list nat → bool) (g : list nat → list nat)
    (B : list (list nat * nat)) :
  Mlxtend.weight φ ((λ pc, (g pc.1, pc.2)) <$> B)
  = Mlxtend.weight (λ p, φ (g p)) B.
Proof. apply (weight_fmap φ (λ pc, g pc.1) snd). Qed.

(** ** Recursive mining finds exactly the frequent itemsets *)

Section GrowthFacts.
Variable freq : nat → bool.
Hypothesis freq_mono : ∀ c c', c ≤ c' → freq c → freq c'.
Hypothesis freq_0 : ¬ freq 0.

Lemma item_count_db (f : list Mlxtend.fptree) (D : list (list nat * nat))
    (i : nat) :
  represents f D → Mlxtend.item_count i f = db_count D [i].
Proof.
  intros Hrep. unfold Mlxtend.item_count, db_count. rewrite Hrep.
  apply weight_ext. intros t w _ _. rewrite andb_true_r.
  apply bool_decide_ext. set_solver.
Qed.

Lemma conditional_tree_represents (i : nat) (f : list Mlxtend.fptree) :
  represents (Mlxtend.conditional_tree freq i f) (cond_db freq i f).
Proof.
  apply (represents_foldl (λ pc, filter (λ j, cond_keep freq i f j) pc.1) snd
           (Mlxtend.nodes_in i f) [] []), represents_nil.
Qed.

Section Conditional.
Variables (i : nat) (pre post : list nat).
Variables (f : list Mlxtend.fptree) (D : list (list nat * nat)).
Hypothesis Hrep : represents f D.
Hypothesis Hnd : NoDup (pre ++ i :: post).
Hypothesis Hsub :
  ∀ t w, (t, w) ∈ D → w ≠ 0 → t `sublist_of` pre ++ i :: post.

Lemma nodes_in_sublist (p : list nat) (c : nat) :
  (p, c) ∈ Mlxtend.nodes_in i f → c ≠ 0 → p `sublist_of` pre.
Proof.
  intros Hin Hc.
  pose proof (weight_entry (λ p', bool_decide (p' = p)) p c _ Hin) as Hle.
  rewrite Hrep in Hle.
  destruct (weight_pos
              (λ t, bool_decide (i ∈ t) && bool_decide (before i t = p)) D)
    as (t & w & Ht & Hw & Hφ).
  { specialize (Hle (bool_decide_pack _ eq_refl)). lia. }
  apply andb_True in Hφ as [Hi%bool_decide_unpack <-%bool_decide_unpack].
  eapply before_sublist; eauto.
Qed.

Lemma cond_db_sublist (t : list nat) (w : nat) :
  (t, w) ∈ cond_db freq i f → w ≠ 0 → t `sublist_of` pre ++ post.
Proof.
  intros ([p c] & [= -> ->] & Hin)%list_elem_of_fmap Hc. simpl in *.
  apply sublist_inserts_r. etrans; [apply sublist_filter|].
  by eapply nodes_in_sublist.
Qed.

Lemma pointwise (s : list nat) (t : list nat) (w : nat) :
  s ⊆ pre → (t, w) ∈ D → w ≠ 0 →
  bool_decide (i ∈ t) && bool_decide (s ⊆ before i t)
  = bool_decide (s ++ [i] ⊆ t).
Proof.
  intros Hs Ht Hw. rewrite <-bool_decide_and. apply bool_decide_ext.
  eapply cond_pointwise; eauto.
Qed.

Lemma cond_keep_spec (j : nat) :
  j ∈ pre → cond_keep freq i f j = freq (db_count D [j; i]).
Proof.
  intros Hj. unfold cond_keep, db_count. f_equal. rewrite Hrep.
  apply weight_ext. intros t w Ht Hw.
  change [j; i] with ([j] ++ [i]).
  rewrite <-(pointwise [j] t w); [|set_solver|done|done].
  f_equal. apply bool_decide_ext. set_solver.
Qed.

Lemma db_count_cond (s : list nat) :
  s ⊆ pre →
  db_count (cond_db freq i f) s
  = if decide (Forall (λ j, cond_keep freq i f j) s)
    then db_count D (s ++ [i]) else 0.
Proof.
  intros Hs. unfold db_count at 1. unfold cond_db.
  rewrite weight_fmap_path, Hrep. case_decide as Hkeep.
  - apply weight_ext. intros t w Ht Hw.
    rewrite <-(pointwise s t w) by done. f_equal.
    apply bool_decide_ext. rewrite Forall_forall in Hkeep. split.
    + intros Hin x Hx. by apply Hin, list_elem_of_filter in Hx as [_ ?].
    + intros Hin x Hx. apply list_elem_of_filter. auto.
  - apply weight_false. intros t w _ _.
    apply andb_false_intro2, bool_decide_eq_false_2.
    intros Hin. apply Hkeep, Forall_forall. intros x Hx.
    by apply Hin, list_elem_of_filter in Hx as [? _].
Qed.

Lemma cond_keep_of_frequent (s : list nat) :
  s ⊆ pre → freq (db_count D (s ++ [i])) →
  Forall (λ j, cond_keep freq i f j) s.
Proof.
  intros Hs Hf. apply Forall_forall. intros j Hj.
  rewrite cond_keep_spec by by apply Hs.
  eapply freq_mono; [|done]. apply db_count_anti. set_solver.
Qed.
End Conditional.

Lemma NoDup_app_cons_inv (i : nat) (pre post : list nat) :
  NoDup (pre ++ i :: post) → NoDup (pre ++ post) ∧ i ∉ pre.
Proof.
  rewrite <-Permutation_middle. intros [Hi ?]%NoDup_cons. split; [done|].
  intros ?. apply Hi, elem_of_app. by left.
Qed.

Lemma fpg_step_spec (items : list nat) :
  ∀ (f : list Mlxtend.fptree) (D : list (list nat * nat))
    (suffix post : list nat),
    represents f D → NoDup (reverse items ++ post) →
    (∀ t w, (t, w) ∈ D → w ≠ 0 → t `sublist_of` reverse items ++ post) →
    ∀ l c,
      (l, c) ∈ Mlxtend.fpg_step freq items f suffix ↔
      ∃ s, l = s ++ suffix ∧ s ≠ [] ∧ s `sublist_of` reverse items ∧
           c = db_count D s ∧ freq c.
Proof.
  induction items as [|i rest IH]; intros f D suffix post Hrep Hnd Hsub l c.
  { simpl. split; [by intros ?%elem_of_nil|].
    intros (s & _ & Hne & Hsl%sublist_nil_r & _). done. }
  rewrite reverse_cons in *.
  rewrite <-app_assoc in Hnd, Hsub. simpl in Hnd, Hsub.
  destruct (NoDup_app_cons_inv _ _ _ Hnd) as [Hnd' Hi].
  pose proof (IH (Mlxtend.conditional_tree freq i f) (cond_db freq i f)
                 (i :: suffix) post (conditional_tree_represents i f) Hnd'
                 (cond_db_sublist i _ post f D Hrep Hnd Hsub)) as IHc.
  pose proof (IH f D suffix (i :: post) Hrep Hnd Hsub) as IHs.
  cbn [Mlxtend.fpg_step]. rewrite elem_of_app, (item_count_db f D i Hrep).
  split.
  - intros [Hfirst|Hsecond].
    + destruct (freq (db_count D [i])) eqn:Hfi;
        [|by apply elem_of_nil in Hfirst].
      apply elem_of_cons in Hfirst as [[= -> ->]|Hrec].
      * exists [i]. split_and!; [done|done| |done|by rewrite Hfi].
        by apply sublist_inserts_l.
      * apply IHc in Hrec as (s' & -> & Hs' & Hsl & -> & Hf).
        rewrite (db_count_cond i _ post f D Hrep Hnd Hsub) in Hf |- *
          by by apply sublist_subseteq.
        case_decide; [|by destruct freq_0].
        exists (s' ++ [i]). split_and!; [|by destruct s'| |done|done].
        -- by rewrite <-app_assoc.
        -- by apply sublist_app.
    + apply IHs in Hsecond as (s & -> & ? & ? & -> & ?).
      exists s. split_and!; try done. by apply sublist_inserts_r.
  - intros (s & -> & Hne & Hsl & -> & Hf).
    apply sublist_app_r in Hsl as (s1 & s2 & -> & Hs1 & Hs2).
    destruct s2 as [|x s2].
    { right. rewrite app_nil_r in *. apply IHs. by exists s1. }
    left.
    assert (x = i ∧ s2 = []) as [-> ->].
    { apply sublist_cons_l in Hs2 as (k1 & k2 & Hk & Hs2).
      destruct k1 as [|? [|??]]; [|done..]. injection Hk as -> <-.
      by apply sublist_nil_r in Hs2. }
    assert (freq (db_count D [i])) as Hfi.
    { eapply freq_mono; [|done]. apply db_count_anti. set_solver. }
    destruct (freq (db_count D [i])); [|done].
    destruct s1 as [|y s1]; [by left|right].
    apply IHc. exists (y :: s1).
    rewrite (db_count_cond i _ post f D Hrep Hnd Hsub)
      by by apply sublist_subseteq.
    rewrite decide_True.
    2:{ eapply cond_keep_of_frequent; eauto. by apply sublist_subseteq. }
    split_and!; [|done..]. by rewrite <-app_assoc.
Qed.

(** No itemset comes out twice. *)
Lemma fpg_step_NoDup (items : list nat) :
  ∀ (f : list Mlxtend.fptree) (D : list (list nat * nat))
    (suffix post : list nat),
    represents f D → NoDup (reverse items ++ post) →
    (∀ t w, (t, w) ∈ D → w ≠ 0 → t `sublist_of` reverse items ++ post) →
    NoDup (Mlxtend.fpg_step freq items f suffix).*1.
Proof.
  induction items as [|i rest IH]; intros f D suffix post Hrep Hnd Hsub.
  { constructor. }
  pose proof (fpg_step_spec (i :: rest) f D suffix post Hrep Hnd Hsub)
    as Hspec.
  rewrite reverse_cons in *.
  rewrite <-app_assoc in Hnd, Hsub. simpl in Hnd, Hsub.
  destruct (NoDup_app_cons_inv _ _ _ Hnd) as [Hnd' Hi].
  pose proof (IH (Mlxtend.conditional_tree freq i f) (cond_db freq i f)
                 (i :: suffix) post (conditional_tree_represents i f) Hnd'
                 (cond_db_sublist i _ post f D Hrep Hnd Hsub)) as IHc.
  pose proof (fpg_step_spec rest (Mlxtend.conditional_tree freq i f)
                 (cond_db freq i f)
                 (i :: suffix) post (conditional_tree_represents i f) Hnd'
                 (cond_db_sublist i _ post f D Hrep Hnd Hsub)) as Hc.
  pose proof (IH f D suffix (i :: post) Hrep Hnd Hsub) as IHs.
  pose proof (fpg_step_spec rest f D suffix (i :: post) Hrep Hnd Hsub) as Hs.
  cbn [Mlxtend.fpg_step]. rewrite fmap_app. apply NoDup_app. split_and!.
  - destruct (freq (Mlxtend.item_count i f)); [|constructor].
    rewrite fmap_cons. apply NoDup_cons. split; [|done].
    intros ([l c] & Hl & Hin)%list_elem_of_fmap. simpl in Hl. subst l.
    apply Hc in Hin as (s & Heq & Hne & _).
    destruct s; [done|]. apply (f_equal length) in Heq.
    rewrite length_app in Heq. simpl in Heq. lia.
  - intros l Hl1 ([l2 c2] & -> & Hin2)%list_elem_of_fmap. simpl in *.
    apply Hs in Hin2 as (s2 & -> & _ & Hsl2 & _).
    assert (∃ s1, s2 ++ suffix = (s1 ++ [i]) ++ suffix) as [s1 Heq].
    { destruct (freq (Mlxtend.item_count i f)); [|by apply elem_of_nil in Hl1].
      rewrite fmap_cons in Hl1. apply elem_of_cons in Hl1 as [Hl1|Hl1].
      - by exists [].
      - apply list_elem_of_fmap in Hl1 as ([l1 c1] & Hl1 & Hin1).
        apply Hc in Hin1 as (s1 & -> & _). exists s1. simpl in Hl1.
        by rewrite Hl1, <-app_assoc. }
    apply app_inv_tail in Heq. subst s2. apply Hi.
    eapply elem_of_sublist; [|done]. set_solver.
  - done.
Qed.
End GrowthFacts.

(** ** Itemsets up to the order of their items *)

Lemma sublist_perm_eq {A : Type} (L l1 l2 : list A) :
  NoDup L → l1 `sublist_of` L → l2 `sublist_of` L → l1 ≡ₚ l2 → l1 = l2.
Proof.
  intros Hnd. revert l1 l2.
  induction Hnd as [|x L Hx Hnd IH]; intros l1 l2 H1 H2 Hperm.
  { apply sublist_nil_r in H1, H2. by subst. }
  apply sublist_cons_r in H1 as [H1|(l1' & -> & H1)];
    apply sublist_cons_r in H2 as [H2|(l2' & -> & H2)].
  - by apply IH.
  - exfalso. apply Hx. eapply elem_of_sublist; [|exact H1].
    rewrite Hperm. by left.
  - exfalso. apply Hx. eapply elem_of_sublist; [|exact H2].
    rewrite <-Hperm. by left.
  - f_equal. apply IH; [done|done|]. by apply (inj (x ::.)).
Qed.

Lemma StronglySorted_le_lt (l : list nat) :
  StronglySorted le l → NoDup l → StronglySorted lt l.
Proof.
  induction 1 as [|x l Hs IH Hx]; [constructor|].
  intros [Hxl Hnd]%NoDup_cons. constructor.
  - by apply IH.
  - rewrite Forall_forall in Hx |- *. intros y Hy.
    specialize (Hx y Hy). assert (x ≠ y) by (by intros ->). lia.
Qed.

Lemma StronglySorted_lt_le (l : list nat) :
  StronglySorted lt l → StronglySorted le l.
Proof.
  induction 1 as [|x l Hs IH Hx]; constructor; [done|].
  eapply Forall_impl; [done|]. simpl. lia.
Qed.

Lemma StronglySorted_lt_NoDup (l : list nat) : StronglySorted lt l → NoDup l.
Proof.
  induction 1 as [|x l Hs IH Hx]; constructor; [|done].
  rewrite Forall_forall in Hx. intros Hin%Hx. lia.
Qed.

Lemma count_perm (X : list (list bool)) (s s' : list nat) :
  s ≡ₚ s' → Mlxtend.count X s = Mlxtend.count X s'.
Proof.
  intros Hperm. apply Nat.le_antisymm; apply count_anti; by rewrite Hperm.
Qed.

Lemma frozenset_of_perm (cols : list string) (s s' : list nat) :
  s ≡ₚ s' → Mlxtend.frozenset_of cols s = Mlxtend.frozenset_of cols s'.
Proof. intros Hperm. unfold Mlxtend.frozenset_of. by rewrite Hperm. Qed.

(** ** The transactions the tree of [fpgrowth] stores *)

Lemma length_filter_sum {A : Type} (P : A → Prop) `{!∀ x, Decision (P x)}
    (l : list A) :
  length (filter P l) = sum_list_with (λ x, if decide (P x) then 1 else 0) l.
Proof.
  induction l as [|x l IH]; [done|].
  rewrite filter_cons. simpl. case_decide; simpl; by rewrite IH.
Qed.

Lemma db_count_rows (X : list (list bool)) (order s : list nat) :
  s ⊆ order →
  db_count ((λ row, (filter (λ j, Mlxtend.has row j) order, 1)) <$> X) s
  = Mlxtend.count X s.
Proof.
  intros Hs. unfold db_count, Mlxtend.count.
  rewrite (weight_fmap _ (λ row, filter (λ j, Mlxtend.has row j) order)
             (λ _, 1)), length_filter_sum.
  induction X as [|row X IH]; [done|]. simpl. rewrite IH. f_equal.
  assert (s ⊆ filter (λ j, Mlxtend.has row j) order
          ↔ Mlxtend.contains s row) as Hiff.
  { rewrite contains_spec. split.
    - intros Hsub j Hj. by apply Hsub, list_elem_of_filter in Hj as [? _].
    - intros Hall j Hj. apply list_elem_of_filter. auto. }
  case_bool_decide; case_decide; tauto.
Qed.

(** ** [fpgrowth] finds exactly the frequent itemsets *)

Section FpgrowthFacts.
Variable b : bool_frame.
Variable ms : Q.
Hypothesis Hms : (0 < ms)%Q.
Hypothesis Hms1 : (ms <= 1)%Q.

Lemma fp_freq_mono (c c' : nat) : c ≤ c' → fp_freq b ms c → fp_freq b ms c'.
Proof. intros Hle. by apply meets_mono, ratio_mono. Qed.

Lemma fp_freq_0 : ¬ fp_freq b ms 0.
Proof.
  unfold fp_freq, Mlxtend.meets, Mlxtend.ratio.
  rewrite Is_true_true, Qle_bool_iff. intros Hle.
  eapply Qlt_not_le; [exact Hms|]. by eapply Qle_trans.
Qed.

Lemma fp_freq_frequent (s : list nat) :
  fp_freq b ms (Mlxtend.count (values b) s) = Mlxtend.frequent (values b) ms s.
Proof. done. Qed.

Lemma elem_of_fp_order (j : nat) :
  j ∈ fp_order b ms ↔
  j < length (columns b) ∧ Mlxtend.frequent (values b) ms [j].
Proof.
  unfold fp_order.
  rewrite elem_of_stable_sort, list_elem_of_filter, elem_of_seq,
    fp_freq_frequent.
  naive_solver lia.
Qed.

Lemma NoDup_fp_order : NoDup (fp_order b ms).
Proof. apply NoDup_stable_sort, NoDup_filter, NoDup_seq. Qed.

Lemma fp_tree_represents :
  represents
    (foldl (λ t row,
              Mlxtend.insert_itemset
                (filter (λ j, Mlxtend.has row j) (fp_order b ms)) 1 t)
           [] (values b))
    (fp_db b ms).
Proof.
  apply (represents_foldl
           (λ row, filter (λ j, Mlxtend.has row j) (fp_order b ms))
           (λ _, 1) (values b) [] []), represents_nil.
Qed.

Lemma fp_db_sublist (t : list nat) (w : nat) :
  (t, w) ∈ fp_db b ms → w ≠ 0 →
  t `sublist_of` reverse (reverse (fp_order b ms)) ++ [].
Proof.
  intros (row & [= -> ->] & _)%list_elem_of_fmap _.
  rewrite reverse_involutive, app_nil_r. apply sublist_filter.
Qed.

Lemma fpgrowth_unfold :
  Mlxtend.fpgrowth b ms
  = Ok ((λ sc, {| support := Mlxtend.ratio sc.2 (length (values b));
                  itemsets := Mlxtend.frozenset_of (columns b) sc.1 |})
          <$> Mlxtend.fpg_step (fp_freq b ms) (reverse (fp_order b ms))
                (foldl (λ t row,
                          Mlxtend.insert_itemset
                            (filter (λ j, Mlxtend.has row j) (fp_order b ms))
                            1 t)
                       [] (values b))
                []).
Proof.
  unfold Mlxtend.fpgrowth. rewrite (proj2 (Qle_bool_iff ms 1) Hms1).
  destruct (Qle_bool ms 0) eqn:Hle; [|done].
  apply Qle_bool_iff in Hle. exfalso. by eapply Qlt_not_le.
Qed.

Lemma fp_result_spec (l : list nat) (c : nat) :
  (l, c) ∈ Mlxtend.fpg_step (fp_freq b ms) (reverse (fp_order b ms))
             (foldl (λ t row,
                       Mlxtend.insert_itemset
                         (filter (λ j, Mlxtend.has row j) (fp_order b ms))
                         1 t)
                    [] (values b))
             [] ↔
  l ≠ [] ∧ l `sublist_of` fp_order b ms ∧
  c = Mlxtend.count (values b) l ∧ Mlxtend.frequent (values b) ms l.
Proof.
  rewrite (fpg_step_spec (fp_freq b ms) fp_freq_mono fp_freq_0 _ _
             (fp_db b ms) [] [] fp_tree_represents).
  2:{ rewrite reverse_involutive, app_nil_r. apply NoDup_fp_order. }
  2:{ apply fp_db_sublist. }
  rewrite reverse_involutive. split.
  - intros (s & -> & Hne & Hsl & -> & Hf). rewrite app_nil_r.
    unfold fp_db in *. rewrite db_count_rows in * by by apply sublist_subseteq.
    done.
  - intros (Hne & Hsl & -> & Hf). exists l. rewrite app_nil_r.
    unfold fp_db. rewrite db_count_rows by by apply sublist_subseteq.
    done.
Qed.

Lemma fp_result_NoDup :
  NoDup (Mlxtend.fpg_step (fp_freq b ms) (reverse (fp_order b ms))
           (foldl (λ t row,
                     Mlxtend.insert_itemset
                       (filter (λ j, Mlxtend.has row j) (fp_order b ms))
                       1 t)
                  [] (values b))
           []).*1.
Proof.
  apply (fpg_step_NoDup (fp_freq b ms) fp_freq_mono fp_freq_0 _ _
           (fp_db b ms) [] [] fp_tree_represents).
  - rewrite reverse_involutive, app_nil_r. apply NoDup_fp_order.
  - apply fp_db_sublist.
Qed.
End FpgrowthFacts.

Lemma canon_valid (m : nat) (l : list nat) :
  NoDup l → Forall (λ j, j < m) l → valid m (merge_sort le l).
Proof.
  intros Hnd Hb. apply valid_alt. split.
  - apply StronglySorted_le_lt.
    + apply StronglySorted_merge_sort; apply _.
    + by rewrite merge_sort_Permutation.
  - by rewrite merge_sort_Permutation.
Qed.

Lemma canon_sorted (s : list nat) (l : list nat) :
  StronglySorted lt s → l ≡ₚ s → merge_sort le l = s.
Proof.
  intros Hs Hperm. apply (StronglySorted_unique le).
  - apply StronglySorted_merge_sort; apply _.
  - by apply StronglySorted_lt_le.
  - by rewrite merge_sort_Permutation.
Qed.

Lemma fpgrowth_brute_force (b : bool_frame) (ms : Q) :
  (0 < ms)%Q → (ms <= 1)%Q →
  ∃ fi, Mlxtend.fpgrowth b ms = Ok fi ∧ fi ≡ₚ brute_force b ms.
Proof.
  intros Hms Hms1. rewrite fpgrowth_unfold by done. eexists. split; [done|].
  rewrite brute_force_alt.
  pose proof (fp_result_spec b ms Hms) as Hspec.
  pose proof (fp_result_NoDup b ms Hms) as Hnd.
  pose proof (NoDup_fp_order b ms) as Hord.
  set (res := Mlxtend.fpg_step _ _ _ _) in *.
  trans (Mlxtend.fi_row_of b <$> (merge_sort le <$> res.*1)).
  { apply reflexive_eq. rewrite <-!list_fmap_compose.
    apply list_fmap_ext. intros _ [l c] Hin%list_elem_of_lookup_2.
    apply Hspec in Hin as (_ & _ & -> & _). simpl.
    unfold Mlxtend.fi_row_of, Mlxtend.support_of. f_equal.
    - f_equal. apply count_perm. by rewrite merge_sort_Permutation.
    - apply frozenset_of_perm. by rewrite merge_sort_Permutation. }
  apply fmap_Permutation, NoDup_Permutation.
  - apply NoDup_fmap_2_strong; [|done].
    intros l1 l2 ([l1' c1] & -> & H1)%list_elem_of_fmap
      ([l2' c2] & -> & H2)%list_elem_of_fmap Heq. simpl in *.
    apply Hspec in H1 as (_ & H1 & _). apply Hspec in H2 as (_ & H2 & _).
    apply (sublist_perm_eq (fp_order b ms)); [done..|].
    by rewrite <-(merge_sort_Permutation le l1'), Heq, merge_sort_Permutation.
  - apply NoDup_brute_force_sets.
  - intros s. rewrite elem_of_brute_force_sets, list_elem_of_fmap. split.
    + intros (l & -> & ([l' c] & -> & Hin)%list_elem_of_fmap). simpl.
      apply Hspec in Hin as (Hne & Hsl & _ & Hf). split_and!.
      * apply canon_valid; [by eapply sublist_NoDup|].
        apply Forall_forall. intros j Hj.
        eapply elem_of_sublist, elem_of_fp_order in Hj as [? _]; done.
      * rewrite merge_sort_Permutation. destruct l'; [done|simpl; lia].
      * eapply frequent_anti; [|done]. by rewrite merge_sort_Permutation.
    + intros (Hs & Hlen & Hf).
      apply valid_alt in Hs as Hs'. destruct Hs' as [Hsorted Hb].
      assert (filter (λ j, j ∈ s) (fp_order b ms) ≡ₚ s) as Hperm.
      { apply NoDup_Permutation.
        - by apply NoDup_filter.
        - by apply StronglySorted_lt_NoDup.
        - intros j. rewrite list_elem_of_filter, elem_of_fp_order.
          split; [naive_solver|]. intros Hj. split_and!; [done| |].
          + rewrite Forall_forall in Hb. by apply Hb.
          + eapply frequent_anti; [|done]. set_solver. }
      exists (filter (λ j, j ∈ s) (fp_order b ms)). split.
      * symmetry. by apply canon_sorted.
      * apply list_elem_of_fmap.
        exists (filter (λ j, j ∈ s) (fp_order b ms),
                Mlxtend.count (values b)
                  (filter (λ j, j ∈ s) (fp_order b ms))).
        split; [done|]. apply Hspec. split_and!; [|apply sublist_filter|done|].
        -- intros Hnil. rewrite Hnil in Hperm.
           apply Permutation_nil_l in Hperm. subst s. simpl in Hlen. lia.
        -- eapply frequent_anti; [|done]. by rewrite Hperm.
Qed.

(** ** [mine_frequent_itemsets] *)

Lemma sort_values_fi_perm `{ObjectSort} (fi : list fi_row) :
  Pandas.sort_values_fi fi ≡ₚ fi.
Proof. apply stable_sort_perm. Qed.

Lemma mine_apriori `{ObjectSort} (b : bool_frame) (ms : Q) :
  mine_frequent_itemsets b "apriori" ms
  = Pandas.sort_values_fi <$> Mlxtend.apriori b ms.
Proof. unfold mine_frequent_itemsets. simpl. by destruct Mlxtend.apriori. Qed.

Lemma mine_fpgrowth `{ObjectSort} (b : bool_frame) (ms : Q) :
  mine_frequent_itemsets b "fpgrowth" ms
  = Pandas.sort_values_fi <$> Mlxtend.fpgrowth b ms.
Proof. unfold mine_frequent_itemsets. simpl. by destruct Mlxtend.fpgrowth. Qed.

Lemma mine_brute_force `{ObjectSort} (b : bool_frame) (algo : string) (ms : Q) :
  algo = "apriori" ∨ algo = "fpgrowth" → (0 < ms)%Q → (ms <= 1)%Q →
  ∃ fi, mine_frequent_itemsets b algo ms = Ok fi ∧ fi ≡ₚ brute_force b ms.
Proof.
  intros [-> | ->] Hms Hms1.
  - destruct (apriori_brute_force b ms Hms Hms1) as (fi & Hfi & Hperm).
    exists (Pandas.sort_values_fi fi). rewrite mine_apriori, Hfi.
    split; [done|]. by rewrite sort_values_fi_perm.
  - destruct (fpgrowth_brute_force b ms Hms Hms1) as (fi & Hfi & Hperm).
    exists (Pandas.sort_values_fi fi). rewrite mine_fpgrowth, Hfi.
    split; [done|]. by rewrite sort_values_fi_perm.
Qed.

Lemma mine_Ok_positive `{ObjectSort} (b : bool_frame) (algo : string) (ms : Q)
    (fi : list fi_row) :
  mine_frequent_itemsets b algo ms = Ok fi →
  (algo = "apriori" ∨ algo = "fpgrowth") ∧ (0 < ms)%Q.
Proof.
  unfold mine_frequent_itemsets, Mlxtend.apriori, Mlxtend.fpgrowth.
  destruct (Qlt_le_dec 0 ms) as [Hpos|Hle].
  - repeat case_decide; subst; simpl; try done; auto.
  - apply Qle_bool_iff in Hle. rewrite Hle. by repeat case_decide.
Qed.

Lemma mine_Ok_le_1 `{ObjectSort} (b : bool_frame) (algo : string) (ms : Q)
    (fi : list fi_row) :
  mine_frequent_itemsets b algo ms = Ok fi → (ms <= 1)%Q.
Proof.
  unfold mine_frequent_itemsets, Mlxtend.apriori, Mlxtend.fpgrowth.
  destruct (Qle_bool ms 1) eqn:Hle; [by intros _; apply Qle_bool_iff|].
  rewrite orb_true_r. by repeat case_decide.
Qed.

Lemma mine_nonpositive `{ObjectSort} (b : bool_frame) (algo : string) (ms : Q) :
  algo = "apriori" ∨ algo = "fpgrowth" → (ms <= 0)%Q →
  mine_frequent_itemsets b algo ms
  = Err (ValueError "`min_support` must be a positive number within the interval `(0, 1]`").
Proof.
  intros Halgo Hle%Qle_bool_iff.
  unfold mine_frequent_itemsets, Mlxtend.apriori, Mlxtend.fpgrowth.
  rewrite Hle. by destruct Halgo as [-> | ->].
Qed.

Lemma mine_above_one `{ObjectSort} (b : bool_frame) (algo : string) (ms : Q) :
  algo = "apriori" ∨ algo = "fpgrowth" → (1 < ms)%Q →
  mine_frequent_itemsets b algo ms
  = Err (ValueError "`min_support` must be a positive number within the interval `(0, 1]`").
Proof.
  intros Halgo Hlt.
  unfold mine_frequent_itemsets, Mlxtend.apriori, Mlxtend.fpgrowth.
  destruct (Qle_bool ms 1) eqn:Hle.
  { apply Qle_bool_iff in Hle. exfalso. by eapply Qlt_not_le. }
  rewrite orb_true_r. by destruct Halgo as [-> | ->].
Qed.

(** ** Bounds on the supports *)

Lemma count_le_length (X : list (list bool)) (s : list nat) :
  Mlxtend.count X s ≤ length X.
Proof. apply length_filter. Qed.

Lemma ratio_le_1 (c n : nat) : c ≤ n → (Mlxtend.ratio c n <= 1)%Q.
Proof.
  intros Hle. unfold Mlxtend.ratio, Qle. simpl.
  destruct n as [|n]; [assert (c = 0) as -> by lia; simpl; lia|].
  rewrite Z.mul_1_r, Z.mul_1_l. lia.
Qed.

Lemma support_of_le_1 (X : list (list bool)) (s : list nat) :
  (Mlxtend.support_of X s <= 1)%Q.
Proof. apply ratio_le_1, count_le_length. Qed.

Lemma support_of_no_rows (s : list nat) : Mlxtend.support_of [] s = 0%Q.
Proof. done. Qed.

Lemma brute_force_empty (b : bool_frame) (ms : Q) :
  (0 < ms)%Q → (1 < ms)%Q ∨ values b = [] ∨ columns b = [] →
  brute_force b ms = [].
Proof.
  intros Hpos Hcase. rewrite brute_force_alt.
  match goal with |- _ <$> ?l = [] => assert (l = []) as ->; [|done] end.
  apply elem_of_nil_inv. intros s Hs.
  apply elem_of_brute_force_sets in Hs as (Hs & Hlen & Hf).
  unfold Mlxtend.frequent, Mlxtend.meets in Hf.
  apply Is_true_true, Qle_bool_iff in Hf.
  destruct Hcase as [Hms|[HX|Hcols]].
  - eapply Qlt_not_le; [exact Hms|].
    eapply Qle_trans; [exact Hf|apply support_of_le_1].
  - rewrite HX in Hf. eapply Qlt_not_le; [exact Hpos|done].
  - rewrite Hcols in Hs. apply valid_length in Hs. simpl in Hs. lia.
Qed.



(** C3, as stated, fails: a matrix with no transaction, one with no item
    and one with neither are all accepted, and the result is empty. *)
Lemma mine_frequent_itemsets_accepts_empty_frame :
  mine_frequent_itemsets (H:=small_object_sort) empty_basket "fpgrowth"
    (1 # 2)%Q
  = Ok [] ∧
  mine_frequent_itemsets (H:=small_object_sort)
    {| index := []; columns := ["A"]; values := [] |} "apriori" (1 # 2)%Q
  = Ok [] ∧
  mine_frequent_itemsets (H:=small_object_sort)
    {| index := [1; 2]%Z; columns := []; values := [[]; []] |} "apriori"
    (1 # 2)%Q
  = Ok [].
Proof. split_and!; by vm_compute. Qed.

(** C3, amended: with a known algorithm, a threshold outside (0, 1]
    raises [ValueError], from the library's argument check, with a
    message that names [min_support] and the interval; a threshold
    inside it never raises, and a matrix with no transaction or no item
    gives the empty collection. *)
Theorem mine_frequent_itemsets_argument_check `{ObjectSort} (b : bool_frame)
    (algo : string) (min_support : Q) :
  algo = "apriori" ∨ algo = "fpgrowth" →
  ((min_support <= 0)%Q ∨ (1 < min_support)%Q →
   mine_frequent_itemsets b algo min_support
   = Err (ValueError "`min_support` must be a positive number within the interval `(0, 1]`")) ∧
  ((0 < min_support)%Q ∧ (min_support <= 1)%Q →
   ∃ fi, mine_frequent_itemsets b algo min_support = Ok fi ∧
         (values b = [] ∨ columns b = [] → fi = [])).
Proof.
  intros Halgo. split.
  - intros [Hle|Hgt]; [by apply mine_nonpositive|by apply mine_above_one].
  - intros [Hpos Hle].
    destruct (mine_brute_force b algo min_support Halgo Hpos Hle)
      as (fi & Hfi & Hperm).
    exists fi. split; [done|]. intros Hcase.
    rewrite brute_force_empty in Hperm by auto.
    by apply Permutation_nil_r.
Qed.

Lemma mine_frequent_itemsets_argument_check_demo :
  mine_frequent_itemsets (H:=small_object_sort) demo_basket "apriori" 0%Q
  = Err (ValueError "`min_support` must be a positive number within the interval `(0, 1]`") ∧
  mine_frequent_itemsets (H:=small_object_sort) demo_basket "fpgrowth" 2%Q
  = Err (ValueError "`min_support` must be a positive number within the interval `(0, 1]`") ∧
  ∃ fi, mine_frequent_itemsets (H:=small_object_sort)
          empty_basket "fpgrowth" (1 # 2)%Q = Ok fi ∧ fi = [].
Proof.
  split_and!.
  - apply (mine_frequent_itemsets_argument_check (H:=small_object_sort)
             demo_basket "apriori" 0%Q); [by left|].
    left. by vm_compute.
  - apply (mine_frequent_itemsets_argument_check (H:=small_object_sort)
             demo_basket "fpgrowth" 2%Q); [by right|].
    right. reflexivity.
  - destruct (mine_frequent_itemsets_argument_check (H:=small_object_sort)
                empty_basket "fpgrowth" (1 # 2)%Q) as [_ Hin]; [by right|].
    destruct Hin as (fi & Hfi & Hnil).
    { split; [reflexivity|]. by vm_compute. }
    exists fi. split; [done|]. apply Hnil. by left.
Defined.

(** ** The order of the frequent-itemset frame *)

Lemma Qcompare_Lt (x y : Q) : (x ?= y)%Q = Lt ↔ (x < y)%Q.
Proof. symmetry. apply Qlt_alt. Qed.

Lemma Qcompare_Eq (x y : Q) : (x ?= y)%Q = Eq ↔ (x == y)%Q.
Proof. symmetry. apply Qeq_alt. Qed.

Lemma Qcompare_Gt (x y : Q) : (x ?= y)%Q = Gt ↔ (y < x)%Q.
Proof. symmetry. apply Qgt_alt. Qed.

Lemma Sorted_StronglySorted_trans {A : Type} (R : A → A → Prop) (l : list A) :
  (∀ x y z, R x y → R y z → R x z) → Sorted R l → StronglySorted R l.
Proof.
  intros Htrans. apply Sorted_StronglySorted. by intros x y z; apply Htrans.
Qed.

Lemma StronglySorted_impl {A : Type} (R R' : A → A → Prop) (l : list A) :
  (∀ x y, R x y → R' x y) → StronglySorted R l → StronglySorted R' l.
Proof.
  intros Himp. induction 1 as [|x l Hs IH Hx]; constructor; [done|].
  eapply Forall_impl; [done|]. auto.
Qed.

(** C5: in the result for the transactions {A, B} and {C} all four
    itemsets have support 1/2, and {B} and {C} come before {A, B}, whose
    canonical representation is smaller: the second sort key, the
    itemset column, is ordered by Python's [<] on frozensets, which is
    proper inclusion, and the sort leaves incomparable itemsets as they
    came. *)
Lemma mine_frequent_itemsets_not_canonical :
  ∃ fi, mine_frequent_itemsets (H:=small_object_sort)
          tie_basket "apriori" (1 # 2)%Q = Ok fi ∧
        ¬ StronglySorted canonical_fi_order fi.
Proof.
  eexists. split; [by vm_compute|]. intros Hs.
  apply StronglySorted_inv in Hs as [Hs _].
  apply StronglySorted_inv in Hs as [_ Hb].
  apply Forall_cons in Hb as [_ Hb]. apply Forall_cons in Hb as [Hb _].
  destruct Hb as [Hlt|[_ Hseq]].
  - by vm_compute in Hlt.
  - by vm_compute in Hseq.
Qed.

(** ** Orders and items that were never bought *)

Lemma cell_false_of_group (df : list line_item) (i j : nat) (o : Z)
    (it : string) :
  index (load_and_prepare df) !! i = Some o →
  columns (load_and_prepare df) !! j = Some it →
  (∀ r, r ∈ df → order_id r = o → item r = it → (quantity r ≤ 0)%Z) →
  cell (load_and_prepare df) i j = false.
Proof.
  intros Hi Hj Hq.
  destruct (cell (load_and_prepare df) i j) eqn:Hc; [|done].
  rewrite (cell_load_and_prepare df i j o it) in Hc by done.
  apply cell_of_group in Hc; [|apply group_flags].
  apply elem_of_group_1 in Hc as (r & Hr & Ho & Hit & Hpos).
  specialize (Hq r Hr Ho Hit). lia.
Qed.

Lemma cell_outside_columns (df : list line_item) (i j : nat) :
  columns (load_and_prepare df) !! j = None →
  cell (load_and_prepare df) i j = false.
Proof.
  unfold cell. simpl. intros Hj. rewrite !nth_lookup, list_lookup_fmap.
  destruct (_ !! i) as [o|]; simpl; [|by destruct j].
  by rewrite list_lookup_fmap, Hj.
Qed.

Lemma cell_outside_index (df : list line_item) (i j : nat) :
  index (load_and_prepare df) !! i = None →
  cell (load_and_prepare df) i j = false.
Proof.
  unfold cell. simpl. intros Hi. rewrite !nth_lookup, list_lookup_fmap, Hi.
  by destruct j.
Qed.

Lemma mine_support_denominator `{ObjectSort} (b : bool_frame) (algo : string)
    (ms : Q) (fi : list fi_row) (r : fi_row) :
  mine_frequent_itemsets b algo ms = Ok fi → r ∈ fi →
  ∃ s, support r = Mlxtend.ratio (Mlxtend.count (values b) s)
                     (length (values b)).
Proof.
  intros Hfi Hr.
  destruct (mine_Ok_positive b algo ms fi Hfi) as [Halgo Hpos].
  pose proof (mine_Ok_le_1 b algo ms fi Hfi) as Hle.
  destruct (mine_brute_force b algo ms Halgo Hpos Hle)
    as (fi' & Hfi' & Hperm).
  rewrite Hfi in Hfi'. injection Hfi' as <-.
  rewrite Hperm, brute_force_alt in Hr.
  apply list_elem_of_fmap in Hr as (s & -> & _). by exists s.
Qed.

(** C10: an order whose records all have quantity 0 or less still has a
    row in the matrix, with every entry false, and an item whose records
    all have quantity 0 or less still has a column, with every entry
    false; every support the miner reports for this matrix is a count
    divided by the number of rows, one per distinct order. *)
Theorem load_and_prepare_keeps_unbought (df : list line_item) :
  let b := load_and_prepare df in
  (∀ o, (∃ r, r ∈ df ∧ order_id r = o) →
        (∀ r, r ∈ df → order_id r = o → (quantity r ≤ 0)%Z) →
        ∃ i, index b !! i = Some o ∧ i < length (values b) ∧
             ∀ j, cell b i j = false) ∧
  (∀ it, (∃ r, r ∈ df ∧ item r = it) →
         (∀ r, r ∈ df → item r = it → (quantity r ≤ 0)%Z) →
         ∃ j, columns b !! j = Some it ∧ ∀ i, cell b i j = false) ∧
  (length (values b) = length (Pandas.unique (order_id <$> df)) ∧
   ∀ (H : ObjectSort) algo min_support fi r,
     mine_frequent_itemsets b algo min_support = Ok fi → r ∈ fi →
     ∃ c, support r
          = (Z.of_nat c
             # Pos.of_nat (length (Pandas.unique (order_id <$> df))))%Q).
Proof.
  intros b. subst b.
  assert (length (values (load_and_prepare df))
          = length (Pandas.unique (order_id <$> df))) as Hrows.
  { simpl. by rewrite length_fmap, length_sorted_keys. }
  split_and!.
  - intros o (r & Hr & Ho) Hq.
    assert (o ∈ index (load_and_prepare df)) as Hin.
    { apply elem_of_sorted_keys, list_elem_of_fmap. eauto. }
    apply list_elem_of_lookup_1 in Hin as [i Hi]. exists i. split_and!.
    + done.
    + apply lookup_lt_Some in Hi. simpl in *. by rewrite length_fmap.
    + intros j. destruct (columns (load_and_prepare df) !! j) as [it|] eqn:Hj.
      * eapply cell_false_of_group; eauto.
      * by apply cell_outside_columns.
  - intros it (r & Hr & Hit) Hq.
    assert (it ∈ columns (load_and_prepare df)) as Hin.
    { apply elem_of_sorted_keys, list_elem_of_fmap. eauto. }
    apply list_elem_of_lookup_1 in Hin as [j Hj]. exists j. split; [done|].
    intros i. destruct (index (load_and_prepare df) !! i) as [o|] eqn:Hi.
    + eapply cell_false_of_group; eauto.
    + by apply cell_outside_index.
  - done.
  - intros H algo ms fi r Hfi Hr.
    destruct (mine_support_denominator _ algo ms fi r Hfi Hr) as [s Hs].
    exists (Mlxtend.count (values (load_and_prepare df)) s).
    by rewrite Hs, Hrows.
Qed.

Lemma load_and_prepare_keeps_unbought_returns :
  (∃ i, index (load_and_prepare returns_table) !! i = Some 3%Z ∧
        i < length (values (load_and_prepare returns_table)) ∧
        ∀ j, cell (load_and_prepare returns_table) i j = false) ∧
  (∃ j, columns (load_and_prepare returns_table) !! j = Some "Desk" ∧
        ∀ i, cell (load_and_prepare returns_table) i j = false).
Proof.
  destruct (load_and_prepare_keeps_unbought returns_table) as (Ho & Hit & _).
  split.
  - apply Ho.
    + exists (LineItem 3 "Desk" 0). split; [|done].
      unfold returns_table. set_solver.
    + intros r Hr Hr3. unfold returns_table in Hr.
      repeat (apply elem_of_cons in Hr as [->|Hr]; [by simpl in *|]).
      by apply elem_of_nil in Hr.
  - apply Hit.
    + exists (LineItem 3 "Desk" 0). split; [|done].
      unfold returns_table. set_solver.
    + intros r Hr Hr3. unfold returns_table in Hr.
      repeat (apply elem_of_cons in Hr as [->|Hr]; [by simpl in *|]).
      by apply elem_of_nil in Hr.
Defined.

(** ** The rows [association_rules] returns *)

Lemma collect_Ok {A B : Type} (g : A → result (list B)) (l : list A)
    (ys : list B) :
  Mlxtend.collect g l = Ok ys →
  (∀ x, x ∈ l → ∃ zs, g x = Ok zs) ∧
  (∀ y, y ∈ ys ↔ ∃ x zs, x ∈ l ∧ g x = Ok zs ∧ y ∈ zs).
Proof.
  revert ys. induction l as [|x l IH]; intros ys; simpl.
  - intros [= <-]. split; [by intros ? ?%elem_of_nil|].
    intros y. split; [by intros ?%elem_of_nil|].
    by intros (? & ? & ?%elem_of_nil & _).
  - destruct (g x) as [zs|e] eqn:Hg; simpl; [|done].
    destruct (Mlxtend.collect g l) as [ws|e] eqn:Hc; simpl; [|done].
    intros [= <-]. destruct (IH ws eq_refl) as [IH1 IH2]. split.
    + intros x' [->|Hx']%elem_of_cons; eauto.
    + intros y. rewrite elem_of_app, IH2. split.
      * intros [Hy|(x' & zs' & Hx' & Hg' & Hy)].
        -- exists x, zs. split_and!; [by left|done..].
        -- exists x', zs'. split_and!; [by right|done..].
      * intros (x' & zs' & [->|Hx']%elem_of_cons & Hg' & Hy).
        -- left. congruence.
        -- right. eauto.
Qed.

Lemma combinations_sublist {A : Type} (l : list A) (r : nat) (c : list A) :
  c ∈ combinations l r → c `sublist_of` l.
Proof.
  revert r c. induction l as [|x l IH]; intros [|r] c; simpl.
  - intros ->%list_elem_of_singleton. done.
  - by intros ?%elem_of_nil.
  - intros ->%list_elem_of_singleton. apply sublist_nil_l.
  - intros [(c' & -> & Hc')%list_elem_of_fmap|Hc]%elem_of_app.
    + apply sublist_skip. eauto.
    + apply sublist_cons. eauto.
Qed.

Lemma elem_of_splits (k a c : gset string) :
  (a, c) ∈ Mlxtend.splits k → a ⊆ k ∧ c = k ∖ a.
Proof.
  unfold Mlxtend.splits.
  intros (idx & (c0 & Hac & Hc0)%list_elem_of_bind & _)%list_elem_of_bind.
  apply list_elem_of_singleton in Hac as [= -> ->]. split; [|done].
  apply combinations_sublist, sublist_subseteq in Hc0.
  intros x Hx%elem_of_list_to_set. by apply elem_of_elements, Hc0.
Qed.

Lemma rule_of_Ok (d : gmap (gset string) Q) (score : Q → Q → Q → float)
    (thr sAC : Q) (ac : gset string * gset string) (zs : list rule) (r : rule) :
  Mlxtend.rule_of d score thr sAC ac = Ok zs →
  r ∈ zs ↔
  ∃ sA sC, d !! ac.1 = Some sA ∧ d !! ac.2 = Some sC ∧
           Mlxtend.reaches (score sAC sA sC) thr ∧
           r = Mlxtend.rule_row ac sAC sA sC.
Proof.
  unfold Mlxtend.rule_of.
  destruct (d !! ac.1) as [sA|]; [|done].
  destruct (d !! ac.2) as [sC|]; [|done].
  destruct (Mlxtend.reaches (score sAC sA sC) thr) eqn:Hr; intros [= <-].
  - rewrite list_elem_of_singleton. split.
    + intros ->. exists sA, sC. by rewrite Hr.
    + by intros (? & ? & [= <-] & [= <-] & _ & ->).
  - split; [by intros ?%elem_of_nil|].
    intros (? & ? & [= <-] & [= <-] & Hr' & _). by rewrite Hr in Hr'.
Qed.

Lemma association_rules_Ok (fi : list fi_row) (metric : string) (thr : Q)
    (rules : list rule) :
  Mlxtend.association_rules fi metric thr = Ok rules →
  ∃ score, Mlxtend.metric_dict metric = Some score ∧
           ∀ r, r ∈ rules ↔ rule_from fi score thr r.
Proof.
  unfold Mlxtend.association_rules. destruct fi as [|r0 fi0] eqn:Hfi; [done|].
  rewrite <-Hfi. clear Hfi r0 fi0.
  destruct (Mlxtend.metric_dict metric) as [score|]; [|done].
  intros [Hall Hin]%collect_Ok. exists score. split; [done|].
  intros r. rewrite Hin. split.
  - intros (k & zs & Hk & Hg & Hr).
    apply (proj1 (elem_of_unique _ _)) in Hk.
    destruct (Mlxtend.frequent_items_dict fi !! k) as [sAC|] eqn:Hd;
      [|injection Hg as <-; by apply elem_of_nil in Hr].
    apply collect_Ok in Hg as [_ Hg]. apply Hg in Hr as ([a c] & zs' & Hac & Hg' & Hr).
    eapply rule_of_Ok in Hg' as Hiff. apply Hiff in Hr as (sA & sC & ? & ? & ? & ->).
    exists k, sAC, a, c, sA, sC. split_and!; done.
  - intros (k & sAC & a & c & sA & sC & Hk & Hd & Hac & HA & HC & Hr & ->).
    apply (proj2 (elem_of_unique _ _)) in Hk. destruct (Hall k Hk) as [zs Hg].
    exists k, zs. split_and!; [done..|].
    rewrite Hd in Hg. apply collect_Ok in Hg as [Hall' Hin'].
    apply Hin'. destruct (Hall' (a, c) Hac) as [zs' Hg'].
    exists (a, c), zs'. split_and!; [done..|].
    eapply rule_of_Ok; [done|]. exists sA, sC. split_and!; done.
Qed.

(** ** [derive_rules] *)

Lemma derive_rules_Ok (fi : list fi_row) (metric : string) (thr : Q)
    (rs : list rule_out) :
  derive_rules fi metric thr = Ok rs →
  ∃ rules, Mlxtend.association_rules fi metric thr = Ok rules ∧
           out <$> rs = Pandas.sort_values_rules rules.
Proof.
  unfold derive_rules.
  destruct (Mlxtend.association_rules fi metric thr) as [rules|e]; simpl;
    [|done].
  intros [= <-]. exists rules. split; [done|].
  rewrite <-list_fmap_compose. apply list_fmap_id.
Qed.

Lemma elem_of_derive_rules (fi : list fi_row) (metric : string) (thr : Q)
    (rs : list rule_out) :
  derive_rules fi metric thr = Ok rs →
  ∃ score, Mlxtend.metric_dict metric = Some score ∧
           ∀ r, r ∈ out <$> rs ↔ rule_from fi score thr r.
Proof.
  intros (rules & Hrules & Hout)%derive_rules_Ok.
  apply association_rules_Ok in Hrules as (score & Hscore & Hin).
  exists score. split; [done|]. intros r.
  rewrite Hout. unfold Pandas.sort_values_rules.
  by rewrite elem_of_stable_sort.
Qed.

Lemma rules_leb_spec (r1 r2 : rule) :
  Pandas.rules_leb r1 r2 = true ↔ rule_order r1 r2.
Proof.
  unfold Pandas.rules_leb, rule_order.
  destruct (lift r2 ?= lift r1)%Q eqn:Hl;
    [apply Qcompare_Eq in Hl|apply Qcompare_Lt in Hl|apply Qcompare_Gt in Hl].
  - destruct (confidence r2 ?= confidence r1)%Q eqn:Hc;
      [apply Qcompare_Eq in Hc|apply Qcompare_Lt in Hc
      |apply Qcompare_Gt in Hc].
    + rewrite Qle_bool_iff. split; [auto|].
      intros [?|[_ [?|[_ ?]]]]; [lra|lra|done].
    + split; auto.
    + split; [done|]. intros [?|[_ [?|[? _]]]]; lra.
  - split; auto.
  - split; [done|]. intros [?|[? _]]; lra.
Qed.

Lemma rules_leb_total (r1 r2 : rule) :
  Pandas.rules_leb r1 r2 = true ∨ Pandas.rules_leb r2 r1 = true.
Proof.
  rewrite !rules_leb_spec. unfold rule_order.
  destruct (Q_dec (lift r1) (lift r2)) as [[?|?]|Hl]; [auto..|].
  destruct (Q_dec (confidence r1) (confidence r2)) as [[?|?]|Hc].
  - right. right. split; [done|]. by left.
  - left. right. split; [by symmetry|]. by left.
  - destruct (Qlt_le_dec (rule_support r1) (rule_support r2)).
    + right. right. split; [done|]. right. split; [done|lra].
    + left. right. split; [by symmetry|]. right. split; [by symmetry|done].
Qed.

Lemma rule_order_trans (r1 r2 r3 : rule) :
  rule_order r1 r2 → rule_order r2 r3 → rule_order r1 r3.
Proof.
  unfold rule_order.
  intros [?|[? [?|[? ?]]]] [?|[? [?|[? ?]]]];
    first [left; lra
          |right; split; [lra|]; first [left; lra|right; split; lra]].
Qed.

Lemma sort_values_rules_sorted (rules : list rule) :
  StronglySorted rule_order (Pandas.sort_values_rules rules).
Proof.
  apply (StronglySorted_impl (λ r1 r2, Pandas.rules_leb r1 r2 = true)).
  { intros r1 r2. apply rules_leb_spec. }
  apply Sorted_StronglySorted_trans.
  - intros r1 r2 r3. rewrite !rules_leb_spec. apply rule_order_trans.
  - apply stable_sort_Sorted, rules_leb_total.
Qed.

Lemma sort_values_rules_stable (a : rule) (rules : list rule) :
  filter (tied a) (Pandas.sort_values_rules rules) = filter (tied a) rules.
Proof.
  apply stable_sort_filter. intros r1 r2 (? & ? & ?) (? & ? & ?).
  apply rules_leb_spec. unfold rule_order.
  right. split; [lra|]. right. split; lra.
Qed.

Lemma StronglySorted_lookup {A : Type} (R : A → A → Prop) (l : list A)
    (i j : nat) (x y : A) :
  StronglySorted R l → l !! i = Some x → l !! j = Some y → i < j → R x y.
Proof.
  intros Hs. revert i j. induction Hs as [|z l Hs IH Hz]; intros i j Hi Hj Hij.
  { done. }
  destruct j as [|j]; [lia|]. destruct i as [|i]; simpl in *.
  - injection Hi as ->. rewrite Forall_forall in Hz.
    by eapply Hz, list_elem_of_lookup_2.
  - eapply IH; eauto. lia.
Qed.

(** ** When [derive_rules] returns *)

Lemma frequent_items_dict_dom (fi : list fi_row) (k : gset string) :
  is_Some (Mlxtend.frequent_items_dict fi !! k) ↔ k ∈ itemsets <$> fi.
Proof.
  unfold Mlxtend.frequent_items_dict.
  assert (∀ d : gmap (gset string) Q,
            is_Some (foldl (λ d r, <[itemsets r := support r]> d) d fi !! k)
            ↔ is_Some (d !! k) ∨ k ∈ itemsets <$> fi) as Hgen.
  { induction fi as [|r fi IH]; intros d; simpl.
    - rewrite elem_of_nil. tauto.
    - rewrite IH, elem_of_cons, lookup_insert_is_Some. 
      destruct (decide (itemsets r = k)); naive_solver. }
  rewrite Hgen, lookup_empty, is_Some_alt. tauto.
Qed.

Lemma combinations_length {A : Type} (l : list A) (r : nat) (c : list A) :
  c ∈ combinations l r → length c = r.
Proof.
  revert r c. induction l as [|x l IH]; intros [|r] c; simpl.
  - by intros ->%list_elem_of_singleton.
  - by intros ?%elem_of_nil.
  - by intros ->%list_elem_of_singleton.
  - intros [(c' & -> & Hc')%list_elem_of_fmap|Hc]%elem_of_app.
    + simpl. f_equal. eauto.
    + eauto.
Qed.

Lemma splits_sides (k a c : gset string) :
  (a, c) ∈ Mlxtend.splits k → (a ≠ ∅ ∧ a ⊆ k) ∧ (c ≠ ∅ ∧ c ⊆ k).
Proof.
  intros Hac. destruct (elem_of_splits k a c Hac) as [Hsub ->].
  unfold Mlxtend.splits in Hac.
  apply list_elem_of_bind in Hac as (idx & Hac & Hidx).
  apply list_elem_of_bind in Hac as (c0 & Hac & Hc0).
  apply list_elem_of_singleton in Hac as [= -> _].
  rewrite elem_of_reverse, elem_of_seq in Hidx.
  pose proof (combinations_length _ _ _ Hc0) as Hlen.
  apply combinations_sublist in Hc0.
  assert (NoDup c0) as Hnd
    by (apply (sublist_NoDup c0 (elements k)); [apply NoDup_elements|exact Hc0]).
  assert (size (list_to_set c0 : gset string) = idx) as Hsize
    by by rewrite size_list_to_set.
  split_and!; [|done| |set_solver].
  - intros Hempty. rewrite Hempty, size_empty in Hsize. lia.
  - intros Hempty.
    assert (k ⊆ list_to_set c0) as Hk by set_solver.
    apply subseteq_size in Hk. lia.
Qed.

Lemma collect_total {A B : Type} (g : A → result (list B)) (l : list A) :
  (∀ x, x ∈ l → ∃ zs, g x = Ok zs) → ∃ ys, Mlxtend.collect g l = Ok ys.
Proof.
  induction l as [|x l IH]; intros Hall; simpl; [by eexists|].
  destruct (Hall x) as [zs ->]; [by left|].
  destruct IH as [ws ->]; [intros; apply Hall; by right|].
  simpl. by eexists.
Qed.

Lemma association_rules_total (fi : list fi_row) (metric : string) (thr : Q) :
  fi ≠ [] → is_Some (Mlxtend.metric_dict metric) → subset_closed fi →
  ∃ rules, Mlxtend.association_rules fi metric thr = Ok rules.
Proof.
  intros Hne [score Hscore] Hclosed. unfold Mlxtend.association_rules.
  destruct fi as [|r0 fi0] eqn:Hfi; [done|]. rewrite <-Hfi in *.
  clear Hfi Hne r0 fi0. rewrite Hscore.
  apply collect_total. intros k Hk. apply (proj1 (elem_of_unique _ _)) in Hk.
  destruct (Mlxtend.frequent_items_dict fi !! k) as [sAC|]; [|by eexists].
  apply collect_total. intros [a c] Hac.
  destruct (splits_sides k a c Hac) as [[Ha Hak] [Hc Hck]].
  unfold Mlxtend.rule_of. simpl.
  destruct (proj2 (frequent_items_dict_dom fi a)) as [sA ->];
    [by apply (Hclosed k a)|].
  destruct (proj2 (frequent_items_dict_dom fi c)) as [sC ->];
    [by apply (Hclosed k c)|].
  destruct (Mlxtend.reaches _ _); by eexists.
Qed.

Lemma derive_rules_total (fi : list fi_row) (metric : string) (thr : Q) :
  fi ≠ [] → is_Some (Mlxtend.metric_dict metric) → subset_closed fi →
  ∃ rs, derive_rules fi metric thr = Ok rs.
Proof.
  intros Hne Hmetric Hclosed. unfold derive_rules.
  destruct (association_rules_total fi metric thr Hne Hmetric Hclosed)
    as [rules ->].
  simpl. by eexists.
Qed.

(** The frame the miner returns holds every non-empty subset of each of
    its itemsets. *)
Lemma mine_subset_closed `{ObjectSort} (b : bool_frame) (algo : string)
    (ms : Q) (fi : list fi_row) :
  mine_frequent_itemsets b algo ms = Ok fi → subset_closed fi.
Proof.
  intros Hfi.
  destruct (mine_Ok_positive b algo ms fi Hfi) as [Halgo Hpos].
  pose proof (mine_Ok_le_1 b algo ms fi Hfi) as Hle.
  destruct (mine_brute_force b algo ms Halgo Hpos Hle)
    as (fi' & Hfi' & Hperm).
  rewrite Hfi in Hfi'. injection Hfi' as <-.
  intros k a Hk Ha Hak. rewrite Hperm, brute_force_alt in Hk |- *.
  rewrite <-list_fmap_compose in Hk |- *.
  apply list_elem_of_fmap in Hk as (s & -> & Hs). simpl in *.
  apply elem_of_brute_force_sets in Hs as (Hs & Hlen & Hf).
  set (name := λ j, nth j (columns b) "").
  set (s' := filter (λ j, name j ∈ a) s).
  assert (Mlxtend.frozenset_of (columns b) s' = a) as Hs'.
  { apply set_eq. intros x. unfold Mlxtend.frozenset_of.
    rewrite elem_of_list_to_set, list_elem_of_fmap. split.
    - intros (j & -> & [Hj _]%list_elem_of_filter). done.
    - intros Hx. specialize (Hak x Hx). unfold Mlxtend.frozenset_of in Hak.
      apply elem_of_list_to_set, list_elem_of_fmap in Hak as (j & -> & Hj).
      exists j. split; [done|]. by apply list_elem_of_filter. }
  apply list_elem_of_fmap. exists s'. split; [done|].
  apply elem_of_brute_force_sets. split_and!.
  - eapply valid_sublist; [apply sublist_filter|done].
  - destruct s' as [|j s'']; [|simpl; lia].
    apply set_choose_L in Ha as [x Hx]. rewrite <-Hs' in Hx.
    by apply elem_of_list_to_set, elem_of_nil in Hx.
  - eapply frequent_anti; [|done]. apply sublist_subseteq, sublist_filter.
Qed.

(** The rules of a non-empty mined frame are always derived. *)
Lemma mine_then_derive_rules `{ObjectSort} (b : bool_frame)
    (algo metric : string) (min_support min_threshold : Q)
    (fi : list fi_row) :
  mine_frequent_itemsets b algo min_support = Ok fi →
  fi ≠ [] →
  is_Some (Mlxtend.metric_dict metric) →
  ∃ rs, derive_rules fi metric min_threshold = Ok rs.
Proof.
  intros Hfi Hne Hmetric. apply derive_rules_total; [done..|].
  by apply (mine_subset_closed b algo min_support).
Qed.

(** C4, as stated, fails: the twelve rules derived from the single
    transaction {A, B, C} are tied on lift, confidence and support, and the
    rule with antecedent "A, C" comes before the rule with antecedent "A".
    A rule with a two-item antecedent always comes before the rules with
    a one-item antecedent of the same itemset. *)
Lemma derive_rules_not_canonical :
  ∃ fi rs,
    mine_frequent_itemsets (H:=small_object_sort)
      abc_basket "apriori" (1 # 2)%Q = Ok fi ∧
    derive_rules fi "confidence" (1 # 2)%Q = Ok rs ∧
    ¬ StronglySorted canonical_rule_order rs.
Proof.
  eexists _, _. split; [by vm_compute|]. split; [by vm_compute|].
  intros Hs.
  eapply (StronglySorted_lookup _ _ 6 10) in Hs;
    [|vm_compute; reflexivity|vm_compute; reflexivity|lia].
  destruct Hs as [Hlt|[_ [Hlt|[_ [Hlt|[_ Hseq]]]]]];
    [by vm_compute in Hlt..|by vm_compute in Hseq].
Qed.

(** C4, amended: the rules are sorted by descending lift, then descending
    confidence, then descending support, and rules tied on all three keep
    the order in which [association_rules] produced them; the antecedent
    and consequent strings are added after the sort and break no tie. *)
Theorem derive_rules_sorted (fi : list fi_row) (metric : string)
    (min_threshold : Q) (rs : list rule_out) :
  Forall (λ r, (0 < support r)%Q) fi →
  derive_rules fi metric min_threshold = Ok rs →
  StronglySorted rule_order (out <$> rs) ∧
  ∃ rules,
    Mlxtend.association_rules fi metric min_threshold = Ok rules ∧
    out <$> rs ≡ₚ rules ∧
    ∀ a, filter (tied a) (out <$> rs) = filter (tied a) rules.
Proof.
  intros _ (rules & Hrules & ->)%derive_rules_Ok. split.
  - apply sort_values_rules_sorted.
  - exists rules. split_and!; [done|apply stable_sort_perm|].
    intros a. apply sort_values_rules_stable.
Qed.

Lemma derive_rules_sorted_demo :
  StronglySorted rule_order (out <$> demo_rules) ∧
  ∃ rules,
    Mlxtend.association_rules demo_itemsets "confidence" (1 # 2)%Q
    = Ok rules ∧
    out <$> demo_rules ≡ₚ rules ∧
    ∀ a, filter (tied a) (out <$> demo_rules) = filter (tied a) rules.
Proof.
  apply (derive_rules_sorted demo_itemsets "confidence" (1 # 2)%Q demo_rules).
  - repeat constructor.
  - by vm_compute.
Defined.



(** ** The rules under an iteration order *)

Lemma elements_order_lawful : lawful_iteration elements_order.
Proof. by intros s. Qed.

Lemma reverse_order_lawful : lawful_iteration reverse_order.
Proof. intros s. apply reverse_Permutation. Qed.

Lemma derive_rules_in_elements (fi : list fi_row) (metric : string) (thr : Q) :
  derive_rules_in (H:=elements_order) fi metric thr
  = derive_rules fi metric thr.
Proof. done. Qed.

Lemma elem_of_combinations {A : Type} (l : list A) (r : nat) (c : list A) :
  c ∈ combinations l r ↔ c `sublist_of` l ∧ length c = r.
Proof.
  split.
  { intros Hc. split; [by eapply combinations_sublist|].
    by eapply combinations_length. }
  revert r c. induction l as [|x l IH]; intros r c [Hsub Hlen].
  - apply sublist_nil_r in Hsub. subst. simpl. by left.
  - destruct r as [|r].
    { destruct c; [|done]. simpl. by left. }
    simpl. apply elem_of_app.
    apply sublist_cons_r in Hsub as [Hsub|(c' & -> & Hsub)].
    + right. by apply IH.
    + left. apply list_elem_of_fmap. exists c'. split; [done|].
      apply IH. split; [done|]. simpl in Hlen. lia.
Qed.

Lemma NoDup_combinations {A : Type} (l : list A) (r : nat) :
  NoDup l → NoDup (combinations l r).
Proof.
  intros Hnd. revert r.
  induction Hnd as [|x l Hx Hnd IH]; intros [|r]; simpl.
  - apply NoDup_singleton.
  - constructor.
  - apply NoDup_singleton.
  - apply NoDup_app. split_and!.
    + apply NoDup_fmap_2; [apply _|apply IH].
    + intros c (c' & -> & _)%list_elem_of_fmap Hc.
      apply combinations_sublist in Hc. apply Hx.
      eapply elem_of_sublist; [|exact Hc]. by left.
    + apply IH.
Qed.

Section Subsets.
Context (I : IterationOrder) (HI : lawful_iteration I).

Lemma NoDup_iteration (k : gset string) : NoDup (iteration k).
Proof. rewrite (HI k). apply NoDup_elements. Qed.

Lemma elem_of_iteration (k : gset string) (x : string) :
  x ∈ iteration k ↔ x ∈ k.
Proof. by rewrite (HI k), elem_of_elements. Qed.

(** The antecedents of one size are the subsets of that size, each once. *)
Lemma NoDup_antecedents (k : gset string) (idx : nat) :
  NoDup ((list_to_set <$> combinations (iteration k) idx)
          : list (gset string)).
Proof.
  apply NoDup_fmap_2_strong; [|apply NoDup_combinations, NoDup_iteration].
  intros c1 c2 H1%combinations_sublist H2%combinations_sublist Heq.
  apply (sublist_perm_eq (iteration k)); [apply NoDup_iteration|done..|].
  apply NoDup_Permutation.
  - eapply sublist_NoDup; [apply NoDup_iteration|exact H1].
  - eapply sublist_NoDup; [apply NoDup_iteration|exact H2].
  - intros x.
    by rewrite <-(elem_of_list_to_set (C:=gset string) x c1), Heq,
         elem_of_list_to_set.
Qed.

Lemma elem_of_antecedents (k a : gset string) (idx : nat) :
  a ∈ ((list_to_set <$> combinations (iteration k) idx)
        : list (gset string))
  ↔ a ⊆ k ∧ size a = idx.
Proof.
  rewrite list_elem_of_fmap. split.
  - intros (c & -> & [Hsub Hlen]%elem_of_combinations). split.
    + intros x Hx%elem_of_list_to_set. apply elem_of_iteration.
      by eapply elem_of_sublist.
    + rewrite size_list_to_set; [done|].
      eapply sublist_NoDup; [apply NoDup_iteration|exact Hsub].
  - intros [Hsub Hsize].
    exists (filter (λ x, x ∈ a) (iteration k)).
    assert (filter (λ x, x ∈ a) (iteration k) ≡ₚ elements a) as Hperm.
    { apply NoDup_Permutation.
      - apply NoDup_filter, NoDup_iteration.
      - apply NoDup_elements.
      - intros x. rewrite list_elem_of_filter, elem_of_iteration,
          elem_of_elements. set_solver. }
    split.
    + apply set_eq. intros x. rewrite elem_of_list_to_set, Hperm.
      by rewrite elem_of_elements.
    + apply elem_of_combinations. split; [apply sublist_filter|].
      by rewrite Hperm.
Qed.

End Subsets.

Lemma bind_singleton_fmap {A B : Type} (g : A → B) (l : list A) :
  l ≫= (λ x, [g x]) = g <$> l.
Proof. induction l as [|x l IH]; csimpl; [done|]. by rewrite IH. Qed.

Lemma bind_perm_ext {A B : Type} (g1 g2 : A → list B) (l : list A) :
  (∀ x, g1 x ≡ₚ g2 x) → l ≫= g1 ≡ₚ l ≫= g2.
Proof.
  intros Hg. induction l as [|x l IH]; csimpl; [done|]. by rewrite (Hg x), IH.
Qed.

Lemma split_singleton_fmap (k : gset string) (l : list (list string)) :
  l ≫= (λ c, [((list_to_set c : gset string), k ∖ list_to_set c)])
  = (λ a : gset string, (a, k ∖ a)) <$> (list_to_set <$> l).
Proof. induction l as [|c l IH]; csimpl; [done|]. by rewrite IH. Qed.

(** Two iteration orders give the same splits of an itemset, in two
    orders. *)
Lemma splits_in_perm (I1 I2 : IterationOrder) (k : gset string) :
  lawful_iteration I1 → lawful_iteration I2 →
  splits_in (H:=I1) k ≡ₚ splits_in (H:=I2) k.
Proof.
  intros H1 H2. unfold splits_in. apply bind_perm_ext. intros idx.
  rewrite !split_singleton_fmap.
  apply fmap_Permutation, NoDup_Permutation.
  - by apply NoDup_antecedents.
  - by apply NoDup_antecedents.
  - intros a. by rewrite !elem_of_antecedents.
Qed.

(** *** Collecting over two orders *)

Lemma same_rows_trans {A : Type} (r1 r2 r3 : result (list A)) :
  same_rows r1 r2 → same_rows r2 r3 → same_rows r1 r3.
Proof.
  destruct r1, r2, r3; simpl; try done; [|congruence].
  intros ??. by etrans.
Qed.

(** A permutation of the list permutes the rows; the exception is the
    same when [g] can raise only one. *)
Lemma collect_perm {A B : Type} (g : A → result (list B)) (l1 l2 : list A)
    (e0 : exn) :
  (∀ x e, g x = Err e → e = e0) →
  l1 ≡ₚ l2 → same_rows (Mlxtend.collect g l1) (Mlxtend.collect g l2).
Proof.
  intros He. induction 1 as [|x l1 l2 Hperm IH|x y l|l1 l2 l3 _ IH1 _ IH2].
  - by simpl.
  - simpl. destruct (g x) as [ys|e]; simpl; [|done].
    destruct (Mlxtend.collect g l1) as [zs1|e1],
      (Mlxtend.collect g l2) as [zs2|e2]; simpl in *; try done.
    by rewrite IH.
  - simpl.
    destruct (g x) as [xs|ex] eqn:Hx, (g y) as [ys|ey] eqn:Hy; simpl.
    + destruct (Mlxtend.collect g l) as [zs|e]; simpl; [|done].
      rewrite !(assoc (++)). apply Permutation_app_tail, Permutation_app_comm.
    + done.
    + done.
    + apply He in Hx, Hy. congruence.
  - by eapply same_rows_trans.
Qed.

Lemma collect_ext {A B : Type} (g1 g2 : A → result (list B)) (l : list A) :
  (∀ x, same_rows (g1 x) (g2 x)) →
  same_rows (Mlxtend.collect g1 l) (Mlxtend.collect g2 l).
Proof.
  intros Hg. induction l as [|x l IH]; simpl; [done|].
  specialize (Hg x).
  destruct (g1 x) as [ys1|e1], (g2 x) as [ys2|e2]; simpl in *; try done.
  destruct (Mlxtend.collect g1 l) as [zs1|e1],
    (Mlxtend.collect g2 l) as [zs2|e2]; simpl in *; try done.
  by rewrite Hg, IH.
Qed.

Lemma rule_of_Err (d : gmap (gset string) Q) (score : Q → Q → Q → float)
    (thr sAC : Q) (ac : gset string * gset string) (e : exn) :
  Mlxtend.rule_of d score thr sAC ac = Err e →
  e = KeyError "frequent itemsets must contain all subsets of each itemset".
Proof.
  unfold Mlxtend.rule_of.
  destruct (d !! ac.1), (d !! ac.2); try (by intros [= <-]).
  by destruct (Mlxtend.reaches _ _).
Qed.

Lemma association_rules_in_same_rows (I1 I2 : IterationOrder)
    (fi : list fi_row) (metric : string) (thr : Q) :
  lawful_iteration I1 → lawful_iteration I2 →
  same_rows (association_rules_in (H:=I1) fi metric thr)
            (association_rules_in (H:=I2) fi metric thr).
Proof.
  intros H1 H2. unfold association_rules_in.
  destruct fi as [|r fi]; [by simpl|].
  destruct (Mlxtend.metric_dict metric) as [score|]; [|by simpl].
  apply collect_ext. intros k.
  destruct (_ !! k) as [sAC|]; [|by simpl].
  eapply collect_perm; [apply rule_of_Err|by apply splits_in_perm].
Qed.

Lemma derive_rules_in_Ok `{IterationOrder} (fi : list fi_row)
    (metric : string) (thr : Q) (rs : list rule_out) :
  derive_rules_in fi metric thr = Ok rs →
  ∃ rules, association_rules_in fi metric thr = Ok rules ∧
           out <$> rs = Pandas.sort_values_rules rules ∧
           rs = (λ r, {| antecedents_str := join ", " (sorted (antecedents r));
                         consequents_str := join ", " (sorted (consequents r));
                         out := r |}) <$> Pandas.sort_values_rules rules.
Proof.
  unfold derive_rules_in.
  destruct (association_rules_in fi metric thr) as [rules|e]; simpl; [|done].
  intros [= <-]. exists rules. split_and!; [done| |done].
  rewrite <-list_fmap_compose. by rewrite list_fmap_id.
Qed.

Lemma rule_order_tied (r1 r2 : rule) :
  rule_order r1 r2 → rule_order r2 r1 → tied r1 r2.
Proof.
  unfold rule_order, tied.
  intros [?|[? [?|[? ?]]]] [?|[? [?|[? ?]]]];
    first [split_and!; lra | exfalso; lra].
Qed.

(** Two lists sorted by the same preorder that hold the same elements
    are equal when the preorder ties no two distinct elements. *)
Lemma StronglySorted_perm_eq {A : Type} (R : A → A → Prop) (l1 l2 : list A) :
  (∀ x y, x ∈ l1 → y ∈ l1 → R x y → R y x → x = y) →
  StronglySorted R l1 → StronglySorted R l2 → l1 ≡ₚ l2 → l1 = l2.
Proof.
  intros Hanti Hs1. revert l2.
  induction Hs1 as [|x l1 Hs1 IH Hx]; intros l2 Hs2 Hperm.
  { by apply Permutation_nil_l in Hperm. }
  destruct Hs2 as [|y l2 Hs2 Hy].
  { by apply Permutation_nil_r in Hperm. }
  assert (x = y) as <-.
  { assert (x ∈ y :: l2) as Hxin by (rewrite <-Hperm; by left).
    assert (y ∈ x :: l1) as Hyin by (rewrite Hperm; by left).
    apply elem_of_cons in Hxin as [?|Hxin]; [done|].
    apply elem_of_cons in Hyin as [?|Hyin]; [done|].
    rewrite Forall_forall in Hx, Hy.
    apply Hanti; [by left|by right|by apply Hx|by apply Hy]. }
  f_equal. apply IH; [|done|by apply (inj (x ::.))].
  intros a b Ha Hb. apply Hanti; by right.
Qed.

(** Under any two iteration orders [derive_rules] raises the same
    exception or returns the same rows, sorted the same way. *)
Lemma derive_rules_in_same_rows (I1 I2 : IterationOrder)
    (fi : list fi_row) (metric : string) (thr : Q) :
  lawful_iteration I1 → lawful_iteration I2 →
  match derive_rules_in (H:=I1) fi metric thr,
        derive_rules_in (H:=I2) fi metric thr with
  | Ok rs1, Ok rs2 =>
      rs1 ≡ₚ rs2 ∧
      StronglySorted rule_order (out <$> rs1) ∧
      StronglySorted rule_order (out <$> rs2) ∧
      ((∀ r r', r ∈ rs1 → r' ∈ rs1 → tied (out r) (out r') → r = r') →
       rs1 = rs2)
  | Err e1, Err e2 => e1 = e2
  | _, _ => False
  end.
Proof.
  intros H1 H2.
  pose proof (association_rules_in_same_rows I1 I2 fi metric thr H1 H2)
    as Hsame.
  destruct (derive_rules_in (H:=I1) fi metric thr) as [rs1|e1] eqn:Hrs1,
    (derive_rules_in (H:=I2) fi metric thr) as [rs2|e2] eqn:Hrs2.
  - destruct (derive_rules_in_Ok (H:=I1) fi metric thr rs1 Hrs1)
      as (rules1 & Hr1 & Hout1 & Hmap1).
    destruct (derive_rules_in_Ok (H:=I2) fi metric thr rs2 Hrs2)
      as (rules2 & Hr2 & Hout2 & Hmap2).
    rewrite Hr1, Hr2 in Hsame. simpl in Hsame.
    assert (Pandas.sort_values_rules rules1
            ≡ₚ Pandas.sort_values_rules rules2) as Hperm
      by (unfold Pandas.sort_values_rules; by rewrite !stable_sort_perm).
    assert (StronglySorted rule_order (out <$> rs1)) as Hs1
      by (rewrite Hout1; apply sort_values_rules_sorted).
    assert (StronglySorted rule_order (out <$> rs2)) as Hs2
      by (rewrite Hout2; apply sort_values_rules_sorted).
    split_and!; [|done..|].
    + rewrite Hmap1, Hmap2. by apply fmap_Permutation.
    + intros Hties.
      assert (out <$> rs1 = out <$> rs2) as Heq.
      { apply (StronglySorted_perm_eq rule_order); [|done|done|].
        - intros x y (r & -> & Hr)%list_elem_of_fmap
            (r' & -> & Hr')%list_elem_of_fmap Hxy Hyx.
          f_equal. apply Hties; [done..|]. by apply rule_order_tied.
        - by rewrite Hout1, Hout2. }
      rewrite Hmap1, Hmap2. rewrite Hout1, Hout2 in Heq. by rewrite Heq.
  - unfold derive_rules_in in Hrs1, Hrs2.
    destruct (association_rules_in (H:=I1) fi metric thr),
      (association_rules_in (H:=I2) fi metric thr); by simpl in *.
  - unfold derive_rules_in in Hrs1, Hrs2.
    destruct (association_rules_in (H:=I1) fi metric thr),
      (association_rules_in (H:=I2) fi metric thr); by simpl in *.
  - unfold derive_rules_in in Hrs1, Hrs2.
    destruct (association_rules_in (H:=I1) fi metric thr),
      (association_rules_in (H:=I2) fi metric thr); simpl in *;
      congruence.
Qed.

(** C9, as stated, fails: the single transaction {A, B, C} gives twelve
    rules tied on lift, confidence and support; two runs that differ in
    the iteration order of the frozensets, one with that of [elements]
    and one with its reverse, return the same frequent itemsets and list
    the rules in two different orders. *)
Lemma pipeline_follows_iteration :
  lawful_iteration elements_order ∧ lawful_iteration reverse_order ∧
  ∃ fi rs1 rs2,
    pipeline_in (H:=small_object_sort) (H0:=elements_order)
      abc_basket "apriori" (1 # 2)%Q "confidence" (1 # 2)%Q
    = Ok (fi, rs1) ∧
    pipeline_in (H:=small_object_sort) (H0:=reverse_order)
      abc_basket "apriori" (1 # 2)%Q "confidence" (1 # 2)%Q
    = Ok (fi, rs2) ∧
    antecedents_str <$> rs1 ≠ antecedents_str <$> rs2.
Proof.
  split; [apply elements_order_lawful|].
  split; [apply reverse_order_lawful|].
  eexists _, _, _. split; [by vm_compute|]. split; [by vm_compute|].
  by vm_compute.
Qed.

(** C9, amended: two runs of the two steps on the same matrix and
    configuration, under any two iteration orders of the frozensets,
    raise the same exception, or return the same frequent itemsets and
    the same rules, the rules sorted by descending lift, confidence and
    support in both; the two rules frames are equal row for row when no
    two different rules are tied on all three. *)
Theorem pipeline_any_iteration `{ObjectSort} (I1 I2 : IterationOrder)
    (b : bool_frame) (algo : string) (min_support : Q) (metric : string)
    (min_threshold : Q) :
  lawful_iteration I1 → lawful_iteration I2 →
  match pipeline_in (H0:=I1) b algo min_support metric min_threshold,
        pipeline_in (H0:=I2) b algo min_support metric min_threshold with
  | Ok (fi1, rs1), Ok (fi2, rs2) =>
      fi1 = fi2 ∧ rs1 ≡ₚ rs2 ∧
      StronglySorted rule_order (out <$> rs1) ∧
      StronglySorted rule_order (out <$> rs2) ∧
      ((∀ r r', r ∈ rs1 → r' ∈ rs1 → tied (out r) (out r') → r = r') →
       rs1 = rs2)
  | Err e1, Err e2 => e1 = e2
  | _, _ => False
  end.
Proof.
  intros H1 H2. unfold pipeline_in.
  destruct (mine_frequent_itemsets b algo min_support) as [fi|e]; simpl;
    [|done].
  pose proof (derive_rules_in_same_rows I1 I2 fi metric min_threshold H1 H2)
    as Hsame.
  destruct (derive_rules_in (H:=I1) fi metric min_threshold) as [rs1|e1],
    (derive_rules_in (H:=I2) fi metric min_threshold) as [rs2|e2];
    simpl; done.
Qed.

(** All rules tied, and no two rules tied. *)
Lemma pipeline_any_iteration_demo :
  match pipeline_in (H:=small_object_sort) (H0:=elements_order)
          abc_basket "apriori" (1 # 2)%Q "confidence" (1 # 2)%Q,
        pipeline_in (H:=small_object_sort) (H0:=reverse_order)
          abc_basket "apriori" (1 # 2)%Q "confidence" (1 # 2)%Q with
  | Ok (fi1, rs1), Ok (fi2, rs2) =>
      fi1 = fi2 ∧ rs1 ≡ₚ rs2 ∧
      StronglySorted rule_order (out <$> rs1) ∧
      StronglySorted rule_order (out <$> rs2) ∧
      ((∀ r r', r ∈ rs1 → r' ∈ rs1 → tied (out r) (out r') → r = r') →
       rs1 = rs2)
  | Err e1, Err e2 => e1 = e2
  | _, _ => False
  end ∧
  pipeline_in (H:=small_object_sort) (H0:=elements_order)
    skew_basket "apriori" (1 # 2)%Q "confidence" (1 # 2)%Q
  = Ok (skew_itemsets, skew_rules) ∧
  pipeline_in (H:=small_object_sort) (H0:=reverse_order)
    skew_basket "apriori" (1 # 2)%Q "confidence" (1 # 2)%Q
  = Ok (skew_itemsets, skew_rules).
Proof.
  split.
  { apply (pipeline_any_iteration (H:=small_object_sort)
             elements_order reverse_order abc_basket "apriori" (1 # 2)%Q
             "confidence" (1 # 2)%Q).
    - apply elements_order_lawful.
    - apply reverse_order_lawful. }
  assert (pipeline_in (H:=small_object_sort) (H0:=elements_order)
            skew_basket "apriori" (1 # 2)%Q "confidence" (1 # 2)%Q
          = Ok (skew_itemsets, skew_rules)) as Hfirst by by vm_compute.
  split; [done|].
  pose proof (pipeline_any_iteration (H:=small_object_sort)
                elements_order reverse_order skew_basket "apriori" (1 # 2)%Q
                "confidence" (1 # 2)%Q elements_order_lawful
                reverse_order_lawful) as Hsame.
  rewrite Hfirst in Hsame.
  destruct (pipeline_in (H:=small_object_sort) (H0:=reverse_order)
              skew_basket "apriori" (1 # 2)%Q "confidence" (1 # 2)%Q)
    as [[fi2 rs2]|e2]; [|done].
  destruct Hsame as (<- & _ & _ & _ & Heq). f_equal. f_equal.
  symmetry. apply Heq. intros r r' Hr Hr' Ht.
  vm_compute in Hr, Hr'.
  repeat (apply elem_of_cons in Hr as [->|Hr]);
    try (by apply elem_of_nil in Hr);
    repeat (apply elem_of_cons in Hr' as [->|Hr']);
    try (by apply elem_of_nil in Hr');
    first [reflexivity
          |exfalso; vm_compute in Ht; destruct Ht as (? & ? & ?); done].
Defined.

(** ** The scenario of the spec *)

Example load_and_prepare_demo : load_and_prepare demo_table = demo_basket.
Proof. by vm_compute. Qed.

Example mine_frequent_itemsets_demo :
  mine_frequent_itemsets (H:=small_object_sort) demo_basket "apriori"
    (1 # 2)%Q
  = Ok demo_itemsets.
Proof. by vm_compute. Qed.

Example mine_frequent_itemsets_unknown_algo :
  mine_frequent_itemsets (H:=small_object_sort) demo_basket "eclat"
    (1 # 2)%Q
  = Err (ValueError "algo must be 'apriori' or 'fpgrowth'").
Proof. by vm_compute. Qed.

Example derive_rules_demo :
  derive_rules demo_itemsets "confidence" (1 # 2)%Q = Ok demo_rules ∧
  confidence (out demo_rule_lm) = (8 # 12)%Q ∧
  lift (out demo_rule_lm) = (32 # 36)%Q.
Proof. by vm_compute. Qed.

Example derive_rules_empty :
  derive_rules [] "lift" 1%Q
  = Err (ValueError "the input DataFrame `df` containing the frequent itemsets is empty").
Proof. by vm_compute. Qed.

(** ** The order of strings *)

Lemma ascii_compare_Lt_trans (a b c : Ascii.ascii) :
  Ascii.compare a b = Lt → Ascii.compare b c = Lt → Ascii.compare a c = Lt.
Proof.
  unfold Ascii.compare. rewrite !N.compare_lt_iff. lia.
Qed.

Lemma string_compare_refl (s : string) : String.compare s s = Eq.
Proof.
  induction s as [|a s IH]; simpl; [done|].
  unfold Ascii.compare. by rewrite N.compare_refl.
Qed.

Lemma string_compare_Lt_trans (s1 s2 s3 : string) :
  String.compare s1 s2 = Lt → String.compare s2 s3 = Lt →
  String.compare s1 s3 = Lt.
Proof.
  revert s2 s3. induction s1 as [|a s1 IH]; intros [|b s2] [|c s3]; simpl;
    try done.
  destruct (Ascii.compare a b) eqn:Hab; [|clear IH|done].
  - apply Ascii.compare_eq_iff in Hab as ->.
    destruct (Ascii.compare b c); [apply IH|done..].
  - intros _. destruct (Ascii.compare b c) eqn:Hbc; [| |done].
    + apply Ascii.compare_eq_iff in Hbc as <-. by rewrite Hab.
    + by rewrite (ascii_compare_Lt_trans a b c).
Qed.

Lemma string_leb_spec (s1 s2 : string) :
  String.leb s1 s2 = true ↔ String.compare s1 s2 = Lt ∨ s1 = s2.
Proof.
  unfold String.leb. destruct (String.compare s1 s2) eqn:Hc.
  - apply String.compare_eq_iff in Hc. naive_solver.
  - naive_solver.
  - split; [done|]. intros [?| ->]; [done|].
    by rewrite string_compare_refl in Hc.
Qed.

Lemma string_leb_trans (s1 s2 s3 : string) :
  String.leb s1 s2 = true → String.leb s2 s3 = true →
  String.leb s1 s3 = true.
Proof.
  rewrite !string_leb_spec. intros [H12| ->] [H23| ->]; auto.
  left. by apply (string_compare_Lt_trans s1 s2 s3).
Qed.

Lemma string_ltb_spec (s1 s2 : string) :
  String.ltb s1 s2 = true ↔ String.leb s1 s2 = true ∧ s1 ≠ s2.
Proof.
  rewrite string_leb_spec. unfold String.ltb.
  destruct (String.compare s1 s2) eqn:Hc.
  - apply String.compare_eq_iff in Hc. naive_solver.
  - split; [|done]. intros _. split; [by left|]. intros ->.
    by rewrite string_compare_refl in Hc.
  - split; [done|]. intros [[?| ->] ?]; done.
Qed.

(** ** Sorted lists of distinct keys *)

Section SortedKeys.
Context `{EqDecision A}.
Variable leb : A → A → bool.
Hypothesis leb_total : ∀ x y, leb x y = true ∨ leb y x = true.
Hypothesis leb_trans : ∀ x y z, leb x y = true → leb y z = true →
                                leb x z = true.
Hypothesis leb_antisym : ∀ x y, leb x y = true → leb y x = true → x = y.

Lemma stable_sort_StronglySorted (l : list A) :
  StronglySorted (λ a b, leb a b = true) (stable_sort leb l).
Proof.
  apply Sorted_StronglySorted_trans; [exact leb_trans|].
  by apply stable_sort_Sorted.
Qed.

Lemma sorted_keys_strict (l : list A) :
  StronglySorted (λ a b, leb a b = true ∧ a ≠ b) (Pandas.sorted_keys leb l).
Proof.
  pose proof (NoDup_sorted_keys leb l) as Hnd.
  pose proof (stable_sort_StronglySorted (Pandas.unique l)) as Hs.
  unfold Pandas.sorted_keys in *.
  induction Hs as [|x k Hk IH Hx]; [constructor|].
  apply NoDup_cons in Hnd as [Hnx Hnd].
  constructor; [by apply IH|].
  rewrite Forall_forall in Hx |- *. intros y Hy. split; [by apply Hx|].
  by intros ->.
Qed.

Lemma sorted_keys_equiv (l l' : list A) :
  (∀ x, x ∈ l ↔ x ∈ l') →
  Pandas.sorted_keys leb l = Pandas.sorted_keys leb l'.
Proof.
  intros Hequiv.
  apply (StronglySorted_unique_strong (λ a b, leb a b = true)).
  - intros x y _ _ Hxy Hyx. by apply leb_antisym.
  - apply stable_sort_StronglySorted.
  - apply stable_sort_StronglySorted.
  - unfold Pandas.sorted_keys. rewrite !stable_sort_perm.
    apply NoDup_Permutation; [apply NoDup_unique..|].
    intros x. by rewrite !elem_of_unique.
Qed.
End SortedKeys.

Lemma Z_leb_total (x y : Z) : (x <=? y)%Z = true ∨ (y <=? x)%Z = true.
Proof. rewrite !Z.leb_le. lia. Qed.

Lemma Z_leb_trans (x y z : Z) :
  (x <=? y)%Z = true → (y <=? z)%Z = true → (x <=? z)%Z = true.
Proof. rewrite !Z.leb_le. lia. Qed.

Lemma Z_leb_antisym (x y : Z) :
  (x <=? y)%Z = true → (y <=? x)%Z = true → x = y.
Proof. rewrite !Z.leb_le. lia. Qed.

(** ** [load_and_prepare] and the order of the records *)

Lemma group_equiv (df df' : list line_item) (o : Z) (it : string) :
  (∀ r, r ∈ df ↔ r ∈ df') → 1%Z ∈ group df o it ↔ 1%Z ∈ group df' o it.
Proof.
  intros Hequiv. rewrite !elem_of_group_1. by setoid_rewrite Hequiv.
Qed.

Lemma pivot_cell_equiv (df df' : list line_item) (o : Z) (it : string) :
  (∀ r, r ∈ df ↔ r ∈ df') →
  Pandas.astype_bool (Pandas.fillna 0%Z (Pandas.agg_max (group df o it)))
  = Pandas.astype_bool (Pandas.fillna 0%Z (Pandas.agg_max (group df' o it))).
Proof.
  intros Hequiv.
  pose proof (cell_of_group (group df o it) (group_flags df o it)) as H1.
  pose proof (cell_of_group (group df' o it) (group_flags df' o it)) as H2.
  pose proof (group_equiv df df' o it Hequiv) as Hiff.
  destruct (Pandas.astype_bool _), (Pandas.astype_bool _); naive_solver.
Qed.

(** X1: the matrix depends on the set of the records of the input table
    only: neither their order nor a repeated record changes it (the keys
    of the pivot are distinct and sorted, and [max] looks at neither). *)
Theorem load_and_prepare_order_free (df df' : list line_item) :
  (∀ r, r ∈ df ↔ r ∈ df') → load_and_prepare df = load_and_prepare df'.
Proof.
  intros Hequiv. unfold load_and_prepare.
  assert (Pandas.sorted_keys Z.leb (order_id <$> df)
          = Pandas.sorted_keys Z.leb (order_id <$> df')) as ->.
  { apply sorted_keys_equiv;
      [apply Z_leb_total|apply Z_leb_trans|apply Z_leb_antisym|].
    intros o. rewrite !list_elem_of_fmap. by setoid_rewrite Hequiv. }
  assert (Pandas.sorted_keys String.leb (item <$> df)
          = Pandas.sorted_keys String.leb (item <$> df')) as ->.
  { apply sorted_keys_equiv;
      [apply String.leb_total|apply string_leb_trans|apply String.leb_antisym|].
    intros it. rewrite !list_elem_of_fmap. by setoid_rewrite Hequiv. }
  f_equal. apply list_fmap_ext. intros _ o _.
  apply list_fmap_ext. intros _ it _. by apply pivot_cell_equiv.
Qed.

(** The scenario of the spec, read from the last record to the first and
    then once more from the first to the last. *)
Lemma load_and_prepare_order_free_demo :
  load_and_prepare (reverse demo_table ++ demo_table)
  = load_and_prepare demo_table.
Proof.
  apply (load_and_prepare_order_free (reverse demo_table ++ demo_table)
           demo_table).
  intros r. rewrite elem_of_app, elem_of_reverse. tauto.
Defined.

(** X2: the rows of the matrix come in strictly ascending order id and its
    columns in strictly ascending item name. *)
Theorem load_and_prepare_sorted (df : list line_item) :
  StronglySorted Z.lt (index (load_and_prepare df)) ∧
  StronglySorted (λ a b, String.ltb a b = true)
                 (columns (load_and_prepare df)).
Proof.
  split; simpl.
  - eapply StronglySorted_impl;
      [|apply (sorted_keys_strict Z.leb);
        [apply Z_leb_total|apply Z_leb_trans]].
    intros x y [Hle%Z.leb_le Hne]. simpl in *. lia.
  - eapply StronglySorted_impl;
      [|apply (sorted_keys_strict String.leb);
        [apply String.leb_total|apply string_leb_trans]].
    intros x y Hxy. by apply string_ltb_spec.
Qed.

(** ** The single-item supports of [main] *)

Lemma count_column (b : bool_frame) (j : nat) :
  length (filter (λ x : bool, x) (column b j))
  = Mlxtend.count (values b) [j].
Proof.
  unfold column, Mlxtend.count. rewrite filter_fmap, length_fmap.
  f_equal. apply list_filter_iff. intros row. simpl.
  unfold Mlxtend.has. by rewrite andb_true_r.
Qed.

Lemma mean_column (b : bool_frame) (j : nat) :
  values b ≠ [] →
  mean (column b j) = Some (Mlxtend.support_of (values b) [j]).
Proof.
  intros Hne. unfold mean, Mlxtend.support_of.
  rewrite count_column.
  assert (length (column b j) = length (values b)) as ->
    by apply length_fmap.
  unfold column. by destruct (values b).
Qed.

Lemma mean_column_no_rows (b : bool_frame) (j : nat) :
  values b = [] → mean (column b j) = None.
Proof. unfold column. by intros ->. Qed.

Lemma elem_of_item_support `{S : SupportSort} (b : bool_frame)
    (r : ItemSupport.row) :
  sorts S →
  r ∈ item_support b ↔
  ∃ j it, columns b !! j = Some it ∧
          r = ItemSupport.Row it (mean (column b j)).
Proof.
  intros [Hperm _]. unfold item_support. rewrite Hperm.
  rewrite elem_of_lookup_imap. naive_solver.
Qed.

Lemma item_support_items `{S : SupportSort} (b : bool_frame) :
  sorts S → ItemSupport.item <$> item_support b ≡ₚ columns b.
Proof.
  intros [Hperm _]. unfold item_support. rewrite Hperm.
  match goal with |- ?l ≡ₚ _ => assert (l = columns b) as ->; [|done] end.
  apply list_eq. intros j.
  rewrite list_lookup_fmap, list_lookup_imap.
  by destruct (columns b !! j).
Qed.

(** The stable routine is one that sorts. *)
Lemma support_desc_leb_spec (r1 r2 : ItemSupport.row) :
  support_desc_leb r1 r2 = true ↔ support_desc r1 r2.
Proof.
  unfold support_desc_leb, support_desc.
  destruct (ItemSupport.support r1), (ItemSupport.support r2);
    rewrite ?Qle_bool_iff; naive_solver.
Qed.

Lemma support_desc_trans (r1 r2 r3 : ItemSupport.row) :
  support_desc r1 r2 → support_desc r2 r3 → support_desc r1 r3.
Proof.
  unfold support_desc.
  destruct (ItemSupport.support r1), (ItemSupport.support r2),
    (ItemSupport.support r3); try done.
  intros ??. by eapply Qle_trans.
Qed.

Lemma support_desc_total (r1 r2 : ItemSupport.row) :
  support_desc r1 r2 ∨ support_desc r2 r1.
Proof.
  unfold support_desc.
  destruct (ItemSupport.support r1) as [q1|],
    (ItemSupport.support r2) as [q2|]; auto.
  destruct (Qlt_le_dec q1 q2) as [?%Qlt_le_weak|?]; auto.
Qed.

Lemma stable_support_sort_sorts : sorts stable_support_sort.
Proof.
  split; intros l.
  - apply stable_sort_perm.
  - apply (StronglySorted_impl (λ r1 r2, support_desc_leb r1 r2 = true)).
    { intros r1 r2. apply support_desc_leb_spec. }
    apply Sorted_StronglySorted_trans.
    + intros r1 r2 r3. rewrite !support_desc_leb_spec.
      apply support_desc_trans.
    + apply stable_sort_Sorted. intros r1 r2.
      rewrite !support_desc_leb_spec. apply support_desc_total.
Qed.

(** *** On the matrix of [load_and_prepare] *)

Lemma length_values_load_and_prepare (df : list line_item) :
  length (values (load_and_prepare df)) = length (index (load_and_prepare df)).
Proof. simpl. by rewrite length_fmap. Qed.

Lemma elem_of_index_load_and_prepare (df : list line_item) (o : Z) :
  o ∈ index (load_and_prepare df) ↔ ∃ r, r ∈ df ∧ order_id r = o.
Proof.
  simpl. rewrite elem_of_sorted_keys, list_elem_of_fmap. naive_solver.
Qed.

Lemma elem_of_columns_load_and_prepare (df : list line_item) (it : string) :
  it ∈ columns (load_and_prepare df) ↔ ∃ r, r ∈ df ∧ item r = it.
Proof.
  simpl. rewrite elem_of_sorted_keys, list_elem_of_fmap. naive_solver.
Qed.

Lemma values_load_and_prepare_ne (df : list line_item) :
  columns (load_and_prepare df) ≠ [] → values (load_and_prepare df) ≠ [].
Proof.
  intros Hcols Hvals.
  destruct (columns (load_and_prepare df)) as [|it cols] eqn:Hc; [done|].
  assert (it ∈ columns (load_and_prepare df)) as Hit
    by (rewrite Hc; left).
  apply elem_of_columns_load_and_prepare in Hit as (r & Hr & _).
  assert (order_id r ∈ index (load_and_prepare df)) as Ho
    by (apply elem_of_index_load_and_prepare; eauto).
  apply (f_equal length) in Hvals.
  rewrite length_values_load_and_prepare in Hvals.
  destruct (index (load_and_prepare df)); [by apply elem_of_nil in Ho|done].
Qed.

Lemma column_load_and_prepare (df : list line_item) (j : nat) (it : string) :
  columns (load_and_prepare df) !! j = Some it →
  column (load_and_prepare df) j
  = (λ o, bool_decide (bought df o it)) <$> index (load_and_prepare df).
Proof.
  intros Hj. unfold column. simpl. rewrite <-list_fmap_compose.
  apply list_fmap_ext. intros _ o _. simpl.
  simpl in Hj.
  erewrite nth_lookup_Some
    by (rewrite list_lookup_fmap, Hj; reflexivity).
  pose proof (cell_of_group (group df o it) (group_flags df o it)) as Hc.
  rewrite elem_of_group_1 in Hc. fold (bought df o it) in Hc.
  destruct (Pandas.astype_bool _); case_bool_decide; naive_solver.
Qed.

Lemma mean_load_and_prepare (df : list line_item) (j : nat) (it : string) :
  columns (load_and_prepare df) !! j = Some it →
  mean (column (load_and_prepare df) j)
  = Some (Mlxtend.ratio
            (length (filter (λ o, bought df o it)
                            (index (load_and_prepare df))))
            (length (index (load_and_prepare df)))).
Proof.
  intros Hj.
  assert (values (load_and_prepare df) ≠ []) as Hne.
  { apply values_load_and_prepare_ne. intros Hc. by rewrite Hc in Hj. }
  assert (index (load_and_prepare df) ≠ []) as Hidx.
  { intros Hi. apply Hne. simpl in *. by rewrite Hi. }
  rewrite (column_load_and_prepare df j it Hj).
  unfold mean. rewrite filter_fmap, !length_fmap.
  destruct (index (load_and_prepare df)) as [|o idx]; [done|].
  rewrite fmap_cons. do 3 f_equal.
  apply list_filter_iff. intros o'. simpl. by rewrite bool_decide_spec.
Qed.

(** X3: [item_support.csv] lists every item of the input table once, with the
    share of the orders that hold it with a positive quantity, never NaN,
    in descending order of that share. *)
Theorem item_support_shares `{S : SupportSort} (df : list line_item) :
  sorts S →
  let b := load_and_prepare df in
  NoDup (ItemSupport.item <$> item_support b) ∧
  (∀ it, it ∈ ItemSupport.item <$> item_support b ↔
         ∃ r, r ∈ df ∧ item r = it) ∧
  (∀ r, r ∈ item_support b →
        ItemSupport.support r
        = Some (Mlxtend.ratio
                  (length (filter (λ o, bought df o (ItemSupport.item r))
                                  (index b)))
                  (length (index b)))) ∧
  StronglySorted support_desc (item_support b).
Proof.
  intros HS b. split_and!.
  - rewrite (item_support_items b HS). apply NoDup_sorted_keys.
  - intros it. rewrite (item_support_items b HS).
    apply elem_of_columns_load_and_prepare.
  - intros r (j & it & Hj & ->)%elem_of_item_support; [|done].
    simpl ItemSupport.item. simpl ItemSupport.support.
    by apply mean_load_and_prepare.
  - apply HS.
Qed.

Lemma item_support_shares_demo :
  let b := load_and_prepare demo_table in
  NoDup (ItemSupport.item <$> item_support (H:=stable_support_sort) b) ∧
  item_support (H:=stable_support_sort) b
  = [ItemSupport.Row "Laptop" (Some (3 # 4)%Q);
     ItemSupport.Row "Mouse" (Some (3 # 4)%Q);
     ItemSupport.Row "Keyboard" (Some (1 # 4)%Q)].
Proof.
  split; [|by vm_compute].
  apply (item_support_shares (S:=stable_support_sort) demo_table).
  apply stable_support_sort_sorts.
Defined.

(** *** The single items among the frequent itemsets *)

Lemma elem_of_mine `{ObjectSort} (b : bool_frame) (algo : string) (ms : Q)
    (fi : list fi_row) (row : fi_row) :
  mine_frequent_itemsets b algo ms = Ok fi →
  row ∈ fi ↔
  ∃ s, row = Mlxtend.fi_row_of b s ∧ valid (length (columns b)) s ∧
       1 ≤ length s ∧ Mlxtend.frequent (values b) ms s.
Proof.
  intros Hfi.
  destruct (mine_Ok_positive b algo ms fi Hfi) as [Halgo Hms].
  pose proof (mine_Ok_le_1 b algo ms fi Hfi) as Hms1.
  destruct (mine_brute_force b algo ms Halgo Hms Hms1)
    as (fi' & Hfi' & Hperm).
  rewrite Hfi in Hfi'. injection Hfi' as <-.
  rewrite Hperm, brute_force_alt, list_elem_of_fmap.
  setoid_rewrite elem_of_brute_force_sets. naive_solver.
Qed.

Lemma frozenset_of_singleton (cols : list string) (s : list nat) (j : nat)
    (it : string) :
  NoDup cols → cols !! j = Some it → valid (length cols) s → 1 ≤ length s →
  Mlxtend.frozenset_of cols s = {[it]} → s = [j].
Proof.
  intros Hnd Hj [Hsorted Hlt]%valid_alt Hlen Hset.
  assert (∀ k, k ∈ s → k = j) as Hall.
  { intros k Hk.
    assert (nth k cols "" ∈ Mlxtend.frozenset_of cols s) as Hin.
    { unfold Mlxtend.frozenset_of. rewrite elem_of_list_to_set.
      apply list_elem_of_fmap. eauto. }
    rewrite Hset, elem_of_singleton in Hin.
    rewrite Forall_forall in Hlt. specialize (Hlt k Hk).
    destruct (lookup_lt_is_Some_2 cols k Hlt) as [it' Hk'].
    rewrite (nth_lookup_Some _ _ _ _ Hk') in Hin. subst it'.
    by apply (NoDup_lookup cols k j it). }
  destruct s as [|a [|a' s]]; simpl in Hlen; [lia| |].
  - f_equal. apply Hall. by left.
  - apply StronglySorted_inv in Hsorted as [_ Ha].
    apply Forall_cons in Ha as [Ha _].
    rewrite (Hall a), (Hall a') in Ha; [lia|right; by left|by left].
Qed.

Lemma frozenset_of_one (cols : list string) (j : nat) (it : string) :
  cols !! j = Some it → Mlxtend.frozenset_of cols [j] = {[it]}.
Proof.
  intros Hj. unfold Mlxtend.frozenset_of. simpl.
  rewrite (nth_lookup_Some _ _ _ _ Hj). set_solver.
Qed.

Lemma valid_one (m j : nat) : j < m → valid m [j].
Proof.
  intros Hj. apply valid_alt. split; [repeat constructor|].
  by repeat constructor.
Qed.

Lemma mine_single_item `{ObjectSort} (b : bool_frame) (algo : string)
    (ms : Q) (fi : list fi_row) (j : nat) (it : string) :
  NoDup (columns b) → columns b !! j = Some it →
  mine_frequent_itemsets b algo ms = Ok fi →
  ({[it]} ∈ itemsets <$> fi ↔
   (ms <= Mlxtend.support_of (values b) [j])%Q) ∧
  (∀ row, row ∈ fi → itemsets row = {[it]} →
          support row = Mlxtend.support_of (values b) [j]).
Proof.
  intros Hnd Hj Hfi.
  assert (∀ row, row ∈ fi → itemsets row = {[it]} →
                 row = Mlxtend.fi_row_of b [j] ∧
                 Mlxtend.frequent (values b) ms [j]) as Hrow.
  { intros row (s & -> & Hs & Hlen & Hf)%(elem_of_mine b algo ms fi) Hset;
      [|done].
    simpl in Hset.
    assert (s = [j]) as ->
      by by apply (frozenset_of_singleton (columns b) s j it).
    done. }
  split; [split|].
  - intros (row & Hset & Hin)%list_elem_of_fmap.
    destruct (Hrow row Hin (eq_sym Hset)) as [_ Hf].
    by apply Qle_bool_iff, Is_true_true.
  - intros Hle. apply list_elem_of_fmap.
    exists (Mlxtend.fi_row_of b [j]). split.
    { simpl. by rewrite (frozenset_of_one _ j it). }
    apply (elem_of_mine b algo ms fi); [done|].
    exists [j]. split_and!; [done| |simpl; lia|].
    + apply valid_one. by apply lookup_lt_is_Some_1.
    + by apply Is_true_true, Qle_bool_iff.
  - intros row Hin Hset. by destruct (Hrow row Hin Hset) as [-> _].
Qed.

(** X4: the single-item rows of the frequent itemsets are the rows of
    [item_support] whose support reaches [min_support], with the same
    support. *)
Theorem item_support_frequent `{O : ObjectSort} `{S : SupportSort}
    (df : list line_item) (algo : string) (min_support : Q)
    (fi : list fi_row) (r : ItemSupport.row) (q : Q) :
  sorts S →
  mine_frequent_itemsets (load_and_prepare df) algo min_support = Ok fi →
  r ∈ item_support (load_and_prepare df) →
  ItemSupport.support r = Some q →
  ((min_support <= q)%Q ↔ {[ItemSupport.item r]} ∈ itemsets <$> fi) ∧
  (∀ row, row ∈ fi → itemsets row = {[ItemSupport.item r]} →
          support row = q).
Proof.
  intros HS Hfi (j & it & Hj & ->)%elem_of_item_support Hq; [|done].
  simpl in Hq. simpl ItemSupport.item.
  assert (values (load_and_prepare df) ≠ []) as Hne.
  { apply values_load_and_prepare_ne. intros Hc. by rewrite Hc in Hj. }
  rewrite (mean_column _ j Hne) in Hq. injection Hq as <-.
  destruct (mine_single_item (load_and_prepare df) algo min_support fi j it)
    as [Hiff Hsup]; [apply NoDup_sorted_keys|done..|].
  split; [by rewrite Hiff|done].
Qed.

Lemma item_support_frequent_demo :
  ((1 # 2 <= 3 # 4)%Q ↔ {["Laptop"]} ∈ itemsets <$> demo_itemsets) ∧
  (∀ row, row ∈ demo_itemsets → itemsets row = {["Laptop"]} →
          support row = (3 # 4)%Q).
Proof.
  apply (item_support_frequent (O:=small_object_sort)
           (S:=stable_support_sort) demo_table "apriori" (1 # 2)%Q
           demo_itemsets (ItemSupport.Row "Laptop" (Some (3 # 4)%Q))).
  - apply stable_support_sort_sorts.
  - by vm_compute.
  - vm_compute. by left.
  - done.
Defined.

(** ** [plot_top_items] *)

Lemma head_take {A : Type} (n : Z) (l : list A) :
  ∃ k, head n l = take k l ∧
       k `min` length l
       = if (0 <=? n)%Z then Z.to_nat n `min` length l
         else length l - Z.to_nat (- n).
Proof.
  unfold head. destruct (0 <=? n)%Z; eexists; split; try done. lia.
Qed.

(** X5: the bars of the figure are the first rows of the table: as many as
    [top_n] asks for when it is not negative (all of them when there are
    fewer), all but the last [-top_n] when it is negative; on a table in
    descending order of support no row left out has a larger support than
    a row that is plotted. *)
Theorem plot_top_items_bars (t : list ItemSupport.row) (top_n : Z)
    (outdir : path) :
  StronglySorted support_desc t →
  ∃ plotted rest fig,
    plot_top_items t top_n outdir
    = ([Savefig (PathDiv outdir "fig_top_items.png") fig],
       Ok (PathDiv outdir "fig_top_items.png")) ∧
    t = plotted ++ rest ∧
    bar_x fig = ItemSupport.item <$> plotted ∧
    bar_height fig = ItemSupport.support <$> plotted ∧
    length plotted
    = (if (0 <=? top_n)%Z then Z.to_nat top_n `min` length t
       else length t - Z.to_nat (- top_n)) ∧
    ∀ r1 r2, r1 ∈ plotted → r2 ∈ rest → support_desc r1 r2.
Proof.
  intros Hsorted.
  destruct (head_take top_n t) as (k & Hhead & Hlen).
  exists (take k t), (drop k t). eexists. split_and!.
  - unfold plot_top_items. rewrite Hhead. reflexivity.
  - by rewrite take_drop.
  - done.
  - done.
  - by rewrite length_take.
  - intros r1 r2 H1 H2. rewrite <-(take_drop k t) in Hsorted.
    by apply (StronglySorted_app_1_elem_of _ _ _ _ _ Hsorted).
Qed.

Lemma plot_top_items_bars_demo :
  ∃ plotted rest fig,
    plot_top_items
      (item_support (H:=stable_support_sort) (load_and_prepare demo_table))
      2 (Path "outputs")
    = ([Savefig (PathDiv (Path "outputs") "fig_top_items.png") fig],
       Ok (PathDiv (Path "outputs") "fig_top_items.png")) ∧
    item_support (H:=stable_support_sort) (load_and_prepare demo_table)
    = plotted ++ rest ∧
    bar_x fig = ItemSupport.item <$> plotted ∧
    bar_height fig = ItemSupport.support <$> plotted ∧
    length plotted = 2 ∧
    ∀ r1 r2, r1 ∈ plotted → r2 ∈ rest → support_desc r1 r2.
Proof.
  apply (plot_top_items_bars
           (item_support (H:=stable_support_sort)
                         (load_and_prepare demo_table))
           2 (Path "outputs")).
  apply stable_support_sort_sorts.
Defined.

(** ** [main] *)

Lemma parsed_algo (args : Args.Namespace) :
  parsed args → Args.algo args = "apriori" ∨ Args.algo args = "fpgrowth".
Proof. intros [Halgo _]. unfold algo_choices in Halgo. set_solver. Qed.

Lemma parsed_metric (args : Args.Namespace) :
  parsed args → is_Some (Mlxtend.metric_dict (Args.metric args)).
Proof.
  intros [_ Hmetric]. unfold metric_choices in Hmetric.
  repeat (apply elem_of_cons in Hmetric as [->|Hmetric]; [by eexists|]).
  by apply elem_of_nil in Hmetric.
Qed.

(** Some itemset is frequent exactly when some single item is. *)
Lemma mine_nil_iff `{ObjectSort} (b : bool_frame) (algo : string) (ms : Q)
    (fi : list fi_row) :
  mine_frequent_itemsets b algo ms = Ok fi →
  fi = [] ↔
  ∀ j, j < length (columns b) →
       (Mlxtend.support_of (values b) [j] < ms)%Q.
Proof.
  intros Hfi. split.
  - intros -> j Hj. apply Qnot_le_lt. intros Hle.
    assert (Mlxtend.fi_row_of b [j] ∈ @nil fi_row) as Hin.
    { apply (elem_of_mine b algo ms []); [done|].
      exists [j]. split_and!; [done|by apply valid_one|simpl; lia|].
      by apply Is_true_true, Qle_bool_iff. }
    by apply elem_of_nil in Hin.
  - intros Hall. apply elem_of_nil_inv. intros row Hrow.
    apply (elem_of_mine b algo ms fi) in Hrow
      as (s & -> & Hs & Hlen & Hf); [|done].
    destruct s as [|j s]; [simpl in Hlen; lia|].
    assert (Mlxtend.frequent (values b) ms [j]) as Hj.
    { apply (frequent_anti _ _ (j :: s)); [set_solver|done]. }
    apply Is_true_true, Qle_bool_iff in Hj.
    apply valid_alt in Hs as [_ Hlt]. apply Forall_cons in Hlt as [Hlt _].
    apply Qle_not_lt in Hj. apply Hj. by apply Hall.
Qed.

Lemma item_support_reach `{S : SupportSort} (df : list line_item) (ms : Q) :
  sorts S →
  (∃ r q, r ∈ item_support (load_and_prepare df) ∧
          ItemSupport.support r = Some q ∧ (ms <= q)%Q) ↔
  ∃ j, j < length (columns (load_and_prepare df)) ∧
       (ms <= Mlxtend.support_of (values (load_and_prepare df)) [j])%Q.
Proof.
  intros HS. split.
  - intros (r & q & (j & it & Hj & ->)%elem_of_item_support & Hq & Hle);
      [|done].
    exists j. split; [by eapply lookup_lt_Some|].
    simpl in Hq. rewrite mean_column in Hq; [by injection Hq as <-|].
    apply values_load_and_prepare_ne. intros Hc. by rewrite Hc in Hj.
  - intros (j & Hj & Hle).
    destruct (lookup_lt_is_Some_2 _ _ Hj) as [it Hit].
    exists (ItemSupport.Row it (mean (column (load_and_prepare df) j))).
    eexists.
    split_and!; [apply elem_of_item_support; eauto| |exact Hle].
    simpl. apply mean_column, values_load_and_prepare_ne.
    intros Hc. by rewrite Hc in Hit.
Qed.

(** X6: when [min_support] is not positive, or no single item reaches it,
    [main] ends with a [ValueError] after creating the output directory:
    no table, no figure and no summary is written, the single-item
    supports, which are computed by then, included. *)
Theorem main_stops_before_writing `{O : ObjectSort} `{S : SupportSort}
    (args : Args.Namespace) (df : list line_item) :
  sorts S → parsed args →
  (Args.min_support args <= 0)%Q ∨
  (∀ r q, r ∈ item_support (load_and_prepare df) →
          ItemSupport.support r = Some q →
          (q < Args.min_support args)%Q) →
  ∃ msg, main args df
         = ([Mkdir (Path (Args.outdir args))], Err (ValueError msg)).
Proof.
  intros HS Hargs Hcase. pose proof (parsed_algo args Hargs) as Halgo.
  unfold main.
  destruct (Qlt_le_dec 0 (Args.min_support args)) as [Hpos|Hle].
  - destruct Hcase as [Hle|Hlow]; [by apply Qlt_not_le in Hpos|].
    destruct (Qlt_le_dec 1 (Args.min_support args)) as [Hgt|Hle1].
    { rewrite (mine_above_one _ _ _ Halgo Hgt). simpl. eauto. }
    destruct (mine_brute_force (load_and_prepare df) (Args.algo args)
                (Args.min_support args) Halgo Hpos Hle1) as (fi & Hfi & _).
    assert (fi = []) as ->.
    { apply (proj2 (mine_nil_iff _ _ _ _ Hfi)). intros j Hj.
      apply Qnot_le_lt. intros Hreach.
      destruct (proj2 (item_support_reach df (Args.min_support args) HS))
        as (r & q & Hr & Hq & Hqle); [eauto|].
      apply Qle_not_lt in Hqle. apply Hqle. by apply (Hlow r q). }
    rewrite Hfi. simpl. unfold derive_rules. simpl. eauto.
  - rewrite (mine_nonpositive _ _ _ Halgo Hle). simpl. eauto.
Qed.

(** A threshold above every single-item support of the scenario. *)
Lemma main_stops_before_writing_demo :
  ∃ msg,
    main (H:=small_object_sort) (H0:=stable_support_sort)
      {| Args.input := "data/transactions.csv"; Args.outdir := "outputs";
         Args.algo := "fpgrowth"; Args.min_support := 9 # 10;
         Args.metric := "lift"; Args.min_threshold := 1;
         Args.top_n := 12 |}
      demo_table
    = ([Mkdir (Path "outputs")], Err (ValueError msg)).
Proof.
  apply (main_stops_before_writing (O:=small_object_sort)
           (S:=stable_support_sort)
           {| Args.input := "data/transactions.csv"; Args.outdir := "outputs";
              Args.algo := "fpgrowth"; Args.min_support := 9 # 10;
              Args.metric := "lift"; Args.min_threshold := 1;
              Args.top_n := 12 |}
           demo_table).
  - apply stable_support_sort_sorts.
  - split; simpl; unfold algo_choices, metric_choices; set_solver.
  - right. intros r q Hr Hq. vm_compute in Hr.
    repeat (apply elem_of_cons in Hr as [->|Hr];
            [injection Hq as <-; done|]).
    by apply elem_of_nil in Hr.
Defined.

(** X7: with a positive [min_support] that some single item reaches, [main]
    returns, and what it has written is, in order: the single-item
    supports, the frequent itemsets, the rules, the figure and the
    summary, the three tables without their index. *)
Theorem main_writes_artifacts `{O : ObjectSort} `{S : SupportSort}
    (args : Args.Namespace) (df : list line_item) :
  sorts S → parsed args →
  (0 < Args.min_support args)%Q →
  (∃ r q, r ∈ item_support (load_and_prepare df) ∧
          ItemSupport.support r = Some q ∧
          (Args.min_support args <= q)%Q) →
  let basket := load_and_prepare df in
  let outdir := Path (Args.outdir args) in
  ∃ fi rules fig,
    mine_frequent_itemsets basket (Args.algo args) (Args.min_support args)
    = Ok fi ∧
    derive_rules fi (Args.metric args) (Args.min_threshold args)
    = Ok rules ∧
    plot_top_items (item_support basket) (Args.top_n args) outdir
    = ([Savefig (PathDiv outdir "fig_top_items.png") fig],
       Ok (PathDiv outdir "fig_top_items.png")) ∧
    main args df
    = ([Mkdir outdir;
        Mkdir (PathParent (PathDiv outdir "item_support.csv"));
        ToCsv (PathDiv outdir "item_support.csv")
              (ItemSupportTable (item_support basket)) false;
        Mkdir (PathParent
                 (PathDiv outdir ("frequent_itemsets_" +:+ Args.algo args
                                  +:+ ".csv")));
        ToCsv (PathDiv outdir ("frequent_itemsets_" +:+ Args.algo args
                               +:+ ".csv"))
              (ItemsetsTable fi) false;
        Mkdir (PathParent
                 (PathDiv outdir ("association_rules_" +:+ Args.algo args
                                  +:+ ".csv")));
        ToCsv (PathDiv outdir ("association_rules_" +:+ Args.algo args
                               +:+ ".csv"))
              (RulesTable rules) false;
        Savefig (PathDiv outdir "fig_top_items.png") fig;
        Mkdir (PathParent (PathDiv outdir "summary.json"));
        JsonDump (PathDiv outdir "summary.json")
                 (json_dump (summary basket args rules));
        Print outdir],
       Ok ()).
Proof.
  intros HS Hargs Hpos Hreach basket outdir.
  pose proof (parsed_algo args Hargs) as Halgo.
  assert (Args.min_support args <= 1)%Q as Hle1.
  { destruct (proj1 (item_support_reach df _ HS) Hreach) as (j & _ & Hle).
    eapply Qle_trans; [exact Hle|apply support_of_le_1]. }
  destruct (mine_brute_force basket (Args.algo args)
              (Args.min_support args) Halgo Hpos Hle1) as (fi & Hfi & _).
  assert (fi ≠ []) as Hne.
  { intros Hnil.
    pose proof (proj1 (mine_nil_iff _ _ _ _ Hfi) Hnil) as Hlow.
    apply (item_support_reach df _ HS) in Hreach as (j & Hj & Hle).
    apply Qle_not_lt in Hle. apply Hle. by apply Hlow. }
  destruct (mine_then_derive_rules basket (Args.algo args) (Args.metric args)
              (Args.min_support args) (Args.min_threshold args) fi Hfi Hne
              (parsed_metric args Hargs)) as (rules & Hrules).
  exists fi, rules. eexists. split_and!; [done..|reflexivity|].
  unfold main. fold basket. rewrite Hfi. simpl. rewrite Hrules. done.
Qed.

Lemma main_writes_artifacts_demo :
  ∃ fi rules fig,
    mine_frequent_itemsets (H:=small_object_sort)
      (load_and_prepare demo_table) "apriori" (1 # 2)%Q = Ok fi ∧
    derive_rules fi "confidence" (1 # 2)%Q = Ok rules ∧
    plot_top_items
      (item_support (H:=stable_support_sort) (load_and_prepare demo_table))
      2 (Path "outputs")
    = ([Savefig (PathDiv (Path "outputs") "fig_top_items.png") fig],
       Ok (PathDiv (Path "outputs") "fig_top_items.png")) ∧
    main (H:=small_object_sort) (H0:=stable_support_sort)
      demo_args demo_table
    = ([Mkdir (Path "outputs");
        Mkdir (PathParent (PathDiv (Path "outputs") "item_support.csv"));
        ToCsv (PathDiv (Path "outputs") "item_support.csv")
              (ItemSupportTable
                 (item_support (H:=stable_support_sort)
                               (load_and_prepare demo_table))) false;
        Mkdir (PathParent
                 (PathDiv (Path "outputs") "frequent_itemsets_apriori.csv"));
        ToCsv (PathDiv (Path "outputs") "frequent_itemsets_apriori.csv")
              (ItemsetsTable fi) false;
        Mkdir (PathParent
                 (PathDiv (Path "outputs") "association_rules_apriori.csv"));
        ToCsv (PathDiv (Path "outputs") "association_rules_apriori.csv")
              (RulesTable rules) false;
        Savefig (PathDiv (Path "outputs") "fig_top_items.png") fig;
        Mkdir (PathParent (PathDiv (Path "outputs") "summary.json"));
        JsonDump (PathDiv (Path "outputs") "summary.json")
                 (json_dump (summary (load_and_prepare demo_table)
                                     demo_args rules));
        Print (Path "outputs")],
       Ok ()).
Proof.
  apply (main_writes_artifacts (O:=small_object_sort)
           (S:=stable_support_sort) demo_args demo_table).
  - apply stable_support_sort_sorts.
  - split; simpl; unfold algo_choices, metric_choices; set_solver.
  - done.
  - exists (ItemSupport.Row "Laptop" (Some (3 # 4)%Q)), (3 # 4)%Q.
    split_and!; [|done..]. vm_compute. by left.
Defined.

(** ** The summary *)

Lemma rule_order_refl (r : rule) : rule_order r r.
Proof.
  right. split; [done|]. right. split; [done|]. apply Qle_refl.
Qed.

Lemma derive_rules_head (fi : list fi_row) (metric : string) (thr : Q)
    (rs : list rule_out) (r r' : rule_out) (rest : list rule_out) :
  derive_rules fi metric thr = Ok rs → rs = r :: rest → r' ∈ rs →
  rule_order (out r) (out r').
Proof.
  intros (rules & _ & Hout)%derive_rules_Ok -> Hr'.
  pose proof (sort_values_rules_sorted rules) as Hsorted.
  rewrite <-Hout, fmap_cons in Hsorted.
  apply StronglySorted_inv in Hsorted as [_ Hall].
  apply elem_of_cons in Hr' as [->|Hr']; [apply rule_order_refl|].
  rewrite Forall_forall in Hall. apply Hall.
  apply list_elem_of_fmap. eauto.
Qed.

(** X8: the [top_rule] entry of the summary is empty exactly when no rule was
    derived; otherwise it holds one record, the first rule of the table,
    and no rule of the table comes before it in the order of lift, then
    confidence, then support. *)
Theorem top_rule_is_best (fi : list fi_row) (metric : string)
    (min_threshold : Q) (rules : list rule_out) :
  derive_rules fi metric min_threshold = Ok rules →
  (top_rule rules = [] ↔ rules = []) ∧
  (∀ r rest, rules = r :: rest →
     top_rule rules = [to_record r] ∧
     ∀ r', r' ∈ rules → rule_order (out r) (out r')).
Proof.
  intros Hrules. split.
  - by destruct rules.
  - intros r rest ->. split; [done|].
    intros r' Hr'. by eapply derive_rules_head.
Qed.

Lemma top_rule_is_best_demo :
  (top_rule demo_rules = [] ↔ demo_rules = []) ∧
  (∀ r rest, demo_rules = r :: rest →
     top_rule demo_rules = [to_record r] ∧
     ∀ r', r' ∈ demo_rules → rule_order (out r) (out r')).
Proof.
  apply (top_rule_is_best demo_itemsets "confidence" (1 # 2)%Q demo_rules).
  by vm_compute.
Defined.

(** ** [_json_default] *)

Lemma sorted_strict (s : gset string) :
  StronglySorted (λ a b, String.ltb a b = true) (sorted s).
Proof.
  pose proof (NoDup_stable_sort String.leb _ (NoDup_elements s)) as Hnd.
  pose proof (stable_sort_StronglySorted String.leb String.leb_total
                string_leb_trans (elements s)) as Hs.
  unfold sorted.
  induction Hs as [|x k Hk IH Hx]; [constructor|].
  apply NoDup_cons in Hnd as [Hnx Hnd].
  constructor; [by apply IH|].
  rewrite Forall_forall in Hx |- *. intros y Hy.
  apply string_ltb_spec. split; [by apply Hx|]. by intros ->.
Qed.

Lemma list_to_set_sorted (s : gset string) : list_to_set (sorted s) = s.
Proof.
  apply set_eq. intros x. unfold sorted.
  by rewrite elem_of_list_to_set, elem_of_stable_sort, elem_of_elements.
Qed.

(** X9: a set is written to JSON as the list of its members in strictly
    ascending order: the set can be read back from the list, and equal
    sets give equal lists whatever their iteration order. *)
Theorem json_default_set (s : gset string) :
  ∃ l, _json_default (SetObject s) = JList (JStr <$> l) ∧
       StronglySorted (λ a b, String.ltb a b = true) l ∧
       list_to_set l = s.
Proof.
  exists (sorted s). split_and!; [done|apply sorted_strict|].
  apply list_to_set_sorted.
Qed.

(** ** The rows of the frequent-itemset frame *)

Lemma nth_frozenset_of (cols : list string) (s : list nat) (k : nat) :
  NoDup cols → Forall (λ j, j < length cols) s → k < length cols →
  nth k cols "" ∈ Mlxtend.frozenset_of cols s ↔ k ∈ s.
Proof.
  intros Hnd Hs Hk. unfold Mlxtend.frozenset_of.
  rewrite elem_of_list_to_set, list_elem_of_fmap. split; [|by eauto].
  intros (k' & Heq & Hk').
  rewrite Forall_forall in Hs. specialize (Hs k' Hk').
  destruct (lookup_lt_is_Some_2 cols k Hk) as [x Hx].
  destruct (lookup_lt_is_Some_2 cols k' Hs) as [x' Hx'].
  rewrite (nth_lookup_Some _ _ _ _ Hx), (nth_lookup_Some _ _ _ _ Hx') in Heq.
  subst x'. by rewrite (NoDup_lookup cols k k' x Hnd Hx Hx').
Qed.

Lemma frozenset_of_subseteq (cols : list string) (s s' : list nat) :
  NoDup cols → valid (length cols) s → valid (length cols) s' →
  Mlxtend.frozenset_of cols s ⊆ Mlxtend.frozenset_of cols s' → s ⊆ s'.
Proof.
  intros Hnd [_ Hs]%valid_alt [_ Hs']%valid_alt Hsub k Hk.
  assert (k < length cols) as Hlt
    by (rewrite Forall_forall in Hs; by apply Hs).
  apply (nth_frozenset_of cols s' k Hnd Hs' Hlt), Hsub.
  by apply (nth_frozenset_of cols s k Hnd Hs Hlt).
Qed.

Lemma frozenset_of_inj (cols : list string) (s s' : list nat) :
  NoDup cols → valid (length cols) s → valid (length cols) s' →
  Mlxtend.frozenset_of cols s = Mlxtend.frozenset_of cols s' → s = s'.
Proof.
  intros Hnd Hs Hs' Heq.
  pose proof (frozenset_of_subseteq cols s s' Hnd Hs Hs') as H1.
  pose proof (frozenset_of_subseteq cols s' s Hnd Hs' Hs) as H2.
  apply valid_alt in Hs as [Hs _], Hs' as [Hs' _].
  apply (StronglySorted_unique_strong lt); [intros; lia|done..|].
  apply NoDup_Permutation; [by apply StronglySorted_lt_NoDup..|].
  intros k. split; [apply H1|apply H2]; by rewrite Heq.
Qed.

Lemma support_of_reach_positive (X : list (list bool)) (s : list nat)
    (ms : Q) :
  (0 < ms)%Q → Mlxtend.frequent X ms s → (0 < Mlxtend.support_of X s)%Q.
Proof.
  intros Hms Hf%Is_true_true%Qle_bool_iff. by eapply Qlt_le_trans.
Qed.



(** X11: every non-empty subset of a frequent itemset is a row of the frame
    too, with a support that is at least as large. *)
Theorem mine_frequent_itemsets_downward_closed `{ObjectSort}
    (b : bool_frame) (algo : string) (min_support : Q) (fi : list fi_row)
    (row : fi_row) (a : gset string) :
  mine_frequent_itemsets b algo min_support = Ok fi →
  row ∈ fi → a ≠ ∅ → a ⊆ itemsets row →
  ∃ row', row' ∈ fi ∧ itemsets row' = a ∧
          (support row <= support row')%Q.
Proof.
  intros Hfi Hrow Ha Hsub.
  apply (elem_of_mine b algo min_support fi) in Hrow
    as (s & -> & Hs & Hlen & Hf); [|done].
  simpl in *.
  set (name := λ j, nth j (columns b) "").
  set (s' := filter (λ j, name j ∈ a) s).
  assert (Mlxtend.frozenset_of (columns b) s' = a) as Hs'.
  { apply set_eq. intros x. unfold Mlxtend.frozenset_of.
    rewrite elem_of_list_to_set, list_elem_of_fmap. split.
    - intros (j & -> & [Hj _]%list_elem_of_filter). done.
    - intros Hx. specialize (Hsub x Hx). unfold Mlxtend.frozenset_of in Hsub.
      apply elem_of_list_to_set, list_elem_of_fmap in Hsub as (j & -> & Hj).
      exists j. split; [done|]. by apply list_elem_of_filter. }
  assert (s' ⊆ s) as Hss by (apply sublist_subseteq, sublist_filter).
  exists (Mlxtend.fi_row_of b s'). split_and!; [|done|].
  - apply (elem_of_mine b algo min_support fi); [done|].
    exists s'. split_and!; [done| | |].
    + eapply valid_sublist; [apply sublist_filter|done].
    + destruct s' as [|j s'']; [|simpl; lia].
      apply set_choose_L in Ha as [x Hx]. rewrite <-Hs' in Hx.
      by apply elem_of_list_to_set, elem_of_nil in Hx.
    + by eapply frequent_anti.
  - simpl. apply ratio_mono, count_anti, Hss.
Qed.

Lemma mine_frequent_itemsets_downward_closed_demo :
  ∃ row', row' ∈ demo_itemsets ∧ itemsets row' = {["Mouse"]} ∧
          (2 # 4 <= support row')%Q.
Proof.
  apply (mine_frequent_itemsets_downward_closed (H:=small_object_sort)
           demo_basket "apriori" (1 # 2)%Q demo_itemsets
           {| support := 2 # 4; itemsets := {["Laptop"; "Mouse"]} |}
           {["Mouse"]}).
  - by vm_compute.
  - apply (list_elem_of_lookup_2 _ 2). by vm_compute.
  - apply (bool_decide_unpack _). by vm_compute.
  - apply (bool_decide_unpack _). by vm_compute.
Defined.

(** X12: mining with [apriori] at a higher threshold gives the rows of
    the [apriori] result for the lower threshold whose support reaches
    the higher one. *)
Theorem mine_frequent_itemsets_threshold `{ObjectSort} (b : bool_frame)
    (min_support min_support' : Q) (fi fi' : list fi_row) :
  (min_support <= min_support')%Q →
  mine_frequent_itemsets b "apriori" min_support = Ok fi →
  mine_frequent_itemsets b "apriori" min_support' = Ok fi' →
  fi' ≡ₚ filter (λ row, Qle_bool min_support' (support row)) fi.
Proof.
  intros Hle Hfi Hfi'.
  destruct (mine_Ok_positive b _ min_support fi Hfi) as [Halgo Hms].
  destruct (mine_Ok_positive b _ min_support' fi' Hfi') as [_ Hms'].
  pose proof (mine_Ok_le_1 b _ min_support fi Hfi) as Hms1.
  pose proof (mine_Ok_le_1 b _ min_support' fi' Hfi') as Hms1'.
  destruct (mine_brute_force b "apriori" min_support Halgo Hms Hms1)
    as (? & Heq & Hperm).
  rewrite Hfi in Heq. injection Heq as <-.
  destruct (mine_brute_force b "apriori" min_support' Halgo Hms' Hms1')
    as (? & Heq & Hperm').
  rewrite Hfi' in Heq. injection Heq as <-.
  rewrite Hperm', Hperm. unfold brute_force.
  rewrite filter_fmap, list_filter_filter. simpl.
  f_equiv. erewrite list_filter_iff; [done|].
  intros s. simpl. rewrite !Is_true_true, !Qle_bool_iff.
  split; [|tauto]. intros [Hne Hs]. split_and!; [done..|].
  eapply Qle_trans; [exact Hle|done].
Qed.

Lemma mine_frequent_itemsets_threshold_demo :
  ∃ fi',
    mine_frequent_itemsets (H:=small_object_sort) demo_basket "apriori"
      (3 # 4)%Q = Ok fi' ∧
    fi' ≡ₚ filter (λ row, Qle_bool (3 # 4) (support row)) demo_itemsets.
Proof.
  eexists. split; [by vm_compute|].
  apply (mine_frequent_itemsets_threshold (H:=small_object_sort) demo_basket
           (1 # 2)%Q (3 # 4)%Q); by vm_compute.
Defined.

(** ** The rows of the rules frame *)

Lemma frequent_items_dict_row (fi : list fi_row) (k : gset string) (q : Q) :
  Mlxtend.frequent_items_dict fi !! k = Some q →
  ∃ row, row ∈ fi ∧ itemsets row = k ∧ support row = q.
Proof.
  unfold Mlxtend.frequent_items_dict.
  assert (∀ d : gmap (gset string) Q,
            foldl (λ d r, <[itemsets r := support r]> d) d fi !! k = Some q →
            d !! k = Some q ∨
            ∃ row, row ∈ fi ∧ itemsets row = k ∧ support row = q) as Hgen.
  { induction fi as [|r fi IH]; intros d; simpl; [auto|].
    intros [Hd|(row & ? & ? & ?)]%IH.
    - apply lookup_insert_Some in Hd as [[<- <-]|[_ Hd]]; [|auto].
      right. exists r. split_and!; [by left|done..].
    - right. exists row. split_and!; [by right|done..]. }
  intros [Hd|?]%Hgen; [|done]. by rewrite lookup_empty in Hd.
Qed.

Lemma metric_dict_reaches (metric : string) (score : Q → Q → Q → float)
    (thr sAC sA sC : Q) (ac : gset string * gset string) :
  Mlxtend.metric_dict metric = Some score →
  Mlxtend.reaches (score sAC sA sC) thr →
  let r := Mlxtend.rule_row ac sAC sA sC in
  (metric = "support" → (thr <= rule_support r)%Q) ∧
  (metric = "confidence" → (thr <= confidence r)%Q) ∧
  (metric = "lift" → (thr <= lift r)%Q) ∧
  (metric = "leverage" → (thr <= leverage r)%Q) ∧
  (metric = "conviction" → Mlxtend.reaches (conviction r) thr).
Proof.
  intros Hscore Hreach r. unfold Mlxtend.metric_dict in Hscore.
  split_and!; intros ->; simpl in Hscore; injection Hscore as <-;
    simpl in *; try done; by apply Qle_bool_iff, Is_true_true.
Qed.

(** X13: every rule of the table has a non-empty antecedent and a non-empty
    consequent that share no item and whose union is one of the frequent
    itemsets, and it reaches the threshold on the selected metric. *)
Theorem derive_rules_rule_shape (fi : list fi_row) (metric : string)
    (min_threshold : Q) (rs : list rule_out) (r : rule_out) :
  derive_rules fi metric min_threshold = Ok rs → r ∈ rs →
  antecedents (out r) ≠ ∅ ∧ consequents (out r) ≠ ∅ ∧
  antecedents (out r) ## consequents (out r) ∧
  antecedents (out r) ∪ consequents (out r) ∈ itemsets <$> fi ∧
  (metric = "support" → (min_threshold <= rule_support (out r))%Q) ∧
  (metric = "confidence" → (min_threshold <= confidence (out r))%Q) ∧
  (metric = "lift" → (min_threshold <= lift (out r))%Q) ∧
  (metric = "leverage" → (min_threshold <= leverage (out r))%Q) ∧
  (metric = "conviction" →
   Mlxtend.reaches (conviction (out r)) min_threshold).
Proof.
  intros Hrs Hr.
  destruct (elem_of_derive_rules fi metric min_threshold rs Hrs)
    as (score & Hscore & Hin).
  assert (out r ∈ out <$> rs) as Hout by (apply list_elem_of_fmap; eauto).
  apply Hin in Hout
    as (k & sAC & a & c & sA & sC & Hk & _ & Hac & _ & _ & Hreach & ->).
  destruct (splits_sides k a c Hac) as [[Ha Hak] [Hc Hck]].
  destruct (elem_of_splits k a c Hac) as [_ ->].
  split; [done|]. split; [done|]. split; [set_solver|]. split.
  - simpl. by rewrite <-union_difference_L.
  - by apply (metric_dict_reaches metric score).
Qed.

Lemma derive_rules_rule_shape_demo :
  antecedents (out demo_rule_lm) ≠ ∅ ∧ consequents (out demo_rule_lm) ≠ ∅ ∧
  antecedents (out demo_rule_lm) ## consequents (out demo_rule_lm) ∧
  antecedents (out demo_rule_lm) ∪ consequents (out demo_rule_lm)
    ∈ itemsets <$> demo_itemsets ∧
  ("confidence" = "support" → (1 # 2 <= rule_support (out demo_rule_lm))%Q) ∧
  ("confidence" = "confidence" →
   (1 # 2 <= confidence (out demo_rule_lm))%Q) ∧
  ("confidence" = "lift" → (1 # 2 <= lift (out demo_rule_lm))%Q) ∧
  ("confidence" = "leverage" → (1 # 2 <= leverage (out demo_rule_lm))%Q) ∧
  ("confidence" = "conviction" →
   Mlxtend.reaches (conviction (out demo_rule_lm)) (1 # 2)).
Proof.
  apply (derive_rules_rule_shape demo_itemsets "confidence" (1 # 2)%Q
           demo_rules demo_rule_lm).
  - by vm_compute.
  - apply (list_elem_of_lookup_2 _ 1). by vm_compute.
Defined.

(** *** The rules of a mined frame *)

Lemma pipeline_Ok `{ObjectSort} (b : bool_frame) (algo : string) (ms : Q)
    (metric : string) (thr : Q) (fi : list fi_row) (rs : list rule_out) :
  pipeline b algo ms metric thr = Ok (fi, rs) ↔
  mine_frequent_itemsets b algo ms = Ok fi ∧
  derive_rules fi metric thr = Ok rs.
Proof.
  unfold pipeline.
  destruct (mine_frequent_itemsets b algo ms) as [fi'|e]; simpl;
    [|split; [done|by intros [? _]]].
  destruct (derive_rules fi' metric thr) as [rs'|e] eqn:Hd; simpl.
  - split; [by intros [= <- <-]|]. intros [[= <-] Hd']. congruence.
  - split; [done|]. intros [[= <-] Hd']. congruence.
Qed.

Lemma mine_dict_support `{ObjectSort} (b : bool_frame) (algo : string)
    (ms : Q) (fi : list fi_row) (k : gset string) (q : Q) :
  mine_frequent_itemsets b algo ms = Ok fi →
  Mlxtend.frequent_items_dict fi !! k = Some q →
  ∃ s, valid (length (columns b)) s ∧
       k = Mlxtend.frozenset_of (columns b) s ∧
       q = Mlxtend.support_of (values b) s ∧
       Mlxtend.frequent (values b) ms s.
Proof.
  intros Hfi Hd.
  apply frequent_items_dict_row in Hd as (row & Hrow & <- & <-).
  apply (elem_of_mine b algo ms fi) in Hrow as (s & -> & Hs & _ & Hf);
    [|done].
  by exists s.
Qed.



(** ** Computations of the generator *)

Section GeneratorFacts.
Context `{R : Generate.Runtime}.
Import Generate.

Lemma bind_Returns {A B : Type} (m : G A) (k : A → G B) (s s' : state)
    (b : B) :
  (m ≫= k) s = Returns (b, s') ↔
  ∃ a s1, m s = Returns (a, s1) ∧ k a s1 = Returns (b, s').
Proof.
  unfold mbind, G_bind. destruct (m s) as [[a s1]|e]; naive_solver.
Qed.

Lemma post_ret {A : Type} (a : A) (Φ : A → Prop) : Φ a → post (mret a) Φ.
Proof. intros Ha s a' s' [= <- <-]. done. Qed.

Lemma post_bind {A B : Type} (m : G A) (k : A → G B) (Φ : A → Prop)
    (Ψ : B → Prop) :
  post m Φ → (∀ a, Φ a → post (k a) Ψ) → post (m ≫= k) Ψ.
Proof.
  intros Hm Hk s b s' (a & s1 & Hma & Hkb)%bind_Returns.
  eapply Hk; [|done]. by eapply Hm.
Qed.

Lemma post_mono {A : Type} (m : G A) (Φ Ψ : A → Prop) :
  post m Φ → (∀ a, Φ a → Ψ a) → post m Ψ.
Proof. intros Hm Himp s a s' Hs. eapply Himp, Hm, Hs. Qed.

Lemma post_True {A : Type} (m : G A) : post m (λ _, True).
Proof. done. Qed.

(** A loop keeps an invariant that may speak of the part of the list
    that has been gone through. *)
Lemma post_foldM {A B : Type} (f : B → A → G B) (I : list A → B → Prop)
    (l : list A) (b : B) :
  I [] b →
  (∀ pre x b, I pre b → post (f b x) (I (pre ++ [x]))) →
  post (foldM f b l) (I l).
Proof.
  intros Hb Hstep.
  assert (∀ pre b, I pre b → post (foldM f b l) (I (pre ++ l))) as Hgen.
  { induction l as [|x l IH]; intros pre b' Hb'; simpl.
    - rewrite app_nil_r. by apply post_ret.
    - eapply post_bind; [by apply Hstep|].
      intros b'' Hb''. specialize (IH (pre ++ [x]) b'' Hb'').
      by rewrite <-app_assoc in IH. }
  by apply (Hgen [] b).
Qed.

Lemma returns_post {A : Type} (m : G A) (Φ : A → Prop) :
  returns m Φ → post m Φ.
Proof.
  intros Hm s a s' Hs. destruct (Hm s) as (a' & s'' & Hs' & Ha').
  rewrite Hs in Hs'. by injection Hs' as <- <-.
Qed.

Lemma returns_ret {A : Type} (a : A) (Φ : A → Prop) :
  Φ a → returns (mret a) Φ.
Proof. intros Ha s. by exists a, s. Qed.

Lemma returns_bind {A B : Type} (m : G A) (k : A → G B) (Φ : A → Prop)
    (Ψ : B → Prop) :
  returns m Φ → (∀ a, Φ a → returns (k a) Ψ) → returns (m ≫= k) Ψ.
Proof.
  intros Hm Hk s. destruct (Hm s) as (a & s1 & Hs & Ha).
  destruct (Hk a Ha s1) as (b & s' & Hs1 & Hb).
  exists b, s'. split; [|done]. apply bind_Returns. eauto.
Qed.

Lemma returns_foldM {A B : Type} (f : B → A → G B) (I : B → Prop)
    (l : list A) (b : B) :
  I b → (∀ x b, x ∈ l → I b → returns (f b x) I) →
  returns (foldM f b l) I.
Proof.
  revert b. induction l as [|x l IH]; intros b Hb Hstep; simpl.
  - by apply returns_ret.
  - eapply returns_bind; [apply Hstep; [by left|done]|].
    intros b' Hb'. apply IH; [done|]. intros y b'' Hy. apply Hstep.
    by right.
Qed.

(** *** The draws *)

Lemma returns_random : returns rng_random (λ _, True).
Proof.
  intros [g n]. unfold rng_random. simpl.
  destruct (random g) as [x g']. by eexists _, _.
Qed.

Lemma post_choice {A : Type} (seq : list A) : post (choice seq) (.∈ seq).
Proof.
  intros [g n] x s'. unfold choice. simpl.
  destruct seq as [|y seq]; [done|].
  destruct (randbelow g _) as [i g'].
  destruct (_ !! i) as [x'|] eqn:Hi; [|done].
  intros [= <- <-]. by eapply list_elem_of_lookup_2.
Qed.

Lemma returns_choice {A : Type} (seq : list A) :
  lawful R → seq ≠ [] → returns (choice seq) (.∈ seq).
Proof.
  intros Hlaw Hne [g n]. unfold choice.
  destruct seq as [|y l]; [done|]. cbn [fst snd].
  assert (0 < length (y :: l)) as Hlen by (simpl; lia).
  specialize (Hlaw g _ Hlen).
  destruct (randbelow g (length (y :: l))) as [i g']. simpl in Hlaw.
  destruct (lookup_lt_is_Some_2 (y :: l) i) as [x Hx]; [simpl; lia|].
  rewrite Hx. exists x, (g', n). split; [done|].
  by eapply list_elem_of_lookup_2.
Qed.

Lemma post_randint (a b : Z) :
  lawful R → post (randint a b) (λ x, (a ≤ x ≤ b)%Z).
Proof.
  intros Hlaw [g n] x s'. unfold randint. simpl.
  destruct (Z.ltb_spec 0 (b + 1 - a)) as [Hw|Hw]; [|done].
  assert (0 < Z.to_nat (b + 1 - a)) as Hlen by lia.
  specialize (Hlaw g _ Hlen).
  destruct (randbelow g _) as [i g']. simpl in Hlaw.
  intros [= <- <-]. lia.
Qed.

Lemma randint_empty (a b : Z) (s : state) :
  (b < a)%Z →
  randint a b s = Raises (Exception "ValueError" "empty range for randrange()").
Proof.
  intros Hlt. unfold randint.
  by destruct (Z.ltb_spec 0 (b + 1 - a)) as [Hw|Hw]; [lia|].
Qed.

Lemma dict_get_Some {V : Type} (d : list (string * V)) (k : string) (v : V) :
  dict_get d k = Some v → (k, v) ∈ d.
Proof.
  induction d as [|[k' v'] d IH]; simpl; [done|].
  case_decide as Hk.
  - intros [= ->]. subst k'. by left.
  - intros ?. right. by apply IH.
Qed.

Lemma post_getitem {V : Type} (d : list (string * V)) (k : string) :
  post (getitem d k) (λ v, (k, v) ∈ d).
Proof.
  intros s v s'. unfold getitem.
  destruct (dict_get d k) as [v'|] eqn:Hd; [|done].
  intros [= <- <-]. by apply dict_get_Some.
Qed.

Lemma returns_getitem {V : Type} (d : list (string * V)) (k : string) :
  k ∈ keys d → returns (getitem d k) (λ v, (k, v) ∈ d).
Proof.
  intros Hk s. unfold getitem.
  destruct (dict_get d k) as [v|] eqn:Hd.
  - exists v, s. split; [done|]. by apply dict_get_Some.
  - exfalso. unfold keys in Hk.
    apply list_elem_of_fmap in Hk as ([k' v] & -> & Hin).
    induction d as [|[k'' v''] d IH]; [by apply elem_of_nil in Hin|].
    simpl in Hd. case_decide as Hne; [done|].
    apply elem_of_cons in Hin as [[= -> ->]|Hin]; [done|by apply IH].
Qed.

End GeneratorFacts.

(** ** The constants *)

Lemma co_items_extra (anchor : string) (entry : list string * Z) (it : string) :
  (anchor, entry) ∈ Generate.RANDOM_CATEGORIES → it ∈ entry.1 →
  it ∈ Generate.keys Generate.EXTRA_ITEMS.
Proof.
  assert (Forall (λ kv : string * (list string * Z),
                    Forall (λ it, it ∈ Generate.keys Generate.EXTRA_ITEMS)
                           kv.2.1)
                 Generate.RANDOM_CATEGORIES) as Hall
    by (apply (bool_decide_unpack _); by vm_compute).
  rewrite Forall_forall in Hall. intros Hin Hit.
  specialize (Hall _ Hin). rewrite Forall_forall in Hall. by apply Hall.
Qed.

Lemma extra_not_anchor (it : string) :
  it ∈ Generate.keys Generate.EXTRA_ITEMS → it ∉ Generate.anchors.
Proof.
  assert (Forall (λ it, it ∉ Generate.anchors)
                 (Generate.keys Generate.EXTRA_ITEMS)) as Hall
    by (apply (bool_decide_unpack _); by vm_compute).
  rewrite Forall_forall in Hall. apply Hall.
Qed.

Lemma all_items_keys (it : string) :
  it ∈ Generate.anchors ∨ it ∈ Generate.keys Generate.EXTRA_ITEMS →
  it ∈ Generate.keys Generate.ALL_ITEMS.
Proof.
  assert (Forall (λ it, it ∈ Generate.keys Generate.ALL_ITEMS)
                 (Generate.anchors ++ Generate.keys Generate.EXTRA_ITEMS))
    as Hall by (apply (bool_decide_unpack _); by vm_compute).
  rewrite Forall_forall in Hall. intros Hit. apply Hall.
  by apply elem_of_app.
Qed.

Lemma elem_of_sorted (s : gset string) (x : string) : x ∈ sorted s ↔ x ∈ s.
Proof. unfold sorted. by rewrite elem_of_stable_sort, elem_of_elements. Qed.

(** ** [sample_basket] *)

Section SampleBasket.
Context `{R : Generate.Runtime}.
Import Generate.

Lemma sample_basket_returns :
  lawful R →
  returns sample_basket
    (λ basket,
       StronglySorted (λ a b, String.ltb a b = true) basket ∧
       ∃ anchor, anchor ∈ anchors ∧ anchor ∈ basket ∧
         ∀ it, it ∈ basket →
               it = anchor ∨ it ∈ keys EXTRA_ITEMS).
Proof.
  intros Hlaw. unfold sample_basket.
  eapply returns_bind; [by apply returns_choice|].
  intros anchor Hanchor. simpl in Hanchor.
  eapply returns_bind; [by apply returns_getitem|].
  intros entry Hentry. simpl in Hentry.
  set (I := λ basket : gset string,
         anchor ∈ basket ∧
         ∀ it, it ∈ basket → it = anchor ∨ it ∈ keys EXTRA_ITEMS).
  assert (∀ (p : Q) (basket : gset string) (it : string),
            it ∈ keys EXTRA_ITEMS → I basket →
            returns (x ← rng_random;
                     mret (if Qlt_le_dec x p then basket ∪ {[it]}
                           else basket)) I) as Hstep.
  { intros p basket it Hit [Ha Hb].
    eapply returns_bind; [apply returns_random|].
    intros x _. apply returns_ret.
    destruct (Qlt_le_dec x p); [|done]. split; [set_solver|].
    intros it' [?| ->%elem_of_singleton]%elem_of_union; auto. }
  eapply returns_bind.
  { apply (returns_foldM _ I); [split; set_solver|].
    intros it basket Hit HI. apply Hstep; [|done].
    by apply (co_items_extra anchor entry). }
  intros basket HI.
  eapply returns_bind.
  { apply (returns_foldM _ I); [done|].
    intros it basket' Hit HI'. by apply Hstep. }
  intros basket' [Ha Hb]. apply returns_ret.
  split; [apply sorted_strict|].
  exists anchor. split_and!; [done|by apply elem_of_sorted|].
  intros it Hit%elem_of_sorted. by apply Hb.
Qed.

(** X16: [sample_basket] never raises; the basket it returns is in strictly
    ascending order, made of items of [ALL_ITEMS], and holds exactly one
    of the five anchor products. *)
Theorem sample_basket_one_anchor (s : state) :
  lawful R →
  ∃ basket s',
    sample_basket s = Returns (basket, s') ∧
    StronglySorted (λ a b, String.ltb a b = true) basket ∧
    (∀ it, it ∈ basket → it ∈ keys ALL_ITEMS) ∧
    ∃ anchor, anchor ∈ anchors ∧ anchor ∈ basket ∧
      ∀ it, it ∈ basket → it ∈ anchors → it = anchor.
Proof.
  intros Hlaw.
  destruct (sample_basket_returns Hlaw s)
    as (basket & s' & Hs & Hsorted & anchor & Ha & Hin & Hall).
  exists basket, s'. split_and!; [done..| |].
  - intros it [->|Hit]%Hall; apply all_items_keys; auto.
  - exists anchor. split_and!; [done..|].
    intros it [->|Hit]%Hall Hanc; [done|].
    by apply extra_not_anchor in Hit.
Qed.

End SampleBasket.

Lemma replay_lawful : Generate.lawful replay.
Proof.
  intros [|x g] n Hn; simpl; [done|]. apply Nat.mod_upper_bound. lia.
Qed.

Lemma sample_basket_one_anchor_replay :
  Generate.sample_basket (R:=replay) ([1; 40; 70; 20], [])
  = Generate.Returns (["Monitor"; "Mouse"], ([], [])) ∧
  ∃ basket s',
    Generate.sample_basket (R:=replay) ([1; 40; 70; 20], [])
    = Generate.Returns (basket, s') ∧
    StronglySorted (λ a b, String.ltb a b = true) basket ∧
    (∀ it, it ∈ basket → it ∈ Generate.keys Generate.ALL_ITEMS) ∧
    ∃ anchor, anchor ∈ Generate.anchors ∧ anchor ∈ basket ∧
      ∀ it, it ∈ basket → it ∈ Generate.anchors → it = anchor.
Proof.
  split; [by vm_compute|].
  apply (sample_basket_one_anchor (R:=replay) ([1; 40; 70; 20], [])).
  apply replay_lawful.
Defined.

(** ** The table of [generate] *)

Lemma StronglySorted_fmap_inv {A B : Type} (f : A → B) (R : relation B)
    (l : list A) :
  StronglySorted R (f <$> l) → StronglySorted (λ x y, R (f x) (f y)) l.
Proof.
  induction l as [|x l IH]; [constructor|].
  rewrite fmap_cons. intros [Hx Hl]%StronglySorted_cons.
  constructor; [by apply IH|]. by rewrite Forall_fmap in Hx.
Qed.

Section GenerateFacts.
Context `{R : Generate.Runtime}.
Import Generate.

Lemma post_quantity (it : string) :
  post (if decide (it ∈ ["Printer Paper"; "Ink Cartridge"])
        then choice [1; 2; 3]%Z else mret 1%Z)
       (λ q, (1 ≤ q ≤ 3)%Z ∧ (it ∉ packs → q = 1%Z)).
Proof.
  case_decide as Hit.
  - eapply post_mono; [apply post_choice|].
    intros q Hq. split; [|done].
    repeat (apply elem_of_cons in Hq as [->|Hq]; [lia|]).
    by apply elem_of_nil in Hq.
  - apply post_ret. split; [lia|done].
Qed.

Lemma post_line_of (n_customers oid cid : Z) (date store : string)
    (rows : list row) (it : string) :
  (1 ≤ cid ≤ n_customers)%Z → store ∈ STORES →
  post (line_of oid cid date store rows it)
       (λ rows', ∃ r, rows' = rows ++ [r] ∧ item r = it ∧
                      order_id r = oid ∧ row_ok n_customers r).
Proof.
  intros Hcid Hstore. unfold line_of.
  eapply post_bind; [apply post_getitem|]. intros base Hbase.
  eapply post_bind; [apply post_True|]. intros u _.
  eapply post_bind; [apply post_quantity|]. intros q [Hq Hone].
  assert (it ∈ keys ALL_ITEMS) as Hit.
  { unfold keys. apply list_elem_of_fmap. by exists (it, base). }
  apply post_ret. eexists. split; [reflexivity|].
  unfold row_ok. simpl. split_and!; try done.
  all: try lia.
  by case_decide.
Qed.

Lemma post_lines (n_customers oid cid : Z) (date store : string)
    (rows : list row) (basket : list string) :
  (1 ≤ cid ≤ n_customers)%Z → store ∈ STORES →
  post (foldM (line_of oid cid date store) rows basket)
       (λ rows', ∃ new, rows' = rows ++ new ∧ item <$> new = basket ∧
                        Forall (λ r, order_id r = oid ∧
                                     row_ok n_customers r) new).
Proof.
  intros Hcid Hstore.
  apply (post_foldM _
    (λ pre rows', ∃ new, rows' = rows ++ new ∧ item <$> new = pre ∧
                         Forall (λ r, order_id r = oid ∧
                                      row_ok n_customers r) new)).
  - exists []. by rewrite app_nil_r.
  - intros pre it acc (new & -> & <- & Hnew).
    eapply post_mono; [by apply (post_line_of n_customers)|].
    intros rows' (r & -> & <- & Hoid & Hok).
    exists (new ++ [r]). split_and!.
    + by rewrite app_assoc.
    + by rewrite fmap_app.
    + apply Forall_app. split; [done|]. constructor; [done|constructor].
Qed.

(** One more order keeps the table in shape. *)
Lemma table_inv_order (n_customers : Z) (rows new : list row) (oid : Z)
    (basket : list string) (anchor : string) :
  table_inv n_customers (rows, oid) →
  item <$> new = basket →
  Forall (λ r, order_id r = oid ∧ row_ok n_customers r) new →
  StronglySorted (λ a b, String.ltb a b = true) basket →
  anchor ∈ anchors → anchor ∈ basket →
  (∀ it, it ∈ basket → it = anchor ∨ it ∈ keys EXTRA_ITEMS) →
  table_inv n_customers (rows ++ new, (oid + 1)%Z).
Proof.
  intros (Hoid & Hok & Hsorted & Hids & Hone) Hitems Hnew Hbasket Ha Hin
    Hall.
  simpl in *. rewrite Forall_forall in Hnew.
  assert (∀ r, r ∈ rows → (1 ≤ order_id r < oid)%Z) as Hold.
  { intros r Hr. apply Hids. eauto. }
  assert (∃ r, r ∈ new ∧ item r = anchor) as (ra & Hra & Hia).
  { rewrite <-Hitems in Hin.
    apply list_elem_of_fmap in Hin as (r & -> & Hr). eauto. }
  unfold table_inv. simpl. split_and!.
  - lia.
  - apply Forall_app. split; [done|].
    apply Forall_forall. intros r Hr. by apply Hnew.
  - apply StronglySorted_app_2; [|done|].
    + intros r1 r2 H1 H2. left.
      destruct (Hnew r2 H2) as [-> _]. by apply Hold.
    + rewrite <-Hitems in Hbasket. apply StronglySorted_fmap_inv in Hbasket.
      clear -Hbasket Hnew. induction Hbasket as [|r l Hl IH Hr];
        [constructor|].
      constructor; [apply IH; intros; apply Hnew; by right|].
      rewrite Forall_forall in Hr |- *. intros r' Hr'. right.
      destruct (Hnew r) as [-> _]; [by left|].
      destruct (Hnew r') as [-> _]; [by right|]. split; [done|by apply Hr].
  - intros k. split.
    + intros (r & [Hr|Hr]%elem_of_app & <-).
      * specialize (Hold r Hr). lia.
      * destruct (Hnew r Hr) as [-> _]. lia.
    + intros Hk. destruct (decide (k = oid)) as [->|Hne].
      * exists ra. split; [apply elem_of_app; by right|].
        by destruct (Hnew ra Hra).
      * destruct (proj2 (Hids k)) as (r & Hr & Hrk); [lia|].
        exists r. split; [apply elem_of_app; by left|done].
  - intros k Hk. destruct (decide (k = oid)) as [->|Hne].
    + exists anchor. split_and!; [done| |].
      * exists ra. split_and!; [apply elem_of_app; by right| |done].
        by destruct (Hnew ra Hra).
      * intros r [Hr|Hr]%elem_of_app Hrk Hanc.
        { specialize (Hold r Hr). lia. }
        assert (item r ∈ basket) as Hb
          by (rewrite <-Hitems; apply list_elem_of_fmap; eauto).
        apply Hall in Hb as [Heq|Hextra]; [done|].
        by apply extra_not_anchor in Hextra.
    + destruct (Hone k) as (a & Haa & (r & Hr & Hrk & Hri) & Huniq); [lia|].
      exists a. split_and!; [done| |].
      * exists r. split_and!; [apply elem_of_app; by left|done..].
      * intros r' [Hr'|Hr']%elem_of_app Hrk' Hanc; [by apply Huniq|].
        destruct (Hnew r' Hr') as [Heq _]. congruence.
Qed.

Lemma post_order_of (n_customers : Z) (date : string) (st : list row * Z) :
  lawful R → table_inv n_customers st →
  post (order_of n_customers date st)
       (λ st', table_inv n_customers st' ∧ st'.2 = (st.2 + 1)%Z).
Proof.
  intros Hlaw Hinv. unfold order_of.
  eapply post_bind; [by apply post_randint|]. intros cid Hcid.
  eapply post_bind; [apply post_choice|]. intros store Hstore.
  eapply post_bind; [by apply returns_post, sample_basket_returns|].
  intros basket (Hsorted & anchor & Ha & Hin & Hall).
  eapply post_bind; [by apply (post_lines n_customers)|].
  intros rows' (new & -> & Hitems & Hnew).
  apply post_ret. split; [|done]. simpl.
  destruct st as [rows oid]. by eapply table_inv_order.
Qed.

Lemma post_day_of (start_dt : datetime) (n_customers : Z) (avg : Q)
    (st : list row * Z) (d : nat) :
  lawful R → table_inv n_customers st →
  post (day_of start_dt n_customers avg st d)
       (λ st', table_inv n_customers st' ∧ (st.2 + 1 ≤ st'.2)%Z).
Proof.
  intros Hlaw Hinv. unfold day_of.
  eapply post_bind; [apply post_True|]. intros k _.
  eapply post_mono.
  { apply (post_foldM _
      (λ pre st', table_inv n_customers st' ∧
                  st'.2 = (st.2 + Z.of_nat (length pre))%Z)).
    - split; [done|]. simpl. lia.
    - intros pre x st' [Hinv' Hlen].
      eapply post_mono; [by apply post_order_of|].
      intros st'' [Hinv'' Hnext]. split; [done|].
      rewrite length_app. simpl. lia. }
  intros st' [Hinv' Hlen]. split; [done|].
  rewrite length_seq in Hlen. lia.
Qed.

Lemma table_inv_nil (n_customers : Z) : table_inv n_customers ([], 1%Z).
Proof.
  unfold table_inv. simpl. split_and!; [lia|constructor|constructor| |].
  - intros k. split; [|lia]. by intros (r & ?%elem_of_nil & _).
  - intros k ?. lia.
Qed.

Lemma post_days (start_dt : datetime) (n_customers : Z) (avg : Q)
    (days : nat) :
  lawful R →
  post (foldM (day_of start_dt n_customers avg) ([], 1%Z) (seq 0 days))
       (λ st, table_inv n_customers st ∧ (1 + Z.of_nat days ≤ st.2)%Z).
Proof.
  intros Hlaw. eapply post_mono.
  { apply (post_foldM _
      (λ pre st, table_inv n_customers st ∧
                 (1 + Z.of_nat (length pre) ≤ st.2)%Z)).
    - split; [apply table_inv_nil|]. simpl. lia.
    - intros pre d st [Hinv Hlen].
      eapply post_mono; [by apply post_day_of|].
      intros st' [Hinv' Hnext]. split; [done|].
      rewrite length_app. simpl. lia. }
  intros st [Hinv Hlen]. split; [done|]. by rewrite length_seq in Hlen.
Qed.

(** What a returned table was built from. *)
Lemma generate_Returns (start end_ : string) (n_customers : Z) (avg : Q)
    (seed : Z) (rows : list row) :
  generate start end_ n_customers avg seed = Returns rows →
  ∃ n start_dt end_dt delta next s',
    np_seed seed = Returns n ∧
    fromisoformat start = Returns start_dt ∧
    fromisoformat end_ = Returns end_dt ∧
    days_between end_dt start_dt = Returns delta ∧
    foldM (day_of start_dt n_customers avg) ([], 1%Z)
          (seq 0 (Z.to_nat (delta + 1))) (Random seed, n)
    = Returns ((rows, next), s').
Proof.
  unfold generate.
  destruct (np_seed seed) as [n|]; simpl; [|done].
  destruct (fromisoformat start) as [start_dt|]; simpl; [|done].
  destruct (fromisoformat end_) as [end_dt|]; simpl; [|done].
  destruct (days_between end_dt start_dt) as [delta|] eqn:Hdelta; simpl;
    [|done].
  destruct (foldM _ _ _ _) as [[[rows' next] s']|] eqn:Hloop; simpl;
    [|done].
  intros [= <-]. by exists n, start_dt, end_dt, delta, next, s'.
Qed.

Lemma generate_table_inv (start end_ : string) (n_customers : Z) (avg : Q)
    (seed : Z) (rows : list row) :
  lawful R →
  generate start end_ n_customers avg seed = Returns rows →
  ∃ next, table_inv n_customers (rows, next) ∧
    ∀ start_dt end_dt delta,
      fromisoformat start = Returns start_dt →
      fromisoformat end_ = Returns end_dt →
      days_between end_dt start_dt = Returns delta →
      (delta + 1 < next)%Z.
Proof.
  intros Hlaw (n & start_dt & end_dt & delta & next & s' & _ & Hs & He &
               Hd & Hloop)%generate_Returns.
  destruct (post_days start_dt n_customers avg (Z.to_nat (delta + 1)) Hlaw
              _ _ _ Hloop) as [Hinv Hnext].
  exists next. split; [done|].
  intros start_dt' end_dt' delta' Hs' He' Hd'.
  rewrite Hs in Hs'. injection Hs' as <-.
  rewrite He in He'. injection He' as <-.
  rewrite Hd in Hd'. injection Hd' as <-.
  simpl in Hnext. lia.
Qed.

End GenerateFacts.

(** ** What [generate] returns *)

(** X17: every row of a generated table has an item of [ALL_ITEMS], the
    category "Electronics" (the alternative "Misc" is never taken), a
    store of [STORES], a customer id between 1 and [n_customers], and a
    quantity between 1 and 3, which is 1 unless the item is printer paper
    or an ink cartridge. *)
Theorem generate_rows `{R : Generate.Runtime} (start end_ : string)
    (n_customers : Z) (avg_orders_per_day : Q) (seed : Z)
    (rows : list Generate.row) (r : Generate.row) :
  Generate.lawful R →
  Generate.generate start end_ n_customers avg_orders_per_day seed
  = Generate.Returns rows →
  r ∈ rows →
  Generate.item r ∈ Generate.keys Generate.ALL_ITEMS ∧
  Generate.category r = "Electronics" ∧
  Generate.store r ∈ Generate.STORES ∧
  (1 ≤ Generate.customer_id r ≤ n_customers)%Z ∧
  (1 ≤ Generate.quantity r ≤ 3)%Z ∧
  (Generate.item r ∉ Generate.packs → Generate.quantity r = 1%Z).
Proof.
  intros Hlaw Hgen Hr.
  destruct (generate_table_inv _ _ _ _ _ _ Hlaw Hgen)
    as (next & (_ & Hok & _) & _).
  simpl in Hok. rewrite Forall_forall in Hok. by apply Hok.
Qed.

Lemma replay_generate :
  Generate.generate (R:=replay) "2024-01-01" "2024-01-02" 5 3 4
  = Generate.Returns replay_rows.
Proof. by vm_compute. Qed.

Lemma generate_rows_replay :
  Forall
    (λ r, Generate.item r ∈ Generate.keys Generate.ALL_ITEMS ∧
          Generate.category r = "Electronics" ∧
          Generate.store r ∈ Generate.STORES ∧
          (1 ≤ Generate.customer_id r ≤ 5)%Z ∧
          (1 ≤ Generate.quantity r ≤ 3)%Z ∧
          (Generate.item r ∉ Generate.packs → Generate.quantity r = 1%Z))
    replay_rows.
Proof.
  apply Forall_forall. intros r.
  apply (generate_rows (R:=replay) "2024-01-01" "2024-01-02" 5 3 4
           replay_rows r).
  - apply replay_lawful.
  - by vm_compute.
Defined.

(** X18: the order ids of a generated table are 1, 2, ..., n without a gap,
    with at least one order for every day of the range, whatever the
    average asked for; the rows come by ascending order id and, within an
    order, by strictly ascending item, so that no order lists an item
    twice; and every order holds exactly one anchor product. *)
Theorem generate_orders `{R : Generate.Runtime} (start end_ : string)
    (n_customers : Z) (avg_orders_per_day : Q) (seed : Z)
    (rows : list Generate.row) :
  Generate.lawful R →
  Generate.generate start end_ n_customers avg_orders_per_day seed
  = Generate.Returns rows →
  ∃ n_orders : Z,
    (∀ k, (∃ r, r ∈ rows ∧ Generate.order_id r = k) ↔ (1 ≤ k ≤ n_orders)%Z) ∧
    StronglySorted Generate.row_lt rows ∧
    (∀ k, (1 ≤ k ≤ n_orders)%Z → Generate.one_anchor rows k) ∧
    (∀ start_dt end_dt delta,
       Generate.fromisoformat start = Generate.Returns start_dt →
       Generate.fromisoformat end_ = Generate.Returns end_dt →
       Generate.days_between end_dt start_dt = Generate.Returns delta →
       (delta + 1 ≤ n_orders)%Z).
Proof.
  intros Hlaw Hgen.
  destruct (generate_table_inv _ _ _ _ _ _ Hlaw Hgen)
    as (next & (Hnext & _ & Hsorted & Hids & Hone) & Hdays).
  simpl in *. exists (next - 1)%Z. split_and!.
  - intros k. rewrite Hids. lia.
  - done.
  - intros k Hk. apply Hone. lia.
  - intros start_dt end_dt delta Hs He Hd.
    specialize (Hdays start_dt end_dt delta Hs He Hd). lia.
Qed.

Lemma generate_orders_replay :
  ∃ n_orders : Z,
    (∀ k, (∃ r, r ∈ replay_rows ∧ Generate.order_id r = k)
          ↔ (1 ≤ k ≤ n_orders)%Z) ∧
    StronglySorted Generate.row_lt replay_rows ∧
    (∀ k, (1 ≤ k ≤ n_orders)%Z → Generate.one_anchor replay_rows k) ∧
    (∀ start_dt end_dt delta,
       Generate.fromisoformat (Runtime:=replay) "2024-01-01"
       = Generate.Returns start_dt →
       Generate.fromisoformat (Runtime:=replay) "2024-01-02"
       = Generate.Returns end_dt →
       Generate.days_between (Runtime:=replay) end_dt start_dt
       = Generate.Returns delta →
       (delta + 1 ≤ n_orders)%Z).
Proof.
  apply (generate_orders (R:=replay) "2024-01-01" "2024-01-02" 5 3 4
           replay_rows).
  - apply replay_lawful.
  - by vm_compute.
Defined.

(** X20: when the end date lies before the start date, [generate] returns the
    empty table: no draw is made and nothing is raised. *)
Theorem generate_end_before_start `{R : Generate.Runtime}
    (start end_ : string) (n_customers : Z) (avg_orders_per_day : Q)
    (seed : Z) (n : Generate.np_rng) (start_dt end_dt : Generate.datetime)
    (delta : Z) :
  Generate.np_seed seed = Generate.Returns n →
  Generate.fromisoformat start = Generate.Returns start_dt →
  Generate.fromisoformat end_ = Generate.Returns end_dt →
  Generate.days_between end_dt start_dt = Generate.Returns delta →
  (delta < 0)%Z →
  Generate.generate start end_ n_customers avg_orders_per_day seed
  = Generate.Returns [].
Proof.
  intros Hn Hs He Hd Hneg. unfold Generate.generate.
  rewrite Hn. simpl. rewrite Hs. simpl. rewrite He. simpl. rewrite Hd.
  simpl. by replace (Z.to_nat (delta + 1)) with 0 by lia.
Qed.

Lemma generate_end_before_start_replay :
  Generate.generate (R:=replay) "2024-01-03" "2024-01-01" 5 3 4
  = Generate.Returns [].
Proof.
  apply (generate_end_before_start (R:=replay) "2024-01-03" "2024-01-01"
           5 3 4 [2; 5; 50; 1; 20] 3%Z 1%Z (-2)%Z); done.
Defined.

(** X21: with fewer than one customer and a range of at least one day,
    [generate] raises the [ValueError] of [randint] at its first order:
    every day has at least one order. *)
Theorem generate_no_customer `{R : Generate.Runtime}
    (start end_ : string) (n_customers : Z) (avg_orders_per_day : Q)
    (seed : Z) (n n' : Generate.np_rng)
    (start_dt end_dt : Generate.datetime) (delta k : Z) :
  Generate.np_seed seed = Generate.Returns n →
  Generate.fromisoformat start = Generate.Returns start_dt →
  Generate.fromisoformat end_ = Generate.Returns end_dt →
  Generate.days_between end_dt start_dt = Generate.Returns delta →
  (0 ≤ delta)%Z →
  Generate.np_poisson n avg_orders_per_day = Generate.Returns (k, n') →
  (n_customers < 1)%Z →
  ∃ msg,
    Generate.generate start end_ n_customers avg_orders_per_day seed
    = Generate.Raises (Generate.Exception "ValueError" msg).
Proof.
  intros Hn Hs He Hd Hpos Hk Hnone. eexists. unfold Generate.generate.
  rewrite Hn. simpl. rewrite Hs. simpl. rewrite He. simpl. rewrite Hd.
  simpl.
  destruct (Z.to_nat (delta + 1)) as [|days] eqn:Hdays; [lia|].
  simpl. unfold mbind at 2, Generate.G_bind.
  unfold Generate.day_of at 1.
  unfold mbind at 2, Generate.G_bind. unfold Generate.poisson at 1.
  simpl. rewrite Hk.
  destruct (Z.to_nat (Z.max 1 k)) as [|orders] eqn:Horders; [lia|].
  simpl. unfold mbind at 2, Generate.G_bind.
  unfold Generate.order_of at 1.
  unfold mbind at 2, Generate.G_bind.
  by rewrite randint_empty by lia.
Qed.

Lemma generate_no_customer_replay :
  ∃ msg,
    Generate.generate (R:=replay) "2024-01-01" "2024-01-01" 0 3 4
    = Generate.Raises (Generate.Exception "ValueError" msg).
Proof.
  apply (generate_no_customer (R:=replay) "2024-01-01" "2024-01-01"
           0 3 4 [2; 5; 50; 1; 20] [5; 50; 1; 20] 1%Z 1%Z 0%Z 2%Z); done.
Defined.

(** ** A generated table, pivoted and mined *)

Lemma sorted_range (l : list Z) (n : Z) :
  StronglySorted Z.lt l → (∀ k, k ∈ l ↔ (1 ≤ k ≤ n)%Z) →
  l = Z.of_nat <$> seq 1 (Z.to_nat n).
Proof.
  intros Hsorted Hin.
  assert (StronglySorted Z.lt (Z.of_nat <$> seq 1 (Z.to_nat n))) as Hseq.
  { apply (StronglySorted_fmap _ lt); [lia|apply StronglySorted_seq]. }
  assert (∀ l' : list Z, StronglySorted Z.lt l' → NoDup l') as Hnd.
  { clear. intros l'. induction 1 as [|x l' Hl IH Hx]; constructor; [|done].
    rewrite Forall_forall in Hx. intros Hin. specialize (Hx x Hin). lia. }
  apply (StronglySorted_unique_strong Z.lt); [intros; lia|done..|].
  apply NoDup_Permutation; [by apply Hnd..|].
  intros k. rewrite Hin, list_elem_of_fmap. setoid_rewrite elem_of_seq.
  split.
  - intros Hk. exists (Z.to_nat k). lia.
  - intros (i & -> & Hi). lia.
Qed.

Lemma elem_of_transactions (rows : list Generate.row) (r : line_item) :
  r ∈ transactions rows ↔
  ∃ g, g ∈ rows ∧ order_id r = Generate.order_id g ∧
       item r = Generate.item g ∧ quantity r = Generate.quantity g.
Proof.
  unfold transactions. rewrite list_elem_of_fmap. split.
  - intros (g & -> & Hg). by exists g.
  - intros (g & Hg & Ho & Hi & Hq). exists g. split; [|done].
    destruct r. simpl in *. by subst.
Qed.

Section Generated.
Context `{R : Generate.Runtime}.
Variables (start end_ : string) (n_customers : Z) (avg : Q) (seed : Z).
Variable rows : list Generate.row.
Hypothesis Hlaw : Generate.lawful R.
Hypothesis Hgen :
  Generate.generate start end_ n_customers avg seed = Generate.Returns rows.

Lemma generated_bought (o : Z) (it : string) :
  bought (transactions rows) o it ↔
  ∃ g, g ∈ rows ∧ Generate.order_id g = o ∧ Generate.item g = it.
Proof.
  destruct (generate_table_inv _ _ _ _ _ _ Hlaw Hgen)
    as (next & (_ & Hok & _) & _).
  simpl in Hok. rewrite Forall_forall in Hok. unfold bought. split.
  - intros (r & (g & Hg & Ho & Hi & _)%elem_of_transactions & <- & <- & _).
    by exists g.
  - intros (g & Hg & <- & <-).
    exists {| order_id := Generate.order_id g; item := Generate.item g;
              quantity := Generate.quantity g |}.
    split_and!; [|done..|].
    + apply elem_of_transactions. by exists g.
    + simpl. destruct (Hok g Hg) as (_ & _ & _ & _ & Hq & _). lia.
Qed.

Lemma generated_cell (i j : nat) (o : Z) (it : string) :
  index (load_and_prepare (transactions rows)) !! i = Some o →
  columns (load_and_prepare (transactions rows)) !! j = Some it →
  cell (load_and_prepare (transactions rows)) i j = true ↔
  ∃ g, g ∈ rows ∧ Generate.order_id g = o ∧ Generate.item g = it.
Proof.
  intros Hi Hj. rewrite (cell_load_and_prepare _ i j o it Hi Hj).
  rewrite (cell_of_group _ (group_flags _ o it)), elem_of_group_1.
  apply generated_bought.
Qed.

Lemma generated_index :
  ∃ n_orders : Z,
    index (load_and_prepare (transactions rows))
    = Z.of_nat <$> seq 1 (Z.to_nat n_orders) ∧
    (∀ k, (1 ≤ k ≤ n_orders)%Z → Generate.one_anchor rows k).
Proof.
  destruct (generate_table_inv _ _ _ _ _ _ Hlaw Hgen)
    as (next & (Hnext & _ & _ & Hids & Hone) & _).
  simpl in Hnext, Hids, Hone. exists (next - 1)%Z. split.
  - apply sorted_range.
    + eapply StronglySorted_impl;
        [|apply (sorted_keys_strict Z.leb);
          [apply Z_leb_total|apply Z_leb_trans]].
      intros x y [Hle%Z.leb_le Hne]. simpl in *. lia.
    + intros k. rewrite elem_of_index_load_and_prepare.
      transitivity (∃ g, g ∈ rows ∧ Generate.order_id g = k);
        [|rewrite Hids; lia].
      split.
      * intros (r & (g & Hg & Ho & _)%elem_of_transactions & <-).
        by exists g.
      * intros (g & Hg & <-).
        exists {| order_id := Generate.order_id g;
                  item := Generate.item g;
                  quantity := Generate.quantity g |}.
        split; [|done]. apply elem_of_transactions. by exists g.
  - intros k Hk. apply Hone. lia.
Qed.

End Generated.

(** X22: the matrix of a generated table: its rows are labelled 1, 2, ...
    without a gap, a cell is true exactly when the table has a row of that
    order and item, and no order is empty. *)
Theorem generate_basket_matrix `{R : Generate.Runtime} (start end_ : string)
    (n_customers : Z) (avg_orders_per_day : Q) (seed : Z)
    (rows : list Generate.row) :
  Generate.lawful R →
  Generate.generate start end_ n_customers avg_orders_per_day seed
  = Generate.Returns rows →
  let b := load_and_prepare (transactions rows) in
  index b = Z.of_nat <$> seq 1 (length (index b)) ∧
  (∀ i j o it,
     index b !! i = Some o → columns b !! j = Some it →
     (cell b i j = true ↔
      ∃ g, g ∈ rows ∧ Generate.order_id g = o ∧ Generate.item g = it)) ∧
  (∀ i, i < length (index b) → ∃ j, cell b i j = true).
Proof.
  intros Hlaw Hgen b.
  destruct (generated_index _ _ _ _ _ _ Hlaw Hgen) as (n & Hidx & Hone).
  fold b in Hidx. split_and!.
  - rewrite Hidx at 1. by rewrite Hidx, length_fmap, length_seq.
  - intros i j o it. by apply (generated_cell _ _ _ _ _ _ Hlaw Hgen).
  - intros i Hi. destruct (lookup_lt_is_Some_2 _ _ Hi) as [o Ho].
    assert (1 ≤ o ≤ n)%Z as Hrange.
    { apply list_elem_of_lookup_2 in Ho. rewrite Hidx in Ho.
      apply list_elem_of_fmap in Ho as (k & -> & Hk%elem_of_seq). lia. }
    destruct (Hone o Hrange) as (a & _ & (g & Hg & Hgo & Hga) & _).
    assert (a ∈ columns b) as Ha.
    { apply elem_of_columns_load_and_prepare.
      exists {| order_id := Generate.order_id g; item := Generate.item g;
                quantity := Generate.quantity g |}.
      split; [|done]. apply elem_of_transactions. by exists g. }
    apply list_elem_of_lookup_1 in Ha as [j Hj]. exists j.
    apply (generated_cell _ _ _ _ _ _ Hlaw Hgen i j o a Ho Hj). eauto.
Qed.

Lemma generate_basket_matrix_replay :
  let b := load_and_prepare (transactions replay_rows) in
  index b = [1; 2; 3]%Z ∧
  index b = Z.of_nat <$> seq 1 (length (index b)) ∧
  (∀ i j o it,
     index b !! i = Some o → columns b !! j = Some it →
     (cell b i j = true ↔
      ∃ g, g ∈ replay_rows ∧ Generate.order_id g = o ∧
           Generate.item g = it)) ∧
  (∀ i, i < length (index b) → ∃ j, cell b i j = true).
Proof.
  split; [by vm_compute|].
  apply (generate_basket_matrix (R:=replay) "2024-01-01" "2024-01-02" 5 3 4
           replay_rows).
  - apply replay_lawful.
  - by vm_compute.
Defined.

Lemma ratio_pos (c n : nat) : (0 < Mlxtend.ratio c n)%Q → 0 < c.
Proof. unfold Mlxtend.ratio, Qlt. simpl. lia. Qed.

Lemma count_pos (X : list (list bool)) (s : list nat) :
  0 < Mlxtend.count X s →
  ∃ i x, X !! i = Some x ∧ ∀ j, j ∈ s → nth j x false = true.
Proof.
  unfold Mlxtend.count. intros Hpos.
  destruct (filter _ X) as [|x l] eqn:Hf; [simpl in Hpos; lia|].
  assert (x ∈ filter (λ row, Mlxtend.contains s row) X) as Hx
    by (rewrite Hf; left).
  apply list_elem_of_filter in Hx as [Hc Hx].
  apply list_elem_of_lookup_1 in Hx as [i Hi]. exists i, x.
  split; [done|]. intros j Hj.
  apply contains_spec with (j := j) in Hc; [|done].
  by apply Is_true_true.
Qed.

(** X23: in the frequent itemsets mined from a generated table, whatever the
    algorithm and the threshold, no itemset holds two anchor products:
    the orders of the generator never put two of them together. *)
Theorem generate_anchors_apart `{R : Generate.Runtime} `{O : ObjectSort}
    (start end_ : string) (n_customers : Z) (avg_orders_per_day : Q)
    (seed : Z) (rows : list Generate.row) (algo : string) (min_support : Q)
    (fi : list fi_row) (row : fi_row) (a1 a2 : string) :
  Generate.lawful R →
  Generate.generate start end_ n_customers avg_orders_per_day seed
  = Generate.Returns rows →
  mine_frequent_itemsets (load_and_prepare (transactions rows)) algo
                         min_support = Ok fi →
  row ∈ fi →
  a1 ∈ Generate.anchors → a2 ∈ Generate.anchors →
  a1 ∈ itemsets row → a2 ∈ itemsets row →
  a1 = a2.
Proof.
  intros Hlaw Hgen Hfi Hrow Ha1 Ha2 Hin1 Hin2.
  set (b := load_and_prepare (transactions rows)) in *.
  destruct (mine_Ok_positive b algo min_support fi Hfi) as [_ Hms].
  apply (elem_of_mine b algo min_support fi) in Hrow
    as (s & -> & Hs & _ & Hf); [|done].
  pose proof (support_of_reach_positive _ _ _ Hms Hf) as Hpos.
  apply ratio_pos, count_pos in Hpos as (i & x & Hi & Hx).
  apply valid_alt in Hs as [_ Hlt]. rewrite Forall_forall in Hlt.
  assert (i < length (index b)) as Hlen.
  { unfold b. rewrite <-length_values_load_and_prepare.
    by eapply lookup_lt_Some. }
  destruct (lookup_lt_is_Some_2 _ _ Hlen) as [o Ho].
  destruct (generated_index _ _ _ _ _ _ Hlaw Hgen) as (n & Hidx & Hone).
  fold b in Hidx.
  assert (1 ≤ o ≤ n)%Z as Hrange.
  { apply list_elem_of_lookup_2 in Ho. rewrite Hidx in Ho.
    apply list_elem_of_fmap in Ho as (k & -> & Hk%elem_of_seq). lia. }
  destruct (Hone o Hrange) as (a & _ & _ & Huniq).
  assert (∀ a', a' ∈ Generate.anchors →
                a' ∈ Mlxtend.frozenset_of (columns b) s → a' = a) as Hall.
  { intros a' Hanc Hin. unfold Mlxtend.frozenset_of in Hin.
    apply elem_of_list_to_set, list_elem_of_fmap in Hin as (j & -> & Hj).
    destruct (lookup_lt_is_Some_2 _ _ (Hlt j Hj)) as [it Hit].
    rewrite (nth_lookup_Some _ _ _ _ Hit) in Hanc |- *.
    assert (cell b i j = true) as Hcell.
    { unfold cell. rewrite (nth_lookup_Some _ _ _ _ Hi). by apply Hx. }
    apply (generated_cell _ _ _ _ _ _ Hlaw Hgen i j o it Ho Hit) in Hcell
      as (g & Hg & Hgo & <-).
    by apply Huniq. }
  simpl in Hin1, Hin2.
  by rewrite (Hall a1 Ha1 Hin1), (Hall a2 Ha2 Hin2).
Qed.

Lemma generate_anchors_apart_replay :
  ∃ fi,
    mine_frequent_itemsets (H:=small_object_sort)
      (load_and_prepare (transactions replay_rows)) "fpgrowth" (1 # 3)%Q
    = Ok fi ∧
    {| support := 2 # 3; itemsets := {["Laptop"]} |} ∈ fi ∧
    ∀ row a1 a2, row ∈ fi →
      a1 ∈ Generate.anchors → a2 ∈ Generate.anchors →
      a1 ∈ itemsets row → a2 ∈ itemsets row → a1 = a2.
Proof.
  eexists. split; [by vm_compute|]. split.
  { apply (list_elem_of_lookup_2 _ 0). by vm_compute. }
  intros row a1 a2.
  apply (generate_anchors_apart (R:=replay) (O:=small_object_sort)
           "2024-01-01" "2024-01-02" 5 3 4 replay_rows "fpgrowth"
           (1 # 3)%Q).
  - apply replay_lawful.
  - by vm_compute.
  - by vm_compute.
Defined.

(** ** The prices of a generated table *)

Lemma round_half_even_ge (x : Q) (a : Z) :
  (inject_Z a <= x)%Q → (a ≤ Generate.round_half_even x)%Z.
Proof.
  intros Hle. unfold Generate.round_half_even.
  assert (a ≤ Qfloor x)%Z as Hf.
  { rewrite <-(Qfloor_Z a). by apply Qfloor_resp_le. }
  destruct (_ ?= _)%Q; [destruct (Z.even _)|..]; lia.
Qed.

Lemma round_half_even_le (x : Q) (b : Z) :
  (x <= inject_Z b)%Q → (Generate.round_half_even x ≤ b)%Z.
Proof.
  intros Hle. unfold Generate.round_half_even.
  pose proof (Qfloor_le x) as Hfx.
  assert (Qfloor x ≤ b)%Z as Hf.
  { rewrite <-(Qfloor_Z b). by apply Qfloor_resp_le. }
  assert ((inject_Z (Qfloor x) < x)%Q → (Qfloor x + 1 ≤ b)%Z) as Hup.
  { intros Hlt. assert (inject_Z (Qfloor x) < inject_Z b)%Q as Hfb
      by by eapply Qlt_le_trans.
    rewrite <-Zlt_Qlt in Hfb. lia. }
  destruct (x - inject_Z (Qfloor x) ?= 1 # 2)%Q eqn:Hc.
  - apply Qeq_alt in Hc. destruct (Z.even _); [done|]. apply Hup. lra.
  - done.
  - apply Qgt_alt in Hc. apply Hup. lra.
Qed.

Lemma round2_bounds (x : Q) (a b : Z) :
  (inject_Z a <= x * 100)%Q → (x * 100 <= inject_Z b)%Q →
  (inject_Z a / 100 <= Generate.round2 x)%Q ∧
  (Generate.round2 x <= inject_Z b / 100)%Q.
Proof.
  intros Ha Hb. unfold Generate.round2, Qdiv.
  split; (apply Qmult_le_compat_r; [|done]); rewrite <-Zle_Qle.
  - by apply round_half_even_ge.
  - by apply round_half_even_le.
Qed.

Lemma all_items_positive (it : string) (base : Z) :
  (it, base) ∈ Generate.ALL_ITEMS → (0 < base)%Z.
Proof.
  assert (Forall (λ kv : string * Z, (0 < kv.2)%Z) Generate.ALL_ITEMS)
    as Hall by (apply (bool_decide_unpack _); by vm_compute).
  rewrite Forall_forall in Hall. apply Hall.
Qed.

Section Prices.
Context `{R : Generate.Runtime}.
Import Generate.

(** What every row of a line satisfies, every row of the table does. *)
Lemma generate_Forall (P : row → Prop) (start end_ : string)
    (n_customers : Z) (avg : Q) (seed : Z) (rows : list row) :
  (∀ oid cid date store acc it,
     post (line_of oid cid date store acc it)
          (λ acc', ∃ r, acc' = acc ++ [r] ∧ P r)) →
  generate start end_ n_customers avg seed = Returns rows →
  Forall P rows.
Proof.
  intros Hline (n & start_dt & end_dt & delta & next & s' & _ & _ & _ & _ &
                Hloop)%generate_Returns.
  assert (∀ oid cid date store acc basket,
            Forall P acc →
            post (foldM (line_of oid cid date store) acc basket)
                 (Forall P)) as Hlines.
  { intros oid cid date store acc basket Hacc.
    apply (post_foldM _ (λ _ acc', Forall P acc')); [done|].
    intros _ it acc' Hacc'. eapply post_mono; [apply Hline|].
    intros acc'' (r & -> & Hr). apply Forall_app. split; [done|].
    constructor; [done|constructor]. }
  assert (∀ date st, Forall P st.1 →
            post (order_of n_customers date st) (λ st', Forall P st'.1))
    as Horder.
  { intros date st Hst. unfold order_of.
    eapply post_bind; [apply post_True|]. intros cid _.
    eapply post_bind; [apply post_True|]. intros store _.
    eapply post_bind; [apply post_True|]. intros basket _.
    eapply post_bind; [by apply Hlines|]. intros acc Hacc.
    by apply post_ret. }
  assert (∀ st d, Forall P st.1 →
            post (day_of start_dt n_customers avg st d)
                 (λ st', Forall P st'.1)) as Hday.
  { intros st d Hst. unfold day_of.
    eapply post_bind; [apply post_True|]. intros k _.
    apply (post_foldM _ (λ _ st', Forall P st'.1)); [done|].
    intros _ _ st' Hst'. by apply Horder. }
  assert (post (foldM (day_of start_dt n_customers avg) ([], 1%Z)
                      (seq 0 (Z.to_nat (delta + 1))))
               (λ st, Forall P st.1)) as Hdays.
  { apply (post_foldM _ (λ _ st', Forall P st'.1)); [constructor|].
    intros _ d st Hst. by apply Hday. }
  apply (Hdays _ _ _ Hloop).
Qed.

Lemma post_line_of_price (oid cid : Z) (date store : string)
    (acc : list row) (it : string) :
  lawful_uniform R →
  post (line_of oid cid date store acc it)
       (λ acc', ∃ r, acc' = acc ++ [r] ∧
          ∃ base, (item r, base) ∈ ALL_ITEMS ∧
                  (inject_Z (90 * base) / 100 <= price r)%Q ∧
                  (price r <= inject_Z (110 * base) / 100)%Q).
Proof.
  intros Hlaw. unfold line_of.
  eapply post_bind; [apply post_getitem|]. intros base Hbase.
  eapply post_bind.
  { instantiate (1 := λ u, (9 # 10 <= u)%Q ∧ (u <= 11 # 10)%Q).
    intros [g n] u s'. unfold uniform. simpl.
    destruct (Hlaw n (9 # 10)%Q (11 # 10)%Q) as [Hlo Hhi]; [done|].
    destruct (np_uniform n _ _) as [u' n']. simpl in *.
    by intros [= <- <-]. }
  intros u [Hlo Hhi].
  eapply post_bind; [apply post_True|]. intros q _.
  apply post_ret. eexists. split; [reflexivity|].
  exists base. split; [done|]. simpl.
  pose proof (all_items_positive it base Hbase) as Hpos.
  assert (0 < inject_Z base)%Q as Hpos'
    by (by rewrite (Zlt_Qlt 0 base) in Hpos).
  apply round2_bounds; rewrite inject_Z_mult.
  - assert (inject_Z base * (9 # 10) <= inject_Z base * u)%Q
      by (apply Qmult_le_l; done).
    change (inject_Z 90) with 90%Q. lra.
  - assert (inject_Z base * u <= inject_Z base * (11 # 10))%Q
      by (apply Qmult_le_l; done).
    change (inject_Z 110) with 110%Q. lra.
Qed.

End Prices.

(** X19: every price of a generated table is the catalogue price of its item
    within ten percent either way, the rounding to the cent included; it
    is positive. *)
Theorem generate_prices `{R : Generate.Runtime} (start end_ : string)
    (n_customers : Z) (avg_orders_per_day : Q) (seed : Z)
    (rows : list Generate.row) (r : Generate.row) :
  Generate.lawful_uniform R →
  Generate.generate start end_ n_customers avg_orders_per_day seed
  = Generate.Returns rows →
  r ∈ rows →
  ∃ base, (Generate.item r, base) ∈ Generate.ALL_ITEMS ∧
          (inject_Z (90 * base) / 100 <= Generate.price r)%Q ∧
          (Generate.price r <= inject_Z (110 * base) / 100)%Q ∧
          (0 < Generate.price r)%Q.
Proof.
  intros Hlaw Hgen Hr.
  pose proof (generate_Forall _ _ _ _ _ _ _
                (λ oid cid date store acc it,
                   post_line_of_price oid cid date store acc it Hlaw)
                Hgen) as Hall.
  rewrite Forall_forall in Hall.
  destruct (Hall r Hr) as (base & Hbase & Hlo & Hhi).
  exists base. split_and!; [done..|].
  pose proof (all_items_positive _ _ Hbase) as Hpos.
  assert (0 < inject_Z (90 * base) / 100)%Q as Hpos'.
  { apply Qlt_shift_div_l; [done|]. rewrite Qmult_0_l.
    change (inject_Z 0 < inject_Z (90 * base))%Q. rewrite <-Zlt_Qlt. lia. }
  lra.
Qed.

Lemma replay_lawful_uniform : Generate.lawful_uniform replay.
Proof.
  intros [|x n] low high Hle; cbn -[Nat.modulo Z.of_nat];
    [split; [apply Qle_refl|done]|].
  pose proof (Nat.mod_upper_bound x 100) as Hmod.
  assert (0 <= Z.of_nat (x `mod` 100) # 100)%Q as H0.
  { unfold Qle. cbn -[Nat.modulo Z.of_nat]. lia. }
  assert (Z.of_nat (x `mod` 100) # 100 <= 1)%Q as H1.
  { unfold Qle. cbn -[Nat.modulo Z.of_nat]. lia. }
  set (c := (Z.of_nat (x `mod` 100) # 100)%Q) in *. clearbody c.
  assert (0 <= high - low)%Q as Hd by lra.
  pose proof (Qmult_le_0_compat _ _ Hd H0) as Hlo.
  pose proof (Qmult_le_compat_r _ _ _ H1 Hd) as Hhi.
  split; lra.
Qed.

Lemma generate_prices_replay :
  Forall
    (λ r, ∃ base, (Generate.item r, base) ∈ Generate.ALL_ITEMS ∧
                  (inject_Z (90 * base) / 100 <= Generate.price r)%Q ∧
                  (Generate.price r <= inject_Z (110 * base) / 100)%Q ∧
                  (0 < Generate.price r)%Q)
    replay_rows.
Proof.
  apply Forall_forall. intros r.
  apply (generate_prices (R:=replay) "2024-01-01" "2024-01-02" 5 3 4
           replay_rows r).
  - apply replay_lawful_uniform.
  - by vm_compute.
Defined.
